(** * CatsTrie: a frequency-annotated trie with greedy autocompletion

    Shallow embedding of [Trie.py].  Python objects live in a heap (an
    arena of [Node] records addressed by their index); every method is a
    computation in a small state-and-exception monad over that heap, so
    that field writes, allocation and the rebinding of the local variable
    [current] are modelled as the source performs them. *)

From Stdlib Require Import ZArith Ascii String.
From stdpp Require Import base tactics option numbers list strings.

Local Open Scope Z_scope.

(** ** Python strings *)

(** A Python [str] is modelled as the list of its characters. *)
Abbreviation str := (list ascii).

Definition ord (c : ascii) : Z := Z.of_nat (nat_of_ascii c).
Definition chr (i : Z) : ascii := ascii_of_nat (Z.to_nat i).

(** Literals: [lit "abc"] is the Python string ["abc"]. *)
Definition lit (s : string) : str := list_ascii_of_string s.

(** The spec's input alphabet: the 26 letters [a]..[z]. *)
Definition is_lower (c : ascii) : bool := (97 <=? ord c) && (ord c <=? 122).
Definition lowercase (s : str) : bool := forallb is_lower s.

(** ** Python list indexing *)

(** [l[i]] for a Python list: a negative index counts from the end, and an
    index outside [-len, len) raises [IndexError] (here: [None]). *)
Definition py_norm (len i : Z) : option nat :=
  if (0 <=? i) && (i <? len) then Some (Z.to_nat i)
  else if (- len <=? i) && (i <? 0) then Some (Z.to_nat (i + len))
  else None.

Definition py_getitem {A} (l : list A) (i : Z) : option A :=
  match py_norm (Z.of_nat (length l)) i with
  | Some n => l !! n
  | None => None
  end.

Definition py_setitem {A} (l : list A) (i : Z) (x : A) : option (list A) :=
  match py_norm (Z.of_nat (length l)) i with
  | Some n => Some (<[n := x]> l)
  | None => None
  end.

(** ** Heap of nodes *)

Abbreviation loc := nat.

(** [class Node]: the 27 links (slot 0 is the end-of-sentence slot, slots
    1..26 the letters), each [None] or a reference to a node. *)
Record Node := mkNode {
  link : list (option loc);
  frequency : Z;
  best_sub_frequency : Z
}.

Abbreviation heap := (list Node).

(** [Node.__init__] *)
Definition Node_init : Node := mkNode (replicate 27 None) 0 0.

(** ** The monad of heap computations *)

(** Python's exceptions, and two outcomes of the model alone: a reference
    to a node that was never allocated, and the end of the fuel. *)
Inductive exn :=
  IndexError | AttributeError | UnboundLocalError | RecursionError | BadRef | OutOfFuel.

Inductive outcome (A : Type) :=
| Ok (a : A)
| Raise (e : exn).
Arguments Ok {A} a.
Arguments Raise {A} e.

(** A Python computation returning an [A]: it runs on a heap and ends with
    a value or an exception, and the heap it leaves. *)
Definition Py (A : Type) : Type := heap -> outcome A * heap.

Definition ret {A} (a : A) : Py A := fun h => (Ok a, h).
Definition raise {A} (e : exn) : Py A := fun h => (Raise e, h).
Definition bind {A B} (m : Py A) (f : A -> Py B) : Py B :=
  fun h => match m h with
           | (Ok a, h') => f a h'
           | (Raise e, h') => (Raise e, h')
           end.

Declare Scope heap_scope.
Delimit Scope heap_scope with heap.
Notation "x <- c1 ;; c2" := (bind c1 (fun x => c2))
  (at level 100, c1 at next level, right associativity) : heap_scope.
Notation "c1 ;;; c2" := (bind c1 (fun _ => c2))
  (at level 100, right associativity) : heap_scope.
Local Open Scope heap_scope.

(** [Node()]: allocate a fresh node at the end of the arena. *)
Definition new_Node : Py loc :=
  fun h => (Ok (length h), h ++ [Node_init]).

Definition load (l : loc) : Py Node :=
  fun h => match h !! l with
           | Some nd => (Ok nd, h)
           | None => (Raise BadRef, h)
           end.

Definition store (l : loc) (nd : Node) : Py unit :=
  fun h => match h !! l with
           | Some _ => (Ok tt, <[l := nd]> h)
           | None => (Raise BadRef, h)
           end.

(** [n.link[i]] *)
Definition get_link (l : loc) (i : Z) : Py (option loc) :=
  nd <- load l ;;
  match py_getitem (link nd) i with
  | Some v => ret v
  | None => raise IndexError
  end.

(** [n.link[i] = v] *)
Definition set_link (l : loc) (i : Z) (v : option loc) : Py unit :=
  nd <- load l ;;
  match py_setitem (link nd) i v with
  | Some lnk => store l (mkNode lnk (frequency nd) (best_sub_frequency nd))
  | None => raise IndexError
  end.

(** [n.frequency], [n.frequency = v] *)
Definition get_frequency (l : loc) : Py Z :=
  nd <- load l ;; ret (frequency nd).
Definition set_frequency (l : loc) (v : Z) : Py unit :=
  nd <- load l ;; store l (mkNode (link nd) v (best_sub_frequency nd)).

(** [n.best_sub_frequency], [n.best_sub_frequency = v] *)
Definition get_best_sub_frequency (l : loc) : Py Z :=
  nd <- load l ;; ret (best_sub_frequency nd).
Definition set_best_sub_frequency (l : loc) (v : Z) : Py unit :=
  nd <- load l ;; store l (mkNode (link nd) (frequency nd) v).

(** A variable holding [None] whose attribute is then accessed. *)
Definition as_node (v : option loc) : Py loc :=
  match v with
  | Some l => ret l
  | None => raise AttributeError
  end.

(** [for x in xs: body], threading the loop-carried variables [st]. *)
Fixpoint for_each {A S} (xs : list A) (body : S -> A -> Py S) (st : S) : Py S :=
  match xs with
  | [] => ret st
  | x :: xs' => st' <- body st x ;; for_each xs' body st'
  end.

(** ** class CatsTrie *)

Record CatsTrie := mkCatsTrie { root : loc }.

(** [insert_recur_aux(self, current, key)] *)
Fixpoint insert_recur_aux (current : loc) (key : str) : Py Z :=
  match key with
  | [] =>
      l0 <- get_link current 0 ;;
      (match l0 with
       | None => n <- new_Node ;; set_link current 0 (Some n)
       | Some _ => ret tt
       end) ;;;
      l0 <- get_link current 0 ;;
      current <- as_node l0 ;;
      f <- get_frequency current ;;
      set_frequency current (f + 1) ;;;
      f <- get_frequency current ;;
      b <- get_best_sub_frequency current ;;
      (if b <? f
       then f' <- get_frequency current ;; set_best_sub_frequency current f'
       else ret tt) ;;;
      get_best_sub_frequency current
  | c :: key' =>
      let index := ord c - 97 + 1 in
      l <- get_link current index ;;
      current <-
        (match l with
         | Some _ =>
             l <- get_link current index ;; as_node l
         | None =>
             n <- new_Node ;;
             set_link current index (Some n) ;;;
             l <- get_link current index ;; as_node l
         end) ;;
      sub_frequency <- insert_recur_aux current key' ;;
      b <- get_best_sub_frequency current ;;
      (if b <? sub_frequency
       then set_best_sub_frequency current sub_frequency else ret tt) ;;;
      get_best_sub_frequency current
  end.

(** [insert_recur(self, key)] *)
Definition insert_recur (self : CatsTrie) (key : str) : Py unit :=
  let current := root self in
  insert_recur_aux current key ;;; ret tt.

(** [CatsTrie.__init__(self, sentences)] *)
Definition CatsTrie_init (sentences : list str) : Py CatsTrie :=
  r <- new_Node ;;
  let self := mkCatsTrie r in
  for_each sentences (fun _ sentence => insert_recur self sentence) tt ;;;
  ret self.

(** [findNode(self, prompt)]; the Python [None] result is [None]. *)
Fixpoint findNode_loop (current : loc) (prompt : str) : Py (option loc) :=
  match prompt with
  | [] => ret (Some current)
  | char :: rest =>
      let index := ord char - 97 + 1 in
      l <- get_link current index ;;
      match l with
      | Some _ =>
          l' <- get_link current index ;;
          current <- as_node l' ;;
          findNode_loop current rest
      | None => ret None
      end
  end.

Definition findNode (self : CatsTrie) (prompt : str) : Py (option loc) :=
  findNode_loop (root self) prompt.

(** The variables carried by the scan loop of [autoCompleteAux]; [index]
    is unbound until the first assignment. *)
Record scan := mkScan {
  max_frequency : Z;
  best_sub_node : option loc;
  index : option Z
}.

(** [n.link[i].best_sub_frequency] *)
Definition link_best_sub_frequency (l : loc) (i : Z) : Py Z :=
  v <- get_link l i ;; k <- as_node v ;; get_best_sub_frequency k.

(** One iteration of [for i in range(1, 27)]. *)
Definition scan_body (current : loc) (st : scan) (i : Z) : Py scan :=
  l <- get_link current i ;;
  cond <-
    (match l with
     | None => ret false
     | Some _ =>
         b <- link_best_sub_frequency current i ;;
         ret (max_frequency st <? b)
     end) ;;
  if cond : bool
  then b <- link_best_sub_frequency current i ;;
       l' <- get_link current i ;;
       ret (mkScan b l' (Some i))
  else ret st.

(** [range(1, 27)] *)
Definition range_1_27 : list Z := map Z.of_nat (seq 1 26).

Definition is_None {A} (o : option A) : bool :=
  match o with None => true | Some _ => false end.

(** [autoCompleteAux(self, node, max_frequency, word)].  The recursion
    follows heap references, so the model is driven by [fuel]; running out
    of it is the outcome [Raise OutOfFuel], which no Python run has.  The
    parameter [max_frequency] is overwritten with -1 before its first use
    (the loop-carried [max_frequency] of [scan]). *)
Fixpoint autoCompleteAux (fuel : nat) (node : loc) (max_freq : Z) (word : str)
  : Py (option str) :=
  match fuel with
  | O => raise OutOfFuel
  | S fuel' =>
      let current := node in
      nd <- load current ;;
      if forallb is_None (drop 1 (link nd)) then ret (Some word)
      else
        st <- for_each range_1_27 (scan_body current) (mkScan (-1) None None) ;;
        l0 <- get_link current 0 ;;
        stop <-
          (match l0 with
           | Some _ =>
               l0' <- get_link current 0 ;;
               current <- as_node l0' ;;
               f <- get_frequency current ;;
               ret (max_frequency st <=? f)
           | None => ret false
           end) ;;
        if stop : bool then ret (Some word)
        else
          match best_sub_node st with
          | Some best =>
              match index st with
              | Some i =>
                  let char := chr (i + 96) in
                  autoCompleteAux fuel' best (max_frequency st) (word ++ [char])
              | None => raise UnboundLocalError
              end
          | None => ret None
          end
  end.

(** [autoComplete(self, prompt)] *)
Definition autoComplete (fuel : nat) (self : CatsTrie) (prompt : str)
  : Py (option str) :=
  let max_freq := -1 in
  node <- findNode self prompt ;;
  match node with
  | None => ret None
  | Some n => autoCompleteAux fuel n max_freq prompt
  end.

(** Build a trie from an empty heap and query it. *)
Definition query (fuel : nat) (sentences : list str) (prompt : str)
  : outcome (option str) :=
  fst ((self <- CatsTrie_init sentences ;; autoComplete fuel self prompt) []).

(** The corpus of the source's main block. *)
Definition ex1 : list str :=
  map lit ["abc"; "abazacy"; "dbcef"; "xzz"; "gdbc"; "abazacy"; "xyz";
           "abazacy"; "dbcef"; "xyz"; "xxx"; "xzz"]%string.

(** ** The recursion limit *)

(** Python refuses a call, with [RecursionError], when the interpreter's
    stack is full.  [insert_recur_aux] calls itself once per character of
    the sentence, so the length of the sentences the constructor accepts
    depends on the frames that are left.  The functions of this module are
    the insertion functions above, run with [stack] frames left, their own
    frame included: every call of a method of the source and every
    [Node()], which runs [Node.__init__], takes one frame; the builtins
    [len] and [ord] take none (only Python frames count towards the limit,
    as in CPython 3.12). *)
Module Limited.

(** [Node()] *)
Definition new_Node (stack : nat) : Py loc :=
  match stack with
  | O => raise RecursionError
  | S _ => new_Node
  end.

(** [insert_recur_aux(self, current, key)] *)
Fixpoint insert_recur_aux (stack : nat) (current : loc) (key : str) : Py Z :=
  match stack with
  | O => raise RecursionError
  | S stack' =>
      match key with
      | [] =>
          l0 <- get_link current 0 ;;
          (match l0 with
           | None => n <- new_Node stack' ;; set_link current 0 (Some n)
           | Some _ => ret tt
           end) ;;;
          l0 <- get_link current 0 ;;
          current <- as_node l0 ;;
          f <- get_frequency current ;;
          set_frequency current (f + 1) ;;;
          f <- get_frequency current ;;
          b <- get_best_sub_frequency current ;;
          (if b <? f
           then f' <- get_frequency current ;; set_best_sub_frequency current f'
           else ret tt) ;;;
          get_best_sub_frequency current
      | c :: key' =>
          let index := ord c - 97 + 1 in
          l <- get_link current index ;;
          current <-
            (match l with
             | Some _ =>
                 l <- get_link current index ;; as_node l
             | None =>
                 n <- new_Node stack' ;;
                 set_link current index (Some n) ;;;
                 l <- get_link current index ;; as_node l
             end) ;;
          sub_frequency <- insert_recur_aux stack' current key' ;;
          b <- get_best_sub_frequency current ;;
          (if b <? sub_frequency
           then set_best_sub_frequency current sub_frequency else ret tt) ;;;
          get_best_sub_frequency current
      end
  end.

(** [insert_recur(self, key)] *)
Definition insert_recur (stack : nat) (self : CatsTrie) (key : str) : Py unit :=
  match stack with
  | O => raise RecursionError
  | S stack' =>
      let current := root self in
      insert_recur_aux stack' current key ;;; ret tt
  end.

(** [CatsTrie.__init__(self, sentences)] *)
Definition CatsTrie_init (stack : nat) (sentences : list str) : Py CatsTrie :=
  match stack with
  | O => raise RecursionError
  | S stack' =>
      r <- new_Node stack' ;;
      let self := mkCatsTrie r in
      for_each sentences (fun _ sentence => insert_recur stack' self sentence) tt ;;;
      ret self
  end.

End Limited.


(** ** Specification vocabulary *)

(** A path is a sequence of slot numbers followed from a node.  A sentence
    is stored along the slots of its letters followed by slot 0 (the
    source's comment: [$ = 0, a = 1, b = 2]). *)
Abbreviation path := (list nat).

Definition slot (c : ascii) : nat := Z.to_nat (ord c - 97 + 1).
Definition letters (s : str) : path := map slot s.
Definition path_of (s : str) : path := letters s ++ [0%nat].

(** Following links in the heap, as [findNode] does. *)
Definition walk_step (h : heap) (n : loc) (i : nat) : option loc :=
  match h !! n with
  | Some nd => match link nd !! i with
               | Some (Some k) => Some k
               | _ => None
               end
  | None => None
  end.

Fixpoint walk (h : heap) (n : loc) (q : path) : option loc :=
  match q with
  | [] => Some n
  | i :: q' => match walk_step h n i with
               | Some k => walk h k q'
               | None => None
               end
  end.

(** The nodes reachable from [r] form a tree (no node is reached by two
    paths) and the node at path [q] satisfies [S q]. *)
Definition models (h : heap) (r : loc) (S : path -> Node -> Prop) : Prop :=
  (forall q n, walk h r q = Some n -> exists nd, h !! n = Some nd /\ S q nd) /\
  (forall q1 q2 n, walk h r q1 = Some n -> walk h r q2 = Some n -> q1 = q2).

(** The corpus seen as the list [L] of the paths of its sentences. *)
Definition wf_path (x : path) : Prop :=
  exists p, x = p ++ [0%nat] /\ Forall (fun i => (1 <= i <= 26)%nat) p.

Definition in_trie (L : list path) (q : path) : Prop :=
  q = [] \/ exists x, x ∈ L /\ q `prefix_of` x.

(** Number of occurrences of the path [q] in [L]. *)
Definition occ (L : list path) (q : path) : nat :=
  length (filter (fun x => x = q) L).

(** Largest number of occurrences among the paths of [L] that extend [q]. *)
Definition best (L : list path) (q : path) : nat :=
  max_list (map (occ L) (filter (fun x => q `prefix_of` x) L)).

Definition freq_of (L : list path) (q : path) : Z := Z.of_nat (occ L q).
Definition agg_of (L : list path) (q : path) : Z :=
  if decide (q = []) then 0 else Z.of_nat (best L q).

(** What the node at path [q] must hold: 27 links, the link of slot [i]
    present exactly when [present (q ++ [i])], and the two counters. *)
Definition node_ok (present : path -> Prop) (fr ag : path -> Z)
    (q : path) (nd : Node) : Prop :=
  length (link nd) = 27%nat /\
  (forall i, (i < 27)%nat ->
     (exists k, link nd !! i = Some (Some k)) <-> present (q ++ [i])) /\
  frequency nd = fr q /\
  best_sub_frequency nd = ag q.

(** The trie invariant for the corpus with paths [L]. *)
Definition trie_inv (L : list path) (h : heap) (r : loc) : Prop :=
  models h r (node_ok (in_trie L) (freq_of L) (agg_of L)).

(** The invariant while [insert_recur_aux] descends along the path [x] and
    has reached the node at [p]: the links down to [p] exist already. *)
Definition pre_spec (L : list path) (p : path) : path -> Node -> Prop :=
  node_ok (fun q => in_trie L q \/ q `prefix_of` p) (freq_of L) (agg_of L).

(** The invariant while it returns: all links of [x] exist, and the
    counters strictly below [p] account for [x]. *)
Definition post_spec (L : list path) (x p : path) : path -> Node -> Prop :=
  node_ok (in_trie (L ++ [x]))
    (fun q => if decide (q `prefix_of` p) then freq_of L q else freq_of (L ++ [x]) q)
    (fun q => if decide (q `prefix_of` p) then agg_of L q else agg_of (L ++ [x]) q).

(** The paths of a corpus of sentences. *)
Definition paths (M : list str) : list path := map path_of M.

(** The scan loop of [autoCompleteAux] as a fold over the slots. *)
Definition scan_step (h : heap) (nd : Node) (st : scan) (i : nat) : scan :=
  match link nd !! i with
  | Some (Some k) =>
      match h !! k with
      | Some ndk =>
          if max_frequency st <? best_sub_frequency ndk
          then mkScan (best_sub_frequency ndk) (Some k) (Some (Z.of_nat i))
          else st
      | None => st
      end
  | _ => st
  end.

Definition scan_result (h : heap) (nd : Node) : scan :=
  fold_left (scan_step h nd) (seq 1 26) (mkScan (-1) None None).

(** [k] is the child of [nd] under slot [i], with aggregate [b]. *)
Definition child (h : heap) (nd : Node) (i : nat) (k : loc) (b : Z) : Prop :=
  link nd !! i = Some (Some k) /\
  exists ndk, h !! k = Some ndk /\ best_sub_frequency ndk = b.

(** Every link of [nd] refers to an allocated node. *)
Definition links_valid (h : heap) (nd : Node) : Prop :=
  forall i k, link nd !! i = Some (Some k) -> is_Some (h !! k).

(** The early return of [autoCompleteAux]: the node has a slot-0 child
    whose frequency is at least the best aggregate found by the scan. *)
Definition stop_here (h : heap) (nd : Node) (st : scan) : bool :=
  match link nd !! 0%nat with
  | Some (Some t) =>
      match h !! t with
      | Some ndt => max_frequency st <=? frequency ndt
      | None => false
      end
  | _ => false
  end.

(** Python's order on strings: lexicographic on code points. *)
Fixpoint str_le (a b : str) : bool :=
  match a, b with
  | [], _ => true
  | _ :: _, [] => false
  | x :: a', y :: b' =>
      if ord x <? ord y then true
      else if ord x =? ord y then str_le a' b' else false
  end.

(** [s] is the answer for the prompt [w] located at path [q]: a sentence
    of the corpus that extends [w], occurs as often as any such sentence,
    and comes first among those that do. *)
Definition answer (L : list path) (q : path) (w s : str) : Prop :=
  lowercase s = true /\ w `prefix_of` s /\ path_of s ∈ L /\
  occ L (path_of s) = best L q /\
  forall s', lowercase s' = true -> w `prefix_of` s' -> path_of s' ∈ L ->
             occ L (path_of s') = best L q -> str_le s s' = true.

(** A computation that leaves every node of the heap as it found it. *)
Definition pure {A} (m : Py A) : Prop := forall h, snd (m h) = h.

(** The node [nd] has a slot-0 child whose frequency is at least [b]. *)
Definition terminator_at_least (h : heap) (nd : Node) (b : Z) : Prop :=
  exists t ndt, link nd !! 0%nat = Some (Some t) /\ h !! t = Some ndt /\
                b <= frequency ndt.

(** [t] is a terminator node (a node reached through slot 0) in the
    subtree of the node [n], which sits at path [q] from the root. *)
Definition terminator_below (h : heap) (q : path) (n t : loc) : Prop :=
  exists q', walk h n q' = Some t /\ last (q ++ q') = Some 0%nat.

(** The aggregate of the node [n] at path [q] is the largest frequency of
    a terminator node in its subtree (0 when there is none). *)
Definition aggregate_exact (h : heap) (q : path) (n : loc) : Prop :=
  exists nd, h !! n = Some nd /\
    (forall t ndt, terminator_below h q n t -> h !! t = Some ndt ->
                   frequency ndt <= best_sub_frequency nd) /\
    ((exists t ndt, terminator_below h q n t /\ h !! t = Some ndt /\
                    frequency ndt = best_sub_frequency nd) \/
     ((forall t, ~ terminator_below h q n t) /\ best_sub_frequency nd = 0)).

(** The choice made by [autoCompleteAux (S fuel)] at a node with a letter
    child: the child [k] under the smallest slot [i] among those of the
    largest aggregate [b] is selected; the call returns [word] exactly when
    the node has a slot-0 child of frequency at least [b], and otherwise
    continues in [k] with the letter of slot [i] appended. *)
Definition greedy_choice (h : heap) (node : loc) (nd : Node) (fuel : nat)
    (mf : Z) (word : str) : Prop :=
  exists i k b,
    (1 <= i <= 26)%nat /\ child h nd i k b /\
    (forall j k' b', (1 <= j <= 26)%nat -> child h nd j k' b' ->
                     b' <= b /\ (b' = b -> (i <= j)%nat)) /\
    (terminator_at_least h nd b <->
     autoCompleteAux (S fuel) node mf word h = (Ok (Some word), h)) /\
    (~ terminator_at_least h nd b ->
     autoCompleteAux (S fuel) node mf word h =
       autoCompleteAux fuel k b (word ++ [chr (Z.of_nat i + 96)]) h).

(** [m] preserves the heap property [P] whatever its outcome and, when it
    returns, its result satisfies [Q]. *)
Definition ensures {A} (P : heap -> Prop) (m : Py A) (Q : A -> Prop) : Prop :=
  forall h, P h ->
    match m h with
    | (Ok a, h') => P h' /\ Q a
    | (Raise _, h') => P h'
    end.

(** The node [r] holds the aggregate 0 and no node allocated from [r] on
    links back to [r] or to an older node. *)
Definition root_untouched (r : loc) (h : heap) : Prop :=
  (exists nd, h !! r = Some nd /\ best_sub_frequency nd = 0) /\
  forall l nd i k, (r <= l)%nat -> h !! l = Some nd ->
                   link nd !! i = Some (Some k) -> (r < k)%nat.

(** Characters whose index [ord(c) - 97 + 1] lies outside [-27, 27), the
    range Python accepts for a list of 27 links. *)
Definition out_of_range (c : ascii) : bool := (ord c <? 69) || (122 <? ord c).

(** A character whose index is negative but accepted, [-26 .. -1], reads
    the slot of the letter 27 code points above it. *)
Definition wrapped (c : ascii) : ascii :=
  if (70 <=? ord c) && (ord c <=? 95) then chr (ord c + 27) else c.

(** The outcome [r] with [f] applied to a returned string. *)
Definition map_answer (f : str -> str) (r : outcome (option str) * heap)
  : outcome (option str) * heap :=
  match r with
  | (Ok (Some s), h) => (Ok (Some (f s)), h)
  | _ => r
  end.

(** [m] frees no node and allocates at most [k]. *)
Definition grows {A} (k : nat) (m : Py A) : Prop :=
  forall h, (length h <= length (snd (m h)) <= length h + k)%nat.

(** Occurrences of a sentence in the corpus. *)
Definition count (M : list str) (s : str) : Z :=
  Z.of_nat (length (filter (fun x => x = s) M)).

(** ** Running the primitives *)

Lemma bind_ok {A B} (m : Py A) (f : A -> Py B) h a h' :
  m h = (Ok a, h') -> bind m f h = f a h'.
Proof. unfold bind. by intros ->. Qed.

Lemma bind_ret {A B} (a : A) (f : A -> Py B) h : bind (ret a) f h = f a h.
Proof. done. Qed.

Lemma bind_assoc {A B C} (m : Py A) (f : A -> Py B) (g : B -> Py C) h :
  bind (bind m f) g h = bind m (fun a => bind (f a) g) h.
Proof. unfold bind. by destruct (m h) as [[a|e] h']. Qed.

Lemma as_node_ok l h : as_node (Some l) h = (Ok l, h).
Proof. done. Qed.

Lemma new_Node_ok h : new_Node h = (Ok (length h), h ++ [Node_init]).
Proof. done. Qed.

Ltac run H := rewrite (bind_ok _ _ _ _ _ H); cbv beta iota.

Lemma load_ok h l nd : h !! l = Some nd -> load l h = (Ok nd, h).
Proof. unfold load. by intros ->. Qed.

Lemma py_norm_nat (len i : nat) :
  (i < len)%nat -> py_norm (Z.of_nat len) (Z.of_nat i) = Some i.
Proof.
  intros Hi. unfold py_norm.
  replace (0 <=? Z.of_nat i) with true by (symmetry; apply Z.leb_le; lia).
  replace (Z.of_nat i <? Z.of_nat len) with true by (symmetry; apply Z.ltb_lt; lia).
  simpl. by rewrite Nat2Z.id.
Qed.

Lemma py_getitem_nat {A} (l : list A) (i : nat) :
  (i < length l)%nat -> py_getitem l (Z.of_nat i) = l !! i.
Proof. intros Hi. unfold py_getitem. by rewrite py_norm_nat. Qed.

Lemma py_setitem_nat {A} (l : list A) (i : nat) x :
  (i < length l)%nat -> py_setitem l (Z.of_nat i) x = Some (<[i := x]> l).
Proof. intros Hi. unfold py_setitem. by rewrite py_norm_nat. Qed.

Lemma get_link_ok h l nd (z : Z) (i : nat) v :
  h !! l = Some nd -> z = Z.of_nat i -> link nd !! i = Some v ->
  get_link l z h = (Ok v, h).
Proof.
  intros Hl -> Hv. unfold get_link. rewrite (bind_ok _ _ _ _ _ (load_ok _ _ _ Hl)).
  rewrite py_getitem_nat by (by eapply lookup_lt_Some). by rewrite Hv.
Qed.

Lemma store_ok h l nd nd' :
  h !! l = Some nd -> store l nd' h = (Ok tt, <[l := nd']> h).
Proof. unfold store. by intros ->. Qed.

Lemma set_link_ok h l nd (z : Z) (i : nat) v :
  h !! l = Some nd -> z = Z.of_nat i -> (i < length (link nd))%nat ->
  set_link l z v h =
    (Ok tt, <[l := mkNode (<[i := v]> (link nd)) (frequency nd) (best_sub_frequency nd)]> h).
Proof.
  intros Hl -> Hi. unfold set_link. rewrite (bind_ok _ _ _ _ _ (load_ok _ _ _ Hl)).
  rewrite py_setitem_nat by done. by eapply store_ok.
Qed.

Lemma get_frequency_ok h l nd :
  h !! l = Some nd -> get_frequency l h = (Ok (frequency nd), h).
Proof.
  intros Hl. unfold get_frequency. by rewrite (bind_ok _ _ _ _ _ (load_ok _ _ _ Hl)).
Qed.

Lemma set_frequency_ok h l nd v :
  h !! l = Some nd ->
  set_frequency l v h = (Ok tt, <[l := mkNode (link nd) v (best_sub_frequency nd)]> h).
Proof.
  intros Hl. unfold set_frequency. rewrite (bind_ok _ _ _ _ _ (load_ok _ _ _ Hl)).
  by eapply store_ok.
Qed.

Lemma get_best_sub_frequency_ok h l nd :
  h !! l = Some nd -> get_best_sub_frequency l h = (Ok (best_sub_frequency nd), h).
Proof.
  intros Hl. unfold get_best_sub_frequency.
  by rewrite (bind_ok _ _ _ _ _ (load_ok _ _ _ Hl)).
Qed.

Lemma set_best_sub_frequency_ok h l nd v :
  h !! l = Some nd ->
  set_best_sub_frequency l v h = (Ok tt, <[l := mkNode (link nd) (frequency nd) v]> h).
Proof.
  intros Hl. unfold set_best_sub_frequency.
  rewrite (bind_ok _ _ _ _ _ (load_ok _ _ _ Hl)). by eapply store_ok.
Qed.

(** ** Walks and heap updates *)

Lemma walk_snoc h n q i :
  walk h n (q ++ [i]) =
    match walk h n q with Some k => walk_step h k i | None => None end.
Proof.
  revert n. induction q as [|j q IH]; intros n; simpl.
  - by destruct (walk_step h n i).
  - destruct (walk_step h n j); [apply IH | done].
Qed.

Lemma walk_app h n q1 q2 :
  walk h n (q1 ++ q2) =
    match walk h n q1 with Some k => walk h k q2 | None => None end.
Proof.
  revert n. induction q1 as [|j q1 IH]; intros n; simpl; [done|].
  destruct (walk_step h n j); [apply IH | done].
Qed.

Lemma walk_step_Some h n i k :
  walk_step h n i = Some k <->
  exists nd, h !! n = Some nd /\ link nd !! i = Some (Some k).
Proof.
  unfold walk_step. split.
  - destruct (h !! n) as [nd|]; [|done].
    destruct (link nd !! i) as [[k'|]|] eqn:E; intros [=]; subst. eauto.
  - intros (nd & -> & ->). done.
Qed.

Lemma models_mono h r (S S' : path -> Node -> Prop) :
  (forall q nd, S q nd -> S' q nd) -> models h r S -> models h r S'.
Proof.
  intros HS [H1 H2]. split; [|done].
  intros q n Hw. destruct (H1 q n Hw) as (nd & ? & ?). eauto.
Qed.

Lemma walk_step_update h n nd nd' x i :
  h !! n = Some nd -> link nd' = link nd ->
  walk_step (<[n := nd']> h) x i = walk_step h x i.
Proof.
  intros Hn Hl. unfold walk_step. destruct (decide (x = n)) as [->|Hne].
  - rewrite list_lookup_insert_eq by (by eapply lookup_lt_Some).
    by rewrite Hn, Hl.
  - by rewrite list_lookup_insert_ne.
Qed.

Lemma walk_update h n nd nd' r q :
  h !! n = Some nd -> link nd' = link nd ->
  walk (<[n := nd']> h) r q = walk h r q.
Proof.
  intros Hn Hl. revert r. induction q as [|i q IH]; intros r; simpl; [done|].
  rewrite (walk_step_update _ _ _ _ _ _ Hn Hl).
  destruct (walk_step h r i); [apply IH | done].
Qed.

(** Overwriting the counters of the node at path [p]. *)
Lemma models_update h r (S S' : path -> Node -> Prop) p n nd nd' :
  models h r S -> walk h r p = Some n -> h !! n = Some nd ->
  link nd' = link nd -> S' p nd' ->
  (forall q nd0, q <> p -> S q nd0 -> S' q nd0) ->
  models (<[n := nd']> h) r S'.
Proof.
  intros [H1 H2] Hp Hn Hl Hnew Hold. split.
  - intros q m. rewrite (walk_update _ _ _ _ _ _ Hn Hl). intros Hq.
    destruct (decide (m = n)) as [->|Hne].
    + rewrite (H2 _ _ _ Hq Hp). exists nd'. split; [|done].
      apply list_lookup_insert_eq. by eapply lookup_lt_Some.
    + destruct (H1 _ _ Hq) as (nd0 & ? & ?). exists nd0. split.
      * by rewrite list_lookup_insert_ne.
      * apply Hold; [|done]. intros ->. congruence.
  - intros q1 q2 m. rewrite !(walk_update _ _ _ _ _ _ Hn Hl). apply H2.
Qed.

(** Allocating a node and linking it under slot [i] of the node at [p]. *)
Section add_child.
Variables (h : heap) (r : loc) (S S' : path -> Node -> Prop).
Variables (p : path) (n : loc) (nd : Node) (i : nat).
Hypothesis Hm : models h r S.
Hypothesis Hp : walk h r p = Some n.
Hypothesis Hn : h !! n = Some nd.
Hypothesis Hi : link nd !! i = Some None.

Let k : loc := length h.
Let nd' : Node :=
  mkNode (<[i := Some k]> (link nd)) (frequency nd) (best_sub_frequency nd).
Let h' : heap := <[n := nd']> (h ++ [Node_init]).

Local Lemma add_child_n_lt : (n < length h)%nat.
Proof. by eapply lookup_lt_Some. Qed.

Local Lemma add_child_at_n : h' !! n = Some nd'.
Proof.
  unfold h'. apply list_lookup_insert_eq. rewrite length_app.
  pose proof add_child_n_lt. lia.
Qed.

Local Lemma add_child_at_k : h' !! k = Some Node_init.
Proof.
  unfold h'. pose proof add_child_n_lt.
  rewrite list_lookup_insert_ne by (unfold k; lia).
  rewrite lookup_app_r by (unfold k; lia).
  unfold k. by rewrite Nat.sub_diag.
Qed.

Local Lemma add_child_old x : x <> n -> (x < length h)%nat -> h' !! x = h !! x.
Proof.
  intros Hne Hlt. unfold h'. rewrite list_lookup_insert_ne by done.
  by rewrite lookup_app_l.
Qed.

Local Lemma add_child_step_new j : walk_step h' k j = None.
Proof.
  unfold walk_step. rewrite add_child_at_k. unfold Node_init. cbn [link].
  destruct (replicate 27 (@None nat) !! j) as [o|] eqn:E; [|done].
  apply lookup_replicate in E as [-> _]. done.
Qed.

Local Lemma add_child_step_n j :
  walk_step h' n j = if decide (j = i) then Some k else walk_step h n j.
Proof.
  unfold walk_step. rewrite add_child_at_n, Hn. simpl.
  destruct (decide (j = i)) as [->|Hne].
  - rewrite list_lookup_insert_eq; [done|]. by eapply lookup_lt_Some.
  - by rewrite list_lookup_insert_ne.
Qed.

Local Lemma add_child_step_old x j :
  x <> n -> (x < length h)%nat -> walk_step h' x j = walk_step h x j.
Proof. intros ??. unfold walk_step. by rewrite add_child_old. Qed.

Lemma add_child_walk_mono q m : walk h r q = Some m -> walk h' r q = Some m.
Proof.
  revert m. induction q as [|j q IH] using rev_ind; intros m; [done|].
  rewrite !walk_snoc. destruct (walk h r q) as [y|] eqn:Ey; [|done].
  intros Hs. rewrite (IH y eq_refl).
  destruct (decide (y = n)) as [->|Hne].
  - rewrite add_child_step_n. destruct (decide (j = i)) as [->|]; [|done].
    apply walk_step_Some in Hs as (nd0 & ? & ?). congruence.
  - rewrite add_child_step_old; [done..|].
    apply walk_step_Some in Hs as (nd0 & ? & ?). by eapply lookup_lt_Some.
Qed.

Lemma add_child_walk_new : walk h' r (p ++ [i]) = Some k.
Proof.
  rewrite walk_snoc, (add_child_walk_mono _ _ Hp), add_child_step_n.
  by rewrite decide_True.
Qed.

Lemma add_child_walk_inv q m :
  walk h' r q = Some m ->
  walk h r q = Some m \/ (q = p ++ [i] /\ m = k).
Proof.
  destruct Hm as [H1 H2].
  revert m. induction q as [|j q IH] using rev_ind; intros m; [by left|].
  rewrite !walk_snoc. destruct (walk h' r q) as [y|] eqn:Ey; [|done].
  intros Hs. destruct (IH y eq_refl) as [Hy|[-> ->]].
  - rewrite Hy. destruct (decide (y = n)) as [->|Hne].
    + rewrite add_child_step_n in Hs.
      destruct (decide (j = i)) as [->|]; [|by left].
      right. split; [|congruence]. by rewrite (H2 _ _ _ Hy Hp).
    + left. rewrite add_child_step_old in Hs; [done..|].
      destruct (H1 _ _ Hy) as (nd0 & ? & _). by eapply lookup_lt_Some.
  - by rewrite add_child_step_new in Hs.
Qed.

Lemma models_add_child :
  S' p nd' -> S' (p ++ [i]) Node_init ->
  (forall q nd0, q <> p -> q <> p ++ [i] -> S q nd0 -> S' q nd0) ->
  models h' r S'.
Proof.
  intros Hnew Hkid Hold. pose proof Hm as [H1 H2]. split.
  - intros q m Hq. destruct (add_child_walk_inv _ _ Hq) as [Hq'|[-> ->]].
    + destruct (H1 _ _ Hq') as (nd0 & Hm0 & HS0).
      destruct (decide (m = n)) as [->|Hne].
      * rewrite (H2 _ _ _ Hq' Hp). exists nd'. by rewrite add_child_at_n.
      * exists nd0. split.
        -- rewrite add_child_old; [done..|]. by eapply lookup_lt_Some.
        -- apply Hold; [| |done].
           ++ intros ->. congruence.
           ++ intros ->. rewrite walk_snoc, Hp in Hq'.
              apply walk_step_Some in Hq' as (nd1 & ? & ?). congruence.
    + exists Node_init. by rewrite add_child_at_k.
  - intros q1 q2 m Hq1 Hq2.
    destruct (add_child_walk_inv _ _ Hq1) as [Hq1'|[-> ->]],
             (add_child_walk_inv _ _ Hq2) as [Hq2'|[-> E]]; [eauto| | |done].
    + subst m. destruct (H1 _ _ Hq1') as (nd0 & Hk & _).
      apply lookup_lt_Some in Hk. unfold k in Hk. lia.
    + destruct (H1 _ _ Hq2') as (nd0 & Hk & _).
      apply lookup_lt_Some in Hk. unfold k in Hk. lia.
Qed.
End add_child.

(** ** The corpus as a list of paths *)

Lemma best_ub (L : list path) q x :
  x ∈ L -> q `prefix_of` x -> (occ L x <= best L q)%nat.
Proof.
  intros Hx Hq. unfold best. apply max_list_elem_of_le.
  apply list_elem_of_fmap. exists x. split; [done|].
  by apply list_elem_of_filter.
Qed.

Lemma best_attained (L : list path) q :
  best L q = 0%nat \/
  exists x, x ∈ L /\ q `prefix_of` x /\ occ L x = best L q.
Proof.
  unfold best. destruct (filter (fun x => q `prefix_of` x) L) as [|y l] eqn:E.
  - by left.
  - right. rewrite <- E.
    assert (Hne : map (occ L) (filter (fun x => q `prefix_of` x) L) <> [])
      by (by rewrite E).
    apply max_list_elem_of in Hne. apply list_elem_of_fmap in Hne as (x & Hx & Hin).
    apply list_elem_of_filter in Hin as [??]. exists x. by rewrite <- Hx.
Qed.

Lemma best_unique (L : list path) q (m : nat) :
  (forall x, x ∈ L -> q `prefix_of` x -> (occ L x <= m)%nat) ->
  (m = 0%nat \/ exists x, x ∈ L /\ q `prefix_of` x /\ occ L x = m) ->
  best L q = m.
Proof.
  intros Hub Hat. apply Nat.le_antisymm.
  - destruct (best_attained L q) as [->|(x & ? & ? & <-)]; [lia|]. by apply Hub.
  - destruct Hat as [->|(x & ? & ? & <-)]; [lia|]. by apply best_ub.
Qed.

Lemma best_anti (L : list path) q q' :
  q `prefix_of` q' -> (best L q' <= best L q)%nat.
Proof.
  intros Hq. destruct (best_attained L q') as [->|(x & ? & ? & <-)]; [lia|].
  apply best_ub; [done|]. by etrans.
Qed.

Lemma occ_snoc (L : list path) x q :
  occ (L ++ [x]) q = (occ L q + if decide (x = q) then 1 else 0)%nat.
Proof.
  unfold occ. rewrite filter_app, length_app. f_equal.
  rewrite filter_cons, filter_nil. by destruct (decide (x = q)).
Qed.

Lemma occ_pos (L : list path) x : x ∈ L <-> (0 < occ L x)%nat.
Proof.
  unfold occ. split.
  - intros Hx. assert (x ∈ filter (fun y => y = x) L) as Hin
      by (by apply list_elem_of_filter).
    destruct (filter (fun y => y = x) L); [by apply elem_of_nil in Hin|simpl; lia].
  - intros Hlt. destruct (filter (fun y => y = x) L) as [|y l] eqn:E; [simpl in Hlt; lia|].
    assert (y ∈ filter (fun y => y = x) L) as Hin by (rewrite E; left).
    apply list_elem_of_filter in Hin as [-> ?]. done.
Qed.

Lemma occ_le_best (L : list path) x q :
  q `prefix_of` x -> (occ L x <= best L q)%nat.
Proof.
  intros Hq. destruct (decide (0 < occ L x)%nat) as [Hpos|]; [|lia].
  apply best_ub; [|done]. by apply occ_pos.
Qed.

Lemma in_trie_snoc (L : list path) x q :
  in_trie (L ++ [x]) q <-> in_trie L q \/ q `prefix_of` x.
Proof.
  unfold in_trie. split.
  - intros [->|(y & Hy & Hq)]; [by left; left|].
    apply elem_of_app in Hy as [Hy|Hy]; [left; right; eauto|].
    apply list_elem_of_singleton in Hy as ->. by right.
  - intros [[->|(y & Hy & Hq)]|Hq]; [by left| |].
    + right. exists y. split; [|done]. apply elem_of_app. by left.
    + right. exists x. split; [|done]. apply elem_of_app. right. by left.
Qed.

Lemma in_trie_prefix (L : list path) q q' :
  q `prefix_of` q' -> in_trie L q' -> in_trie L q.
Proof.
  intros Hq [->|(y & Hy & Hq')].
  - apply prefix_nil_inv in Hq as ->. by left.
  - right. exists y. split; [done|]. by etrans.
Qed.

Lemma best_snoc_ge (L : list path) x q : (best L q <= best (L ++ [x]) q)%nat.
Proof.
  destruct (best_attained L q) as [->|(y & Hy & Hq & <-)]; [lia|].
  etrans; [|apply (best_ub (L ++ [x]) q y); [apply elem_of_app; by left|done]].
  rewrite occ_snoc. lia.
Qed.

Lemma best_snoc_other (L : list path) x q :
  ~ q `prefix_of` x -> best (L ++ [x]) q = best L q.
Proof.
  intros Hnp. apply Nat.le_antisymm; [|apply best_snoc_ge].
  destruct (best_attained (L ++ [x]) q) as [->|(y & Hy & Hq & <-)]; [lia|].
  apply elem_of_app in Hy as [Hy|Hy].
  - rewrite occ_snoc. destruct (decide (x = y)) as [->|]; [done|].
    rewrite Nat.add_0_r. by apply best_ub.
  - apply list_elem_of_singleton in Hy as ->. done.
Qed.

Lemma best_snoc_path (L : list path) x q q2 :
  q `prefix_of` q2 -> q2 `prefix_of` x ->
  best (L ++ [x]) q = (best L q `max` best (L ++ [x]) q2)%nat.
Proof.
  intros Hq Hq2. apply Nat.le_antisymm.
  - destruct (best_attained (L ++ [x]) q) as [->|(y & Hy & Hqy & <-)]; [lia|].
    destruct (decide (y = x)) as [->|Hne].
    + etrans; [|apply Nat.le_max_r]. by apply best_ub.
    + etrans; [|apply Nat.le_max_l].
      rewrite occ_snoc, decide_False, Nat.add_0_r by done.
      apply elem_of_app in Hy as [Hy|Hy]; [by apply best_ub|].
      by apply list_elem_of_singleton in Hy.
  - apply Nat.max_lub; [apply best_snoc_ge | by apply best_anti].
Qed.

(** Paths of sentences end with their only 0. *)
Lemma wf_path_end y q k :
  wf_path y -> y = q ++ 0%nat :: k -> k = [].
Proof.
  intros (p & -> & Hp) E. destruct k as [|j k] using rev_ind; [done|].
  clear IHk. exfalso.
  replace (q ++ 0%nat :: k ++ [j]) with ((q ++ 0%nat :: k) ++ [j]) in E
    by (by rewrite <- app_assoc).
  apply app_inj_tail in E as [-> _].
  apply Forall_app in Hp as [_ Hp]. apply Forall_cons in Hp as [??]. lia.
Qed.

Lemma wf_path_snoc0 y q : wf_path y -> q ++ [0%nat] `prefix_of` y -> y = q ++ [0%nat].
Proof.
  intros Hy [k ->]. rewrite <- app_assoc in Hy |- *. simpl in *.
  by rewrite (wf_path_end _ q k Hy eq_refl).
Qed.

Lemma wf_path_letters p : Forall (fun i => (1 <= i <= 26)%nat) p -> wf_path (p ++ [0%nat]).
Proof. intros. by exists p. Qed.

Lemma wf_path_prefix_slot y q i :
  wf_path y -> q ++ [i] `prefix_of` y -> (i < 27)%nat.
Proof.
  intros (p & -> & Hp) [k E]. rewrite <- app_assoc in E. simpl in E.
  destruct k as [|j k _] using rev_ind.
  - apply app_inj_tail in E as [_ <-]. lia.
  - replace (q ++ i :: k ++ [j]) with ((q ++ i :: k) ++ [j]) in E
      by (by rewrite <- app_assoc).
    apply app_inj_tail in E as [-> _].
    apply Forall_app in Hp as [_ Hp]. apply Forall_cons in Hp as [??]. lia.
Qed.

Lemma best_terminal (L : list path) q :
  Forall wf_path L -> best L (q ++ [0%nat]) = occ L (q ++ [0%nat]).
Proof.
  intros HL. apply best_unique.
  - intros y Hy Hq. rewrite Forall_forall in HL.
    by rewrite (wf_path_snoc0 y q (HL _ Hy) Hq).
  - destruct (decide (0 < occ L (q ++ [0%nat]))%nat) as [Hpos|]; [|left; lia].
    right. exists (q ++ [0%nat]). split; [by apply occ_pos|done].
Qed.

Lemma not_in_trie_occ (L : list path) q : ~ in_trie L q -> occ L q = 0%nat.
Proof.
  intros Hn. destruct (decide (0 < occ L q)%nat) as [Hpos|]; [|lia].
  apply occ_pos in Hpos. destruct Hn. right. by exists q.
Qed.

Lemma not_in_trie_best (L : list path) q : ~ in_trie L q -> best L q = 0%nat.
Proof.
  intros Hn. destruct (best_attained L q) as [->|(y & ? & ? & _)]; [done|].
  destruct Hn. right. by exists y.
Qed.

Lemma in_trie_best_pos (L : list path) q :
  q <> [] -> in_trie L q -> (0 < best L q)%nat.
Proof.
  intros Hne [->|(y & Hy & Hq)]; [done|].
  eapply Nat.lt_le_trans; [by apply occ_pos|by apply best_ub].
Qed.

(** ** Insertion preserves the invariant *)

Lemma node_ok_iff (pres pres' : path -> Prop) fr fr' ag ag' q nd :
  (forall i, pres (q ++ [i]) <-> pres' (q ++ [i])) ->
  fr q = fr' q -> ag q = ag' q ->
  node_ok pres fr ag q nd -> node_ok pres' fr' ag' q nd.
Proof.
  intros Hp Hf Ha (Hlen & Hl & Hfr & Hag). split; [done|]. split.
  - intros i Hi. by rewrite <- Hp, <- Hl.
  - by rewrite <- Hf, <- Ha.
Qed.

Lemma prefix_snoc_inv {A} (q p : list A) i :
  q `prefix_of` p ++ [i] -> q `prefix_of` p \/ q = p ++ [i].
Proof.
  intros [k E]. destruct k as [|j k _] using rev_ind.
  - right. by rewrite app_nil_r in E.
  - left. rewrite app_assoc in E. apply app_inj_tail in E as [-> _].
    by apply prefix_app_r.
Qed.

Lemma prefix_snoc_snoc {A} (q p : list A) i j :
  q ++ [j] `prefix_of` p ++ [i] -> q ++ [j] `prefix_of` p \/ (q = p /\ j = i).
Proof.
  intros H. apply prefix_snoc_inv in H as [?|E]; [by left|].
  right. by apply app_inj_tail in E.
Qed.

Lemma trie_inv_pre L h r : trie_inv L h r <-> models h r (pre_spec L []).
Proof.
  unfold trie_inv, pre_spec. split; apply models_mono; intros q nd;
    apply node_ok_iff; try done; intros i; split.
  - by left.
  - intros [?|H]; [done|]. apply prefix_nil_inv in H. by destruct q.
  - intros [?|H]; [done|]. apply prefix_nil_inv in H. by destruct q.
  - by left.
Qed.

Lemma step_in L r p h cur i :
  models h r (pre_spec L p) -> walk h r p = Some cur -> (i < 27)%nat ->
  exists nd, h !! cur = Some nd /\ length (link nd) = 27%nat /\
    ((exists k, link nd !! i = Some (Some k) /\
        models h r (pre_spec L (p ++ [i])) /\ walk h r (p ++ [i]) = Some k) \/
     (link nd !! i = Some None /\
      let h2 := <[cur := mkNode (<[i := Some (length h)]> (link nd))
                           (frequency nd) (best_sub_frequency nd)]>
                  (h ++ [Node_init]) in
      models h2 r (pre_spec L (p ++ [i])) /\
      walk h2 r (p ++ [i]) = Some (length h) /\
      (forall q m, walk h r q = Some m -> walk h2 r q = Some m))).
Proof.
  intros Hm Hp Hi. pose proof Hm as [H1 _].
  destruct (H1 _ _ Hp) as (nd & Hcur & Hlen & Hl & Hfr & Hag).
  exists nd. split; [done|]. split; [done|].
  destruct (link nd !! i) as [[k|]|] eqn:Ei.
  - left. exists k. split; [done|]. split.
    + revert Hm. apply models_mono. intros q nd0. apply node_ok_iff; try done.
      intros j. split; [intros [?|?]; [by left|right; by apply prefix_app_r]|].
      intros [?|H]; [by left|].
      apply prefix_snoc_snoc in H as [?|[-> ->]]; [by right|].
      apply Hl; [done|]. eauto.
    + rewrite walk_snoc, Hp. apply walk_step_Some. eauto.
  - right. split; [done|]. simpl. split; [|split].
    + eapply (models_add_child h r _ (pre_spec L (p ++ [i]))); try done.
      * unfold pre_spec, node_ok. cbn [link frequency best_sub_frequency].
        split; [by rewrite length_insert|]. split; [|done].
        intros j Hj. destruct (decide (j = i)) as [->|Hne].
        -- rewrite list_lookup_insert_eq by lia. split; [by right|eauto].
        -- rewrite list_lookup_insert_ne by done. rewrite (Hl j Hj).
           split; [intros [?|?]; [by left|right; by apply prefix_app_r]|].
           intros [?|H]; [by left|].
           apply prefix_snoc_snoc in H as [?|[_ ?]]; [by right|done].
      * assert (Hnot : ~ in_trie L (p ++ [i])).
        { intros Hin. assert (exists k, link nd !! i = Some (Some k)) as [k Hk].
          { apply Hl; [done|]. by left. }
          congruence. }
        split; [done|]. split; [|split].
        -- intros j Hj. split.
           ++ intros [k Hk]. apply lookup_replicate in Hk as [? _]. done.
           ++ intros [Hin|Hpre].
              ** destruct Hnot. eapply in_trie_prefix; [|done]. by apply prefix_app_r.
              ** by apply prefix_snoc_not in Hpre.
        -- unfold freq_of. by rewrite not_in_trie_occ.
        -- unfold agg_of. rewrite not_in_trie_best by done. by case_decide.
      * intros q nd0 Hq1 Hq2. apply node_ok_iff; try done.
        intros j. split; [intros [?|?]; [by left|right; by apply prefix_app_r]|].
        intros [?|H]; [by left|].
        apply prefix_snoc_snoc in H as [?|[? _]]; [by right|done].
    + by eapply add_child_walk_new.
    + intros q m. by eapply add_child_walk_mono.
  - apply lookup_ge_None in Ei. lia.
Qed.

Lemma freq_of_snoc_ne (L : list path) x q :
  x <> q -> freq_of (L ++ [x]) q = freq_of L q.
Proof. intros Hne. unfold freq_of. rewrite occ_snoc, decide_False by done. f_equal. lia. Qed.

Lemma agg_of_snoc_other (L : list path) x q :
  ~ q `prefix_of` x -> agg_of (L ++ [x]) q = agg_of L q.
Proof. intros Hn. unfold agg_of. by rewrite best_snoc_other. Qed.

Lemma pre_post L x h r :
  models h r (pre_spec L x) -> models h r (post_spec L x x).
Proof.
  apply models_mono. intros q nd. apply node_ok_iff.
  - intros i. by rewrite in_trie_snoc.
  - case_decide; [done|]. symmetry. apply freq_of_snoc_ne. by intros ->.
  - case_decide; [done|]. symmetry. by apply agg_of_snoc_other.
Qed.

Lemma fix_child L x p i h r k ndk nd' :
  models h r (post_spec L x (p ++ [i])) ->
  walk h r (p ++ [i]) = Some k -> h !! k = Some ndk ->
  link nd' = link ndk ->
  frequency nd' = freq_of (L ++ [x]) (p ++ [i]) ->
  best_sub_frequency nd' = agg_of (L ++ [x]) (p ++ [i]) ->
  models (<[k := nd']> h) r (post_spec L x p).
Proof.
  intros Hm Hw Hk Hl Hf Ha. pose proof Hm as [H1 _].
  destruct (H1 _ _ Hw) as (nd0 & Hk0 & Hlen & Hpres & _).
  assert (nd0 = ndk) as -> by congruence.
  eapply models_update; [done..| |].
  - unfold post_spec, node_ok. rewrite Hl.
    rewrite !decide_False by apply prefix_snoc_not. done.
  - intros q nd0 Hne. apply node_ok_iff; [done| |].
    + destruct (decide (q `prefix_of` p)) as [Hq|Hq].
      * rewrite decide_True; [done|]. by apply prefix_app_r.
      * rewrite decide_False; [done|]. intros [?|?]%prefix_snoc_inv; done.
    + destruct (decide (q `prefix_of` p)) as [Hq|Hq].
      * rewrite decide_True; [done|]. by apply prefix_app_r.
      * rewrite decide_False; [done|]. intros [?|?]%prefix_snoc_inv; done.
Qed.

Lemma post_done L x h r :
  x <> [] -> models h r (post_spec L x []) -> trie_inv (L ++ [x]) h r.
Proof.
  intros Hx. apply models_mono. intros q nd. apply node_ok_iff; [done | |].
  - case_decide as Hq; [|done]. apply prefix_nil_inv in Hq as ->.
    symmetry. by apply freq_of_snoc_ne.
  - case_decide as Hq; [|done]. by apply prefix_nil_inv in Hq as ->.
Qed.

(** Characters and slots *)

Lemma is_lower_slot c :
  is_lower c = true ->
  ord c - 97 + 1 = Z.of_nat (slot c) /\ (1 <= slot c <= 26)%nat.
Proof.
  unfold is_lower, slot. intros [H1 H2]%andb_prop.
  apply Z.leb_le in H1, H2. lia.
Qed.

Lemma lowercase_cons c s :
  lowercase (c :: s) = true <-> is_lower c = true /\ lowercase s = true.
Proof. unfold lowercase. simpl. apply andb_true_iff. Qed.

Lemma lowercase_letters s :
  lowercase s = true -> Forall (fun i => (1 <= i <= 26)%nat) (letters s).
Proof.
  induction s as [|c s IH]; [constructor|].
  intros [Hc Hs]%lowercase_cons. constructor; [|by apply IH].
  by apply is_lower_slot.
Qed.

(** The end of the base case of [insert_recur_aux], at the node [t] of
    slot 0. *)
Lemma terminal_fix L r p h t :
  Forall wf_path L -> Forall (fun i => (1 <= i <= 26)%nat) p ->
  models h r (pre_spec L (p ++ [0%nat])) -> walk h r (p ++ [0%nat]) = Some t ->
  exists v h',
    (f <- get_frequency t ;;
     set_frequency t (f + 1) ;;;
     f <- get_frequency t ;;
     b <- get_best_sub_frequency t ;;
     (if b <? f
      then f' <- get_frequency t ;; set_best_sub_frequency t f'
      else ret tt) ;;;
     get_best_sub_frequency t) h = (Ok v, h') /\
    models h' r (post_spec L (p ++ [0%nat]) p) /\
    (forall q m, walk h r q = Some m -> walk h' r q = Some m) /\
    v = agg_of (L ++ [p ++ [0%nat]]) (p ++ [0%nat]).
Proof.
  intros HL Hp Hm Hw. set (x := p ++ [0%nat]) in *.
  pose proof Hm as [H1 _]. destruct (H1 _ _ Hw) as (nd & Ht & _ & _ & Hf & Ha).
  assert (Hlt : (t < length h)%nat) by (by eapply lookup_lt_Some).
  assert (HL' : Forall wf_path (L ++ [x])).
  { apply Forall_app. split; [done|]. constructor; [|done]. by apply wf_path_letters. }
  assert (Hx : x <> []) by (by destruct p).
  assert (Ha' : best_sub_frequency nd = frequency nd).
  { rewrite Ha, Hf. unfold agg_of, freq_of. rewrite decide_False by done.
    unfold x. by rewrite best_terminal. }
  assert (Hf' : frequency nd + 1 = freq_of (L ++ [x]) x).
  { rewrite Hf. unfold freq_of. rewrite occ_snoc, decide_True by done. lia. }
  assert (Hag' : frequency nd + 1 = agg_of (L ++ [x]) x).
  { rewrite Hf'. unfold agg_of, freq_of. rewrite decide_False by done.
    unfold x. by rewrite best_terminal. }
  set (nd1 := mkNode (link nd) (frequency nd + 1) (best_sub_frequency nd)).
  set (nd2 := mkNode (link nd) (frequency nd + 1) (frequency nd + 1)).
  assert (Ht1 : <[t := nd1]> h !! t = Some nd1) by (by apply list_lookup_insert_eq).
  assert (Ht2 : <[t := nd2]> (<[t := nd1]> h) !! t = Some nd2).
  { apply list_lookup_insert_eq. by rewrite length_insert. }
  exists (frequency nd + 1), (<[t := nd2]> h). split; [|split; [|split]].
  - run (get_frequency_ok _ _ _ Ht). run (set_frequency_ok _ _ _ (frequency nd + 1) Ht).
    fold nd1. run (get_frequency_ok _ _ _ Ht1). run (get_best_sub_frequency_ok _ _ _ Ht1).
    cbn [frequency best_sub_frequency nd1]. rewrite Ha'.
    replace (frequency nd <? frequency nd + 1) with true
      by (symmetry; apply Z.ltb_lt; lia).
    cbv iota. rewrite bind_assoc.
    run (get_frequency_ok _ _ _ Ht1).
    run (set_best_sub_frequency_ok _ _ _ (frequency nd1) Ht1).
    cbn [link frequency nd1]. fold nd2.
    rewrite (get_best_sub_frequency_ok _ _ _ Ht2).
    by rewrite list_insert_insert_eq.
  - eapply fix_child; [by apply pre_post|done..].
  - intros q m. by rewrite (walk_update _ _ nd nd2).
  - done.
Qed.

(** The end of the recursive case, at the child [k] descended into. *)
Lemma letter_fix L r p i q2 x h k sub :
  models h r (post_spec L x (p ++ [i])) -> walk h r (p ++ [i]) = Some k ->
  p ++ [i] `prefix_of` q2 -> q2 `prefix_of` x -> x <> p ++ [i] ->
  sub = agg_of (L ++ [x]) q2 ->
  exists v h',
    (b <- get_best_sub_frequency k ;;
     (if b <? sub then set_best_sub_frequency k sub else ret tt) ;;;
     get_best_sub_frequency k) h = (Ok v, h') /\
    models h' r (post_spec L x p) /\
    (forall q m, walk h r q = Some m -> walk h' r q = Some m) /\
    v = agg_of (L ++ [x]) (p ++ [i]).
Proof.
  intros Hm Hw Hq2 Hx Hne ->.
  pose proof Hm as [H1 _]. destruct (H1 _ _ Hw) as (nd & Hk & _ & _ & Hf & Ha).
  rewrite decide_True in Hf, Ha by done.
  assert (Hlt : (k < length h)%nat) by (by eapply lookup_lt_Some).
  assert (Hpne : p ++ [i] <> []) by (by destruct p).
  assert (Hq2ne : q2 <> []).
  { intros ->. by apply prefix_nil_inv in Hq2. }
  assert (Hmax : agg_of (L ++ [x]) (p ++ [i]) =
                 Z.max (best_sub_frequency nd) (agg_of (L ++ [x]) q2)).
  { rewrite Ha. unfold agg_of. rewrite !decide_False by done.
    rewrite (best_snoc_path L x (p ++ [i]) q2) by done. lia. }
  assert (Hf' : frequency nd = freq_of (L ++ [x]) (p ++ [i])).
  { rewrite Hf. symmetry. by apply freq_of_snoc_ne. }
  run (get_best_sub_frequency_ok _ _ _ Hk).
  destruct (best_sub_frequency nd <? agg_of (L ++ [x]) q2) eqn:Elt.
  - apply Z.ltb_lt in Elt.
    set (nd' := mkNode (link nd) (frequency nd) (agg_of (L ++ [x]) q2)).
    run (set_best_sub_frequency_ok _ _ _ (agg_of (L ++ [x]) q2) Hk). fold nd'.
    assert (Hk' : <[k := nd']> h !! k = Some nd') by (by apply list_lookup_insert_eq).
    rewrite (get_best_sub_frequency_ok _ _ _ Hk').
    eexists _, _. split; [done|]. split; [|split].
    + eapply fix_child; [done..|]. cbn. lia.
    + intros q m. by rewrite (walk_update _ _ nd nd').
    + cbn. lia.
  - apply Z.ltb_ge in Elt. rewrite bind_ret.
    rewrite (get_best_sub_frequency_ok _ _ _ Hk).
    eexists _, _. split; [done|]. split; [|split].
    + rewrite <- (list_insert_id h k nd) by done.
      eapply fix_child; [done..|]. lia.
    + done.
    + lia.
Qed.

Lemma path_of_cons c s : path_of (c :: s) = slot c :: path_of s.
Proof. done. Qed.

Lemma insert_recur_aux_spec L r key :
  Forall wf_path L ->
  forall p cur h,
  lowercase key = true ->
  Forall (fun i => (1 <= i <= 26)%nat) p ->
  models h r (pre_spec L p) -> walk h r p = Some cur ->
  exists v h',
    insert_recur_aux cur key h = (Ok v, h') /\
    models h' r (post_spec L (p ++ path_of key) p) /\
    (forall q m, walk h r q = Some m -> walk h' r q = Some m) /\
    v = agg_of (L ++ [p ++ path_of key]) (p ++ take 1 (path_of key)).
Proof.
  intros HL. induction key as [|c key IH]; intros p cur h Hlow Hp Hm Hw.
  - change (path_of []) with [0%nat]. cbn [take].
    destruct (step_in L r p h cur 0 Hm Hw ltac:(lia))
      as (nd & Hcur & Hlen & [(t & Ht & Hm2 & Hw2) | (Hnone & Hm2 & Hw2 & Hmono)]).
    + cbn [insert_recur_aux].
      run (get_link_ok h cur nd 0 0%nat _ Hcur eq_refl Ht).
      rewrite bind_ret. run (get_link_ok h cur nd 0 0%nat _ Hcur eq_refl Ht).
      run (as_node_ok t h). by apply terminal_fix.
    + cbn [insert_recur_aux]. cbn zeta in Hm2, Hw2, Hmono.
      assert (Hcur' : (h ++ [Node_init]) !! cur = Some nd).
      { rewrite lookup_app_l; [done|]. by eapply lookup_lt_Some. }
      run (get_link_ok h cur nd 0 0%nat _ Hcur eq_refl Hnone).
      rewrite bind_assoc. run (new_Node_ok h).
      run (set_link_ok _ cur nd 0 0%nat (Some (length h)) Hcur' eq_refl ltac:(lia)).
      set (nd' := mkNode _ _ _) in *. set (h2 := <[cur := nd']> _) in *.
      assert (Hcur2 : h2 !! cur = Some nd').
      { apply list_lookup_insert_eq. by eapply lookup_lt_Some. }
      assert (Hl2 : link nd' !! 0%nat = Some (Some (length h))).
      { apply list_lookup_insert_eq. lia. }
      run (get_link_ok h2 cur nd' 0 0%nat _ Hcur2 eq_refl Hl2).
      run (as_node_ok (length h) h2).
      destruct (terminal_fix L r p h2 (length h) HL Hp Hm2 Hw2)
        as (v & h' & Hrun & Hm' & Hmono' & Hv).
      exists v, h'. split; [done|]. split; [done|]. split; [|done].
      intros q m Hq. by apply Hmono', Hmono.
  - apply lowercase_cons in Hlow as [Hc Hlow].
    destruct (is_lower_slot c Hc) as [Hidx Hslot].
    rewrite path_of_cons. cbn [take].
    assert (Hp' : Forall (fun i => (1 <= i <= 26)%nat) (p ++ [slot c])).
    { apply Forall_app. split; [done|]. by constructor. }
    assert (Hpath : (p ++ [slot c]) ++ path_of key = p ++ slot c :: path_of key)
      by (by rewrite <- app_assoc).
    assert (Hne : p ++ slot c :: path_of key <> p ++ [slot c]).
    { intros E. apply app_inv_head in E. injection E. unfold path_of.
      by destruct (letters key). }
    assert (Hq2 : (p ++ [slot c]) ++ take 1 (path_of key)
                    `prefix_of` p ++ slot c :: path_of key).
    { rewrite <- Hpath. apply prefix_app. apply prefix_take. }
    destruct (step_in L r p h cur (slot c) Hm Hw ltac:(lia))
      as (nd & Hcur & Hlen & [(k & Hk & Hm2 & Hw2) | (Hnone & Hm2 & Hw2 & Hmono)]).
    + cbn [insert_recur_aux]. cbv zeta.
      run (get_link_ok h cur nd _ (slot c) _ Hcur Hidx Hk).
      rewrite bind_assoc. run (get_link_ok h cur nd _ (slot c) _ Hcur Hidx Hk).
      run (as_node_ok k h).
      destruct (IH (p ++ [slot c]) k h Hlow Hp' Hm2 Hw2)
        as (sub & h3 & Hrun & Hm3 & Hmono3 & Hsub).
      run Hrun. rewrite Hpath in Hm3, Hsub.
      destruct (letter_fix L r p (slot c) _ _ h3 k sub Hm3 (Hmono3 _ _ Hw2)
                  (prefix_app_r _ _ _ (reflexivity _)) Hq2 Hne Hsub)
        as (v & h' & Hrun' & Hm' & Hmono' & Hv).
      exists v, h'. split; [done|]. split; [done|]. split; [|done].
      intros q m Hq. by apply Hmono', Hmono3.
    + cbn [insert_recur_aux]. cbv zeta. cbn zeta in Hm2, Hw2, Hmono.
      assert (Hcur' : (h ++ [Node_init]) !! cur = Some nd).
      { rewrite lookup_app_l; [done|]. by eapply lookup_lt_Some. }
      run (get_link_ok h cur nd _ (slot c) _ Hcur Hidx Hnone).
      rewrite bind_assoc. run (new_Node_ok h). rewrite bind_assoc.
      run (set_link_ok _ cur nd _ (slot c) (Some (length h)) Hcur' Hidx ltac:(lia)).
      set (nd' := mkNode _ _ _) in *. set (h2 := <[cur := nd']> _) in *.
      assert (Hcur2 : h2 !! cur = Some nd').
      { apply list_lookup_insert_eq. by eapply lookup_lt_Some. }
      assert (Hl2 : link nd' !! slot c = Some (Some (length h))).
      { apply list_lookup_insert_eq. lia. }
      rewrite bind_assoc.
      run (get_link_ok h2 cur nd' _ (slot c) _ Hcur2 Hidx Hl2).
      run (as_node_ok (length h) h2).
      destruct (IH (p ++ [slot c]) (length h) h2 Hlow Hp' Hm2 Hw2)
        as (sub & h3 & Hrun & Hm3 & Hmono3 & Hsub).
      run Hrun. rewrite Hpath in Hm3, Hsub.
      destruct (letter_fix L r p (slot c) _ _ h3 (length h) sub Hm3 (Hmono3 _ _ Hw2)
                  (prefix_app_r _ _ _ (reflexivity _)) Hq2 Hne Hsub)
        as (v & h' & Hrun' & Hm' & Hmono' & Hv).
      exists v, h'. split; [done|]. split; [done|]. split; [|done].
      intros q m Hq. by apply Hmono', Hmono3, Hmono.
Qed.

(** ** The constructor establishes the invariant *)

Lemma paths_wf M : forallb lowercase M = true -> Forall wf_path (paths M).
Proof.
  intros HM. unfold paths. apply Forall_fmap, Forall_forall. intros s Hs.
  apply wf_path_letters, lowercase_letters.
  rewrite forallb_forall in HM. apply HM. by apply list_elem_of_In.
Qed.

Lemma paths_snoc M s : paths (M ++ [s]) = paths M ++ [path_of s].
Proof. unfold paths. by rewrite map_app. Qed.

Lemma insert_recur_spec M self s h :
  forallb lowercase M = true -> lowercase s = true ->
  trie_inv (paths M) h (root self) ->
  exists h', insert_recur self s h = (Ok tt, h') /\
             trie_inv (paths (M ++ [s])) h' (root self).
Proof.
  intros HM Hs Hinv. apply trie_inv_pre in Hinv.
  destruct (insert_recur_aux_spec (paths M) (root self) s (paths_wf M HM)
              [] (root self) h Hs (Forall_nil_2 _) Hinv eq_refl)
    as (v & h' & Hrun & Hm & _ & _).
  exists h'. unfold insert_recur. cbv zeta. run Hrun. split; [done|].
  rewrite paths_snoc. apply post_done; [|done]. unfold path_of. by destruct (letters s).
Qed.

Lemma trie_inv_empty h0 : trie_inv [] (h0 ++ [Node_init]) (length h0).
Proof.
  assert (Hr : (h0 ++ [Node_init]) !! length h0 = Some Node_init).
  { rewrite lookup_app_r by lia. by rewrite Nat.sub_diag. }
  assert (Hw : forall q n, walk (h0 ++ [Node_init]) (length h0) q = Some n ->
                           q = [] /\ n = length h0).
  { intros [|i q] n; simpl; [naive_solver|].
    unfold walk_step. rewrite Hr. unfold Node_init. cbn [link].
    destruct (replicate 27 (@None nat) !! i) as [o|] eqn:E; [|done].
    apply lookup_replicate in E as [-> _]. done. }
  split.
  - intros q n [-> ->]%Hw. exists Node_init. split; [done|].
    split; [done|]. split; [|done].
    intros i Hi. split.
    + intros [k Hk]. apply lookup_replicate in Hk as [? _]. done.
    + intros [?|(x & Hx & _)]; [done|]. by apply elem_of_nil in Hx.
  - intros q1 q2 n [-> _]%Hw [-> _]%Hw. done.
Qed.

Lemma insert_loop_spec self rest :
  forall M h,
  forallb lowercase M = true -> forallb lowercase rest = true ->
  trie_inv (paths M) h (root self) ->
  exists h', for_each rest (fun _ sentence => insert_recur self sentence) tt h
               = (Ok tt, h') /\
             trie_inv (paths (M ++ rest)) h' (root self).
Proof.
  induction rest as [|s rest IH]; intros M h HM Hrest Hinv.
  - exists h. by rewrite app_nil_r.
  - simpl in Hrest. apply andb_prop in Hrest as [Hs Hrest].
    destruct (insert_recur_spec M self s h HM Hs Hinv) as (h1 & Hrun & Hinv1).
    destruct (IH (M ++ [s]) h1) as (h' & Hrun' & Hinv'); [|done..|].
    { rewrite forallb_app, HM. simpl. by rewrite Hs. }
    exists h'. cbn [for_each]. run Hrun. split; [done|].
    by rewrite <- app_assoc in Hinv'.
Qed.

Lemma CatsTrie_init_spec sentences h0 :
  forallb lowercase sentences = true ->
  exists h, CatsTrie_init sentences h0 = (Ok (mkCatsTrie (length h0)), h) /\
            trie_inv (paths sentences) h (length h0).
Proof.
  intros Hlow.
  destruct (insert_loop_spec (mkCatsTrie (length h0)) sentences [] (h0 ++ [Node_init])
              eq_refl Hlow (trie_inv_empty h0)) as (h & Hrun & Hinv).
  exists h. unfold CatsTrie_init. run (new_Node_ok h0). cbv zeta.
  run Hrun. done.
Qed.

(** ** Reading the trie *)

Lemma trie_inv_node L h r q n :
  trie_inv L h r -> walk h r q = Some n ->
  exists nd, h !! n = Some nd /\
             node_ok (in_trie L) (freq_of L) (agg_of L) q nd.
Proof. intros [H1 _] Hw. by apply H1. Qed.

Lemma trie_inv_child L h r q n nd i k :
  trie_inv L h r -> walk h r q = Some n -> h !! n = Some nd ->
  link nd !! i = Some (Some k) ->
  walk h r (q ++ [i]) = Some k /\ in_trie L (q ++ [i]) /\
  exists ndk, h !! k = Some ndk /\
              node_ok (in_trie L) (freq_of L) (agg_of L) (q ++ [i]) ndk.
Proof.
  intros Hinv Hw Hn Hk.
  assert (Hwk : walk h r (q ++ [i]) = Some k).
  { rewrite walk_snoc, Hw. apply walk_step_Some. eauto. }
  split; [done|]. split; [|by eapply trie_inv_node].
  destruct (trie_inv_node _ _ _ _ _ Hinv Hw) as (nd0 & Hn0 & Hlen & Hl & _).
  assert (nd0 = nd) as -> by congruence.
  apply Hl; [|eauto]. apply lookup_lt_Some in Hk. lia.
Qed.

Lemma walk_in_trie L h r q n :
  trie_inv L h r -> walk h r q = Some n -> in_trie L q.
Proof.
  intros Hinv. revert n. induction q as [|i q IH] using rev_ind; intros n; [by left|].
  rewrite walk_snoc. destruct (walk h r q) as [y|] eqn:Ey; [|done].
  intros (nd & Hy & Hk)%walk_step_Some.
  by destruct (trie_inv_child _ _ _ _ _ _ _ _ Hinv Ey Hy Hk) as (_ & ? & _).
Qed.

Lemma in_trie_walk L h r q :
  Forall wf_path L -> trie_inv L h r -> in_trie L q ->
  exists n, walk h r q = Some n.
Proof.
  intros HL Hinv. induction q as [|i q IH] using rev_ind; intros Hin; [by exists r|].
  destruct IH as (y & Hy).
  { eapply in_trie_prefix; [|done]. by apply prefix_app_r. }
  destruct (trie_inv_node _ _ _ _ _ Hinv Hy) as (nd & Hn & Hlen & Hl & _).
  assert (Hi : (i < 27)%nat).
  { destruct Hin as [E|(x & Hx & Hpre)]; [by destruct q|].
    rewrite Forall_forall in HL. by eapply wf_path_prefix_slot; [apply HL|]. }
  destruct (proj2 (Hl i Hi) Hin) as [k Hk]. exists k.
  rewrite walk_snoc, Hy. apply walk_step_Some. eauto.
Qed.

Lemma findNode_loop_spec L h r prompt :
  trie_inv L h r ->
  forall q n, walk h r q = Some n -> lowercase prompt = true ->
  findNode_loop n prompt h = (Ok (walk h n (letters prompt)), h).
Proof.
  intros Hinv. induction prompt as [|c prompt IH]; intros q n Hw Hlow; [done|].
  apply lowercase_cons in Hlow as [Hc Hlow].
  destruct (is_lower_slot c Hc) as [Hidx Hslot].
  destruct (trie_inv_node _ _ _ _ _ Hinv Hw) as (nd & Hn & Hlen & _).
  cbn [findNode_loop letters map walk]. cbv zeta.
  destruct (link nd !! slot c) as [[k|]|] eqn:Ek.
  - run (get_link_ok h n nd _ (slot c) _ Hn Hidx Ek).
    run (get_link_ok h n nd _ (slot c) _ Hn Hidx Ek). run (as_node_ok k h).
    destruct (trie_inv_child _ _ _ _ _ _ _ _ Hinv Hw Hn Ek) as (Hwk & _).
    rewrite (IH _ _ Hwk Hlow).
    replace (walk_step h n (slot c)) with (Some k); [done|].
    symmetry. apply walk_step_Some. eauto.
  - run (get_link_ok h n nd _ (slot c) _ Hn Hidx Ek).
    unfold walk_step. by rewrite Hn, Ek.
  - apply lookup_ge_None in Ek. lia.
Qed.

(** ** The scan loop *)

Lemma link_best_sub_frequency_ok h l nd (z : Z) (i : nat) k ndk :
  h !! l = Some nd -> z = Z.of_nat i -> link nd !! i = Some (Some k) ->
  h !! k = Some ndk ->
  link_best_sub_frequency l z h = (Ok (best_sub_frequency ndk), h).
Proof.
  intros Hl Hz Hi Hk. unfold link_best_sub_frequency.
  run (get_link_ok h l nd z i _ Hl Hz Hi). run (as_node_ok k h).
  by apply get_best_sub_frequency_ok.
Qed.

Lemma scan_body_ok h cur nd st (i : nat) :
  h !! cur = Some nd -> (i < length (link nd))%nat -> links_valid h nd ->
  scan_body cur st (Z.of_nat i) h = (Ok (scan_step h nd st i), h).
Proof.
  intros Hcur Hi Hval. unfold scan_body, scan_step.
  destruct (link nd !! i) as [[k|]|] eqn:Ek.
  - destruct (Hval _ _ Ek) as [ndk Hk]. rewrite Hk.
    run (get_link_ok h cur nd _ i _ Hcur eq_refl Ek). rewrite bind_assoc.
    run (link_best_sub_frequency_ok h cur nd _ i k ndk Hcur eq_refl Ek Hk).
    rewrite bind_ret.
    destruct (max_frequency st <? best_sub_frequency ndk); [|done].
    run (link_best_sub_frequency_ok h cur nd _ i k ndk Hcur eq_refl Ek Hk).
    by run (get_link_ok h cur nd _ i _ Hcur eq_refl Ek).
  - run (get_link_ok h cur nd _ i _ Hcur eq_refl Ek). by rewrite bind_ret.
  - apply lookup_ge_None in Ek. lia.
Qed.

Lemma scan_loop_ok h cur nd (slots : list nat) :
  h !! cur = Some nd -> Forall (fun i => (i < length (link nd))%nat) slots ->
  links_valid h nd ->
  forall st,
  for_each (map Z.of_nat slots) (scan_body cur) st h
    = (Ok (fold_left (scan_step h nd) slots st), h).
Proof.
  intros Hcur Hs Hval. induction Hs as [|i slots Hi _ IH]; intros st; [done|].
  cbn [map for_each fold_left]. run (scan_body_ok h cur nd st i Hcur Hi Hval).
  apply IH.
Qed.

Lemma scan_prefix_spec h nd m :
  let st := fold_left (scan_step h nd) (seq 1 m) (mkScan (-1) None None) in
  (forall i k b, (1 <= i <= m)%nat -> child h nd i k b -> b <= max_frequency st) /\
  ((best_sub_node st = None /\ index st = None /\ max_frequency st = -1) \/
   (exists i k, (1 <= i <= m)%nat /\ child h nd i k (max_frequency st) /\
      best_sub_node st = Some k /\ index st = Some (Z.of_nat i) /\
      -1 < max_frequency st /\
      forall j k' b', (1 <= j < i)%nat -> child h nd j k' b' ->
                      b' < max_frequency st)).
Proof.
  induction m as [|m IH]; cbv zeta.
  - split; [intros; lia|]. by left.
  - rewrite seq_S, fold_left_app. cbn [fold_left].
    set (st := fold_left (scan_step h nd) (seq 1 m) (mkScan (-1) None None)) in *.
    cbv zeta in IH. destruct IH as [Hub Hcase].
    assert (Hold : forall i k b, (1 <= i <= S m)%nat -> child h nd i k b ->
                     i <> S m -> b <= max_frequency st).
    { intros i k b Hi Hc Hne. apply (Hub i k b); [lia|done]. }
    replace (1 + m)%nat with (S m) by lia. unfold scan_step.
    destruct (link nd !! S m) as [[k|]|] eqn:Ek.
    + destruct (h !! k) as [ndk|] eqn:Hk.
      * destruct (max_frequency st <? best_sub_frequency ndk) eqn:Elt.
        -- apply Z.ltb_lt in Elt. cbn [max_frequency best_sub_node index]. split.
           ++ intros i k' b Hi Hc. destruct (decide (i = S m)) as [->|Hne].
              ** destruct Hc as (Hl & ndk' & Hk' & <-).
                 assert (k' = k) as -> by congruence.
                 assert (ndk' = ndk) as -> by congruence. lia.
              ** specialize (Hold i k' b Hi Hc Hne). lia.
           ++ right. exists (S m), k. split; [lia|]. split; [split; [done|by exists ndk]|].
              split; [done|]. split; [done|]. split.
              ** destruct Hcase as [(_ & _ & E)|(_ & _ & _ & _ & _ & _ & ? & _)]; lia.
              ** intros j k' b' Hj Hc. specialize (Hub j k' b' ltac:(lia) Hc). lia.
        -- apply Z.ltb_ge in Elt. split.
           ++ intros i k' b Hi Hc. destruct (decide (i = S m)) as [->|Hne]; [|eauto].
              destruct Hc as (Hl & ndk' & Hk' & <-).
              assert (k' = k) as -> by congruence.
              assert (ndk' = ndk) as -> by congruence. lia.
           ++ destruct Hcase as [?|(i & k' & Hi & ?)]; [by left|].
              right. exists i, k'. split; [lia|done].
      * split.
        -- intros i k' b Hi Hc. destruct (decide (i = S m)) as [->|Hne]; [|eauto].
           destruct Hc as (Hl & ndk' & Hk' & _). congruence.
        -- destruct Hcase as [?|(i & k' & Hi & ?)]; [by left|].
           right. exists i, k'. split; [lia|done].
    + split.
      * intros i k' b Hi Hc. destruct (decide (i = S m)) as [->|Hne]; [|eauto].
        destruct Hc as (Hl & _). congruence.
      * destruct Hcase as [?|(i & k' & Hi & ?)]; [by left|].
        right. exists i, k'. split; [lia|done].
    + split.
      * intros i k' b Hi Hc. destruct (decide (i = S m)) as [->|Hne]; [|eauto].
        destruct Hc as (Hl & _). congruence.
      * destruct Hcase as [?|(i & k' & Hi & ?)]; [by left|].
        right. exists i, k'. split; [lia|done].
Qed.

(** ** One step of the greedy descent *)

Lemma autoCompleteAux_step h node nd fuel mf word :
  h !! node = Some nd -> length (link nd) = 27%nat -> links_valid h nd ->
  autoCompleteAux (S fuel) node mf word h =
    if forallb is_None (drop 1 (link nd)) then (Ok (Some word), h)
    else
      let st := scan_result h nd in
      if stop_here h nd st then (Ok (Some word), h)
      else match best_sub_node st with
           | Some best =>
               match index st with
               | Some i => autoCompleteAux fuel best (max_frequency st)
                             (word ++ [chr (i + 96)]) h
               | None => (Raise UnboundLocalError, h)
               end
           | None => (Ok None, h)
           end.
Proof.
  intros Hn Hlen Hval. cbn [autoCompleteAux]. cbv zeta.
  run (load_ok _ _ _ Hn).
  destruct (forallb is_None (drop 1 (link nd))); [done|].
  assert (Hslots : Forall (fun i => (i < length (link nd))%nat) (seq 1 26)).
  { apply Forall_forall. intros i Hi%list_elem_of_In%in_seq. lia. }
  unfold range_1_27.
  run (scan_loop_ok h node nd (seq 1 26) Hn Hslots Hval (mkScan (-1) None None)).
  unfold scan_result, stop_here.
  set (st := fold_left (scan_step h nd) (seq 1 26) (mkScan (-1) None None)).
  destruct (link nd !! 0%nat) as [[t|]|] eqn:Et.
  - destruct (Hval _ _ Et) as [ndt Ht]. rewrite Ht.
    run (get_link_ok h node nd 0 0%nat _ Hn eq_refl Et). rewrite bind_assoc.
    run (get_link_ok h node nd 0 0%nat _ Hn eq_refl Et). rewrite bind_assoc.
    run (as_node_ok t h). rewrite bind_assoc.
    run (get_frequency_ok _ _ _ Ht). rewrite bind_ret.
    destruct (max_frequency st <=? frequency ndt); [done|].
    destruct (best_sub_node st); [|done].
    by destruct (index st).
  - run (get_link_ok h node nd 0 0%nat _ Hn eq_refl Et). rewrite bind_ret.
    destruct (best_sub_node st); [|done].
    by destruct (index st).
  - apply lookup_ge_None in Et. lia.
Qed.

(** ** Characters, slots and the order on strings *)

Lemma slot_chr (i : nat) :
  (1 <= i <= 26)%nat ->
  slot (chr (Z.of_nat i + 96)) = i /\
  is_lower (chr (Z.of_nat i + 96)) = true /\
  ord (chr (Z.of_nat i + 96)) = Z.of_nat i + 96.
Proof.
  intros Hi.
  assert (E : ord (chr (Z.of_nat i + 96)) = Z.of_nat i + 96).
  { unfold ord, chr. rewrite nat_ascii_embedding; lia. }
  unfold slot, is_lower. rewrite E. split; [lia|]. split; [|done].
  apply andb_true_iff. split; [apply Z.leb_le|apply Z.leb_le]; lia.
Qed.

Lemma chr_slot c : is_lower c = true -> chr (Z.of_nat (slot c) + 96) = c.
Proof.
  intros Hc. destruct (is_lower_slot c Hc) as [E _].
  replace (Z.of_nat (slot c) + 96) with (ord c) by lia.
  unfold chr, ord. by rewrite Nat2Z.id, ascii_nat_embedding.
Qed.

Lemma slot_inj c c' :
  is_lower c = true -> is_lower c' = true -> slot c = slot c' -> c = c'.
Proof. intros Hc Hc' E. by rewrite <- (chr_slot c), <- (chr_slot c'), E. Qed.

Lemma letters_inj s s' :
  lowercase s = true -> lowercase s' = true -> letters s = letters s' -> s = s'.
Proof.
  revert s'. induction s as [|c s IH]; intros [|c' s']; try done.
  intros [Hc Hs]%lowercase_cons [Hc' Hs']%lowercase_cons [= E1 E2].
  f_equal; [by apply slot_inj | by apply IH].
Qed.

Lemma path_of_inj s s' :
  lowercase s = true -> lowercase s' = true -> path_of s = path_of s' -> s = s'.
Proof.
  intros Hs Hs' E. apply letters_inj; [done..|].
  unfold path_of in E. by apply app_inj_tail in E as [? _].
Qed.

Lemma str_le_prefix w s : w `prefix_of` s -> str_le w s = true.
Proof.
  intros [k ->]. induction w as [|x w IH]; [done|]. simpl.
  by rewrite Z.ltb_irrefl, Z.eqb_refl.
Qed.

Lemma str_le_app_lt w c a c' b :
  ord c < ord c' -> str_le (w ++ c :: a) (w ++ c' :: b) = true.
Proof.
  intros Hlt. induction w as [|x w IH]; simpl.
  - by replace (ord c <? ord c') with true by (symmetry; by apply Z.ltb_lt).
  - by rewrite Z.ltb_irrefl, Z.eqb_refl.
Qed.

Lemma lowercase_app s s' :
  lowercase (s ++ s') = true <-> lowercase s = true /\ lowercase s' = true.
Proof. unfold lowercase. rewrite forallb_app. apply andb_true_iff. Qed.

Lemma letters_app s s' : letters (s ++ s') = letters s ++ letters s'.
Proof. apply map_app. Qed.

(** ** What a node of the trie tells about the corpus *)

Lemma under_cases y q :
  wf_path y -> Forall (fun i => (1 <= i <= 26)%nat) q -> q `prefix_of` y ->
  y = q ++ [0%nat] \/ exists j, (1 <= j <= 26)%nat /\ q ++ [j] `prefix_of` y.
Proof.
  intros Hy Hq [[|j rest] ->].
  - exfalso. rewrite app_nil_r in Hy. destruct Hy as (p & -> & _).
    apply Forall_app in Hq as [_ Hq]. apply Forall_cons in Hq as [??]. lia.
  - assert (Hpre : q ++ [j] `prefix_of` q ++ j :: rest).
    { exists rest. by rewrite <- app_assoc. }
    pose proof (wf_path_prefix_slot _ _ _ Hy Hpre) as Hj.
    destruct (decide (j = 0%nat)) as [->|Hne].
    + left. by apply wf_path_snoc0.
    + right. exists j. split; [lia|done].
Qed.

Lemma under_length (L : list path) y q :
  Forall wf_path L -> y ∈ L -> Forall (fun i => (1 <= i <= 26)%nat) q ->
  q `prefix_of` y -> (length q < max_list (map length L))%nat.
Proof.
  intros HL Hy Hq Hpre. rewrite Forall_forall in HL.
  assert (length q < length y)%nat.
  { destruct (under_cases y q (HL _ Hy) Hq Hpre) as [->|(j & _ & H%prefix_length)];
      rewrite length_app in *; simpl in *; lia. }
  assert (length y <= max_list (map length L))%nat; [|lia].
  apply max_list_elem_of_le, list_elem_of_fmap. eauto.
Qed.

Lemma node_links_valid L h r q n nd :
  trie_inv L h r -> walk h r q = Some n -> h !! n = Some nd -> links_valid h nd.
Proof.
  intros Hinv Hw Hn i k Hk.
  destruct (trie_inv_child _ _ _ _ _ _ _ _ Hinv Hw Hn Hk) as (_ & _ & ndk & ? & _).
  eauto.
Qed.

Lemma node_child L h r q n nd i k b :
  trie_inv L h r -> walk h r q = Some n -> h !! n = Some nd ->
  child h nd i k b ->
  (i < 27)%nat /\ walk h r (q ++ [i]) = Some k /\ in_trie L (q ++ [i]) /\
  b = Z.of_nat (best L (q ++ [i])).
Proof.
  intros Hinv Hw Hn (Hk & ndk & Hndk & <-).
  destruct (trie_inv_child _ _ _ _ _ _ _ _ Hinv Hw Hn Hk)
    as (Hwk & Hin & ndk' & Hndk' & _ & _ & _ & Hag).
  assert (ndk' = ndk) as -> by congruence.
  destruct (trie_inv_node _ _ _ _ _ Hinv Hw) as (nd0 & Hn0 & Hlen & _).
  assert (nd0 = nd) as -> by congruence.
  split; [apply lookup_lt_Some in Hk; lia|]. split; [done|]. split; [done|].
  rewrite Hag. unfold agg_of. rewrite decide_False; [done|]. by destruct q.
Qed.

Lemma node_has_child L h r q n nd i :
  trie_inv L h r -> walk h r q = Some n -> h !! n = Some nd ->
  (i < 27)%nat -> in_trie L (q ++ [i]) ->
  exists k, child h nd i k (Z.of_nat (best L (q ++ [i]))).
Proof.
  intros Hinv Hw Hn Hi Hin.
  destruct (trie_inv_node _ _ _ _ _ Hinv Hw) as (nd0 & Hn0 & Hlen & Hl & _).
  assert (nd0 = nd) as -> by congruence.
  destruct (proj2 (Hl i Hi) Hin) as [k Hk]. exists k.
  destruct (trie_inv_child _ _ _ _ _ _ _ _ Hinv Hw Hn Hk)
    as (_ & _ & ndk & Hndk & _ & _ & _ & Hag).
  split; [done|]. exists ndk. split; [done|].
  rewrite Hag. unfold agg_of. rewrite decide_False; [done|]. by destruct q.
Qed.

Lemma in_trie_terminal (L : list path) q :
  Forall wf_path L -> in_trie L (q ++ [0%nat]) <-> q ++ [0%nat] ∈ L.
Proof.
  intros HL. split.
  - intros [E|(y & Hy & Hpre)]; [by destruct q|].
    rewrite Forall_forall in HL. by rewrite <- (wf_path_snoc0 y q (HL _ Hy) Hpre).
  - intros Hin. right. by exists (q ++ [0%nat]).
Qed.

Lemma stop_here_spec L h r q n nd st :
  Forall wf_path L -> trie_inv L h r -> walk h r q = Some n -> h !! n = Some nd ->
  stop_here h nd st = true <->
  (q ++ [0%nat] ∈ L /\ max_frequency st <= Z.of_nat (occ L (q ++ [0%nat]))).
Proof.
  intros HL Hinv Hw Hn. unfold stop_here.
  destruct (trie_inv_node _ _ _ _ _ Hinv Hw) as (nd0 & Hn0 & Hlen & Hl & _).
  assert (nd0 = nd) as -> by congruence.
  destruct (link nd !! 0%nat) as [[t|]|] eqn:Et.
  - destruct (trie_inv_child _ _ _ _ _ _ _ _ Hinv Hw Hn Et)
      as (_ & Hin & ndt & -> & _ & _ & Hf & _).
    rewrite Hf. unfold freq_of. rewrite Z.leb_le.
    apply in_trie_terminal in Hin; [|done]. by split; [intros ?|intros [_ ?]].
  - split; [done|]. intros [Hin _]. apply in_trie_terminal in Hin; [|done].
    apply (Hl 0%nat) in Hin as [k Hk]; [congruence|lia].
  - apply lookup_ge_None in Et. lia.
Qed.

Lemma forallb_is_None_false {A} (l : list (option A)) :
  forallb is_None l = false -> exists i k, l !! i = Some (Some k).
Proof.
  induction l as [|[a|] l IH]; simpl; [done| |].
  - intros _. by exists 0%nat, a.
  - intros (i & k & Hk)%IH. by exists (S i), k.
Qed.

Lemma forallb_is_None_true {A} (l : list (option A)) i k :
  forallb is_None l = true -> l !! i <> Some (Some k).
Proof.
  intros H Hk. rewrite forallb_forall in H.
  assert (Hin : In (Some k) l) by (apply list_elem_of_In, list_elem_of_lookup; eauto).
  by apply H in Hin.
Qed.

(** ** The greedy descent finds the answer *)

Lemma descent L h r :
  Forall wf_path L -> trie_inv L h r ->
  forall fuel q n w mf,
  walk h r q = Some n -> q = letters w -> lowercase w = true ->
  (exists y, y ∈ L /\ q `prefix_of` y) ->
  ((fuel + length q < max_list (map length L))%nat /\
   autoCompleteAux fuel n mf w h = (Raise OutOfFuel, h)) \/
  (exists s, autoCompleteAux fuel n mf w h = (Ok (Some s), h) /\ answer L q w s).
Proof.
  intros HL Hinv. induction fuel as [|fuel IH];
    intros q n w mf Hw Hq Hlow (y & Hy & Hqy).
  { left. split; [|done]. eapply under_length; [done..| |done].
    subst q. by apply lowercase_letters. }
  assert (Hletters : Forall (fun i => (1 <= i <= 26)%nat) q)
    by (subst q; by apply lowercase_letters).
  assert (Hpath : path_of w = q ++ [0%nat]) by (by subst q).
  destruct (trie_inv_node _ _ _ _ _ Hinv Hw) as (nd & Hn & Hlen & Hl & _).
  pose proof (node_links_valid _ _ _ _ _ _ Hinv Hw Hn) as Hval.
  pose proof HL as HL'. rewrite Forall_forall in HL'.
  rewrite (autoCompleteAux_step h n nd fuel mf w Hn Hlen Hval).
  destruct (forallb is_None (drop 1 (link nd))) eqn:Eleaf.
  { (* no letter below: the sentence ends here *)
    right. exists w. split; [done|].
    assert (Honly : forall z, z ∈ L -> q `prefix_of` z -> z = q ++ [0%nat]).
    { intros z Hz Hqz.
      destruct (under_cases z q (HL' _ Hz) Hletters Hqz) as [?|(j & Hj & Hpre)]; [done|].
      exfalso.
      destruct (node_has_child _ _ _ _ _ _ j Hinv Hw Hn ltac:(lia)) as (k & Hk & _).
      { right. eauto. }
      apply (forallb_is_None_true _ (j - 1) k Eleaf).
      rewrite lookup_drop. by replace (1 + (j - 1))%nat with j by lia. }
    split; [done|]. split; [done|]. rewrite Hpath.
    split; [by rewrite <- (Honly y Hy Hqy)|]. split.
    - symmetry. apply best_unique.
      + intros z Hz Hqz. by rewrite (Honly z Hz Hqz).
      + right. exists (q ++ [0%nat]). split; [by rewrite <- (Honly y Hy Hqy)|].
        split; [by apply prefix_app_r|done].
    - intros s' _ Hpre _ _. by apply str_le_prefix. }
  cbv zeta. unfold scan_result.
  destruct (scan_prefix_spec h nd 26) as [Hub Hcase]. cbv zeta in Hub, Hcase.
  set (st := fold_left (scan_step h nd) (seq 1 26) (mkScan (-1) None None)) in *.
  (* some letter child exists, so the scan has selected one *)
  apply forallb_is_None_false in Eleaf as (i0 & k0 & Hk0).
  rewrite lookup_drop in Hk0.
  destruct (Hval _ _ Hk0) as [ndk0 Hndk0].
  assert (Hc0 : child h nd (1 + i0) k0 (best_sub_frequency ndk0))
    by (split; eauto).
  destruct (node_child _ _ _ _ _ _ _ _ _ Hinv Hw Hn Hc0) as (Hi0 & _ & Hin0 & Hb0).
  pose proof (Hub (1 + i0)%nat k0 _ ltac:(lia) Hc0) as Hle0.
  assert (Hpos0 : (0 < best L (q ++ [(1 + i0)%nat]))%nat).
  { apply in_trie_best_pos; [by destruct q|done]. }
  destruct Hcase as [(_ & _ & E)|(i & k & Hi & Hci & Hbest & Hidx & _ & Hfirst)]; [lia|].
  destruct (node_child _ _ _ _ _ _ _ _ _ Hinv Hw Hn Hci) as (_ & Hwk & Hink & Hmx).
  assert (Hmxpos : 0 < max_frequency st) by lia.
  (* every letter subtree is bounded by the selected aggregate *)
  assert (Hbound : forall j, (1 <= j <= 26)%nat ->
            (best L (q ++ [j]) <= best L (q ++ [i]))%nat).
  { intros j Hj. destruct (decide (0 < best L (q ++ [j]))%nat) as [Hpos|]; [|lia].
    assert (Hinj : in_trie L (q ++ [j])).
    { destruct (best_attained L (q ++ [j])) as [?|(z & ? & ? & _)]; [lia|].
      right. eauto. }
    destruct (node_has_child _ _ _ _ _ _ j Hinv Hw Hn ltac:(lia) Hinj) as (kj & Hcj).
    specialize (Hub _ _ _ Hj Hcj). lia. }
  assert (Hunder : forall z, z ∈ L -> q `prefix_of` z -> z <> q ++ [0%nat] ->
            (occ L z <= best L (q ++ [i]))%nat).
  { intros z Hz Hqz Hne.
    destruct (under_cases z q (HL' _ Hz) Hletters Hqz) as [?|(j & Hj & Hpre)]; [done|].
    etrans; [by apply (best_ub L (q ++ [j]))|by apply Hbound]. }
  rewrite Hbest, Hidx.
  destruct (stop_here h nd st) eqn:Estop.
  { (* the sentence ending here is at least as frequent *)
    apply (stop_here_spec L h r q n nd st HL Hinv Hw Hn) in Estop as [Hterm Hge].
    right. exists w. split; [done|].
    split; [done|]. split; [done|]. rewrite Hpath. split; [done|]. split.
    - symmetry. apply best_unique.
      + intros z Hz Hqz. destruct (decide (z = q ++ [0%nat])) as [->|Hne]; [done|].
        specialize (Hunder z Hz Hqz Hne). lia.
      + right. exists (q ++ [0%nat]). split; [done|]. split; [by apply prefix_app_r|done].
    - intros s' _ Hpre _ _. by apply str_le_prefix. }
  (* descend into the selected child *)
  assert (Hlt : (occ L (q ++ [0%nat]) < best L (q ++ [i]))%nat).
  { destruct (decide (0 < occ L (q ++ [0%nat]))%nat) as [Hpos|]; [|lia].
    apply occ_pos in Hpos.
    destruct (Z.leb_spec (max_frequency st) (Z.of_nat (occ L (q ++ [0%nat]))));
      [|lia].
    assert (stop_here h nd st = true); [|congruence].
    by apply (stop_here_spec L h r q n nd st HL Hinv Hw Hn). }
  assert (Hbq : best L q = best L (q ++ [i])).
  { apply best_unique.
    - intros z Hz Hqz. destruct (decide (z = q ++ [0%nat])) as [->|Hne]; [lia|].
      by apply Hunder.
    - right. destruct (best_attained L (q ++ [i])) as [?|(z & Hz & Hpre & Hocc)]; [lia|].
      exists z. split; [done|]. split; [|done].
      etrans; [|done]. by apply prefix_app_r. }
  destruct (slot_chr i Hi) as (Hslot & Hlower & Hord).
  set (c := chr (Z.of_nat i + 96)) in *.
  assert (Hlow' : lowercase (w ++ [c]) = true).
  { apply lowercase_app. split; [done|]. simpl. by rewrite Hlower. }
  assert (Hq' : q ++ [i] = letters (w ++ [c])).
  { rewrite letters_app. simpl. by rewrite Hslot, Hq. }
  assert (Hex : exists z, z ∈ L /\ q ++ [i] `prefix_of` z).
  { destruct Hink as [?|?]; [by destruct q|done]. }
  destruct (IH (q ++ [i]) k (w ++ [c]) (max_frequency st) Hwk Hq' Hlow' Hex)
    as [[Hfuel Hrun]|(s & Hrun & Hs & Hws & Hsin & Hsocc & Hsmin)].
  { left. split; [|done]. rewrite length_app in Hfuel. simpl in Hfuel. lia. }
  right. exists s. split; [done|]. split; [done|].
  split; [etrans; [|done]; by apply prefix_app_r|].
  split; [done|]. split; [by rewrite Hbq|].
  intros s' Hs' [rest ->] Hin' Hocc'. destruct rest as [|c' rest].
  { exfalso. rewrite app_nil_r, Hpath, Hbq in Hocc'. lia. }
  apply lowercase_app in Hs' as [_ [Hc' Hrest]%lowercase_cons].
  destruct (is_lower_slot c' Hc') as [_ Hj].
  assert (Hpre' : q ++ [slot c'] `prefix_of` path_of (w ++ c' :: rest)).
  { unfold path_of. rewrite letters_app, <- Hq. simpl.
    exists (letters rest ++ [0%nat]). by rewrite <- !app_assoc. }
  assert (Hjbest : best L (q ++ [slot c']) = best L (q ++ [i])).
  { apply Nat.le_antisymm; [by apply Hbound|].
    rewrite <- Hbq, <- Hocc'. by apply best_ub. }
  destruct (node_has_child _ _ _ _ _ _ (slot c') Hinv Hw Hn ltac:(lia)) as (kj & Hcj).
  { right. eauto. }
  destruct (decide (slot c' < i)%nat) as [Hless|Hge].
  { specialize (Hfirst (slot c') kj _ ltac:(lia) Hcj). lia. }
  destruct (decide (slot c' = i)) as [Heq|Hne].
  - assert (c' = c) as ->.
    { rewrite <- (chr_slot c' Hc'). unfold c. by rewrite Heq. }
    apply Hsmin; [|exists rest; by rewrite <- app_assoc|done|lia].
    apply lowercase_app. split; [done|]. by apply lowercase_cons.
  - destruct Hws as [tl ->]. rewrite <- app_assoc. simpl.
    apply str_le_app_lt. destruct (is_lower_slot c' Hc') as [E _]. lia.
Qed.

(** ** From paths back to sentences *)

Lemma lowercase_in M s :
  forallb lowercase M = true -> s ∈ M -> lowercase s = true.
Proof.
  intros HM Hs. rewrite forallb_forall in HM. apply HM. by apply list_elem_of_In.
Qed.

Lemma occ_paths M s :
  forallb lowercase M = true -> lowercase s = true ->
  Z.of_nat (occ (paths M) (path_of s)) = count M s.
Proof.
  intros HM Hs. unfold count, occ, paths. f_equal.
  induction M as [|m M IH]; [done|].
  simpl in HM. apply andb_prop in HM as [Hm HM].
  cbn [map]. rewrite !filter_cons.
  destruct (decide (m = s)) as [->|Hne].
  - rewrite decide_True by done. simpl. by rewrite IH.
  - rewrite decide_False; [by apply IH|].
    intros E. by apply path_of_inj in E.
Qed.

Lemma elem_of_paths M s :
  forallb lowercase M = true -> lowercase s = true ->
  path_of s ∈ paths M <-> s ∈ M.
Proof.
  intros HM Hs. unfold paths. rewrite list_elem_of_fmap. split.
  - intros (s' & E & Hs'). apply path_of_inj in E as ->; [done..|].
    by eapply lowercase_in.
  - intros ?. by exists s.
Qed.

Lemma elem_of_paths_inv M y :
  y ∈ paths M -> exists s, s ∈ M /\ y = path_of s.
Proof.
  unfold paths. rewrite list_elem_of_fmap. intros (s & -> & ?). eauto.
Qed.

Lemma letters_prefix w s :
  lowercase w = true -> lowercase s = true ->
  letters w `prefix_of` path_of s <-> w `prefix_of` s.
Proof.
  intros Hw Hs. split.
  - revert s Hs. induction w as [|c w IH]; intros s Hs Hpre; [apply prefix_nil|].
    apply lowercase_cons in Hw as [Hc Hw].
    destruct (is_lower_slot c Hc) as [_ Hslot].
    destruct s as [|c' s].
    + apply prefix_cons_inv_1 in Hpre. lia.
    + apply lowercase_cons in Hs as [Hc' Hs].
      rewrite path_of_cons in Hpre. cbn [letters map] in Hpre.
      pose proof (prefix_cons_inv_1 _ _ _ _ Hpre) as E.
      apply slot_inj in E as ->; [|done..].
      apply prefix_cons, IH; [done..|]. by apply prefix_cons_inv_2 in Hpre.
  - intros [k ->]. unfold path_of. rewrite letters_app, <- app_assoc.
    by apply prefix_app_r.
Qed.

(** ** [autoComplete] on a constructed trie *)

Lemma findNode_spec L h self prompt :
  trie_inv L h (root self) -> lowercase prompt = true ->
  findNode self prompt h = (Ok (walk h (root self) (letters prompt)), h).
Proof.
  intros Hinv Hlow. unfold findNode.
  by apply (findNode_loop_spec L h (root self) prompt Hinv [] (root self)).
Qed.

Lemma located_has_sentence M h r prompt n :
  forallb lowercase M = true -> lowercase prompt = true ->
  M <> [] \/ prompt <> [] ->
  trie_inv (paths M) h r -> walk h r (letters prompt) = Some n ->
  exists s, s ∈ M /\ prompt `prefix_of` s.
Proof.
  intros HM Hlow Hne Hinv Hw.
  destruct (walk_in_trie _ _ _ _ _ Hinv Hw) as [E|(y & Hy & Hpre)].
  - destruct prompt; [|done]. destruct M as [|s M]; [by destruct Hne|].
    exists s. split; [left|apply prefix_nil].
  - apply elem_of_paths_inv in Hy as (s & Hs & ->). exists s. split; [done|].
    apply letters_prefix; [done| |done]. by eapply lowercase_in.
Qed.

Lemma answer_sentence M prompt s :
  forallb lowercase M = true -> lowercase prompt = true ->
  answer (paths M) (letters prompt) prompt s ->
  s ∈ M /\ prompt `prefix_of` s /\
  (forall s', s' ∈ M -> prompt `prefix_of` s' -> count M s' <= count M s) /\
  (forall s', s' ∈ M -> prompt `prefix_of` s' -> count M s' = count M s ->
              str_le s s' = true).
Proof.
  intros HM Hlow (Hs & Hpre & Hin & Hocc & Hmin).
  split; [by apply elem_of_paths in Hin|]. split; [done|]. split.
  - intros s' Hs' Hpre'. pose proof (lowercase_in _ _ HM Hs') as Hlow'.
    rewrite <- !occ_paths by done. rewrite Hocc. apply Nat2Z.inj_le.
    apply best_ub; [by apply elem_of_paths|]. by apply letters_prefix.
  - intros s' Hs' Hpre' Hcnt. pose proof (lowercase_in _ _ HM Hs') as Hlow'.
    apply Hmin; [done..|by apply elem_of_paths|].
    rewrite <- !occ_paths in Hcnt by done. lia.
Qed.

(** The length of the longest stored path bounds the descent. *)
Lemma paths_length_bound M :
  (max_list (map length (paths M)) <= S (max_list (map length M)))%nat.
Proof.
  assert (Hlen : forall s, length (path_of s) = S (length s)).
  { intros s. unfold path_of, letters. rewrite length_app, length_map. simpl. lia. }
  unfold paths. induction M as [|s M IH]; [simpl; lia|].
  cbn [map max_list_with id] in *. rewrite Hlen. lia.
Qed.

Lemma autoComplete_spec M h0 self h fuel prompt :
  forallb lowercase M = true -> lowercase prompt = true ->
  M <> [] \/ prompt <> [] ->
  CatsTrie_init M h0 = (Ok self, h) ->
  ((~ exists s, s ∈ M /\ prompt `prefix_of` s) /\
   autoComplete fuel self prompt h = (Ok None, h)) \/
  ((fuel <= max_list (map length M))%nat /\
   autoComplete fuel self prompt h = (Raise OutOfFuel, h)) \/
  (exists s, autoComplete fuel self prompt h = (Ok (Some s), h) /\
             answer (paths M) (letters prompt) prompt s).
Proof.
  intros HM Hlow Hne Hinit.
  destruct (CatsTrie_init_spec M h0 HM) as (h1 & Hinit' & Hinv).
  rewrite Hinit in Hinit'. injection Hinit' as -> <-.
  unfold autoComplete. cbv zeta.
  run (findNode_spec _ _ (mkCatsTrie (length h0)) prompt Hinv Hlow).
  cbn [root] in *.
  destruct (walk h (length h0) (letters prompt)) as [n|] eqn:Hw.
  - right.
    destruct (located_has_sentence M h _ prompt n HM Hlow Hne Hinv Hw)
      as (s0 & Hs0 & Hpre0).
    assert (Hex : exists y, y ∈ paths M /\ letters prompt `prefix_of` y).
    { exists (path_of s0). split.
      - apply elem_of_paths; [done| |done]. by eapply lowercase_in.
      - apply letters_prefix; [done| |done]. by eapply lowercase_in. }
    destruct (descent (paths M) h (length h0) (paths_wf M HM) Hinv fuel
                (letters prompt) n prompt (-1) Hw eq_refl Hlow Hex)
      as [[Hfuel Hrun]|(s & Hrun & Hans)].
    + left. split; [|done]. pose proof (paths_length_bound M). lia.
    + right. eauto.
  - left. split; [|done]. intros (s & Hs & Hpre).
    destruct (in_trie_walk (paths M) h (length h0) (letters prompt)
                (paths_wf M HM) Hinv) as [n Hn]; [|congruence].
    right. exists (path_of s). split.
    + apply elem_of_paths; [done| |done]. by eapply lowercase_in.
    + apply letters_prefix; [done| |done]. by eapply lowercase_in.
Qed.

(** ** Queries only read *)

Create HintDb heap_pure.

Lemma pure_ret {A} (a : A) : pure (ret a).
Proof. done. Qed.

Lemma pure_raise {A} e : pure (@raise A e).
Proof. done. Qed.

Lemma pure_bind {A B} (m : Py A) (f : A -> Py B) :
  pure m -> (forall a, pure (f a)) -> pure (bind m f).
Proof.
  intros Hm Hf h. unfold bind. specialize (Hm h).
  destruct (m h) as [[a|e] h']; simpl in Hm; subst h'; [apply Hf|done].
Qed.

Lemma pure_load l : pure (load l).
Proof. intros h. unfold load. by destruct (h !! l). Qed.

#[local] Hint Resolve pure_ret pure_raise pure_load : heap_pure.

Ltac pure_tac :=
  repeat first
    [ progress auto with heap_pure
    | apply pure_bind; [|intros ?]
    | match goal with
      | |- pure (match ?x with _ => _ end) => destruct x
      end ].

Lemma pure_get_link l i : pure (get_link l i).
Proof. unfold get_link. pure_tac. Qed.

Lemma pure_get_frequency l : pure (get_frequency l).
Proof. unfold get_frequency. pure_tac. Qed.

Lemma pure_get_best_sub_frequency l : pure (get_best_sub_frequency l).
Proof. unfold get_best_sub_frequency. pure_tac. Qed.

Lemma pure_as_node v : pure (as_node v).
Proof. unfold as_node. pure_tac. Qed.

#[local] Hint Resolve pure_get_link pure_get_frequency
  pure_get_best_sub_frequency pure_as_node : heap_pure.

Lemma pure_link_best_sub_frequency l i : pure (link_best_sub_frequency l i).
Proof. unfold link_best_sub_frequency. pure_tac. Qed.

#[local] Hint Resolve pure_link_best_sub_frequency : heap_pure.

Lemma pure_scan_body current st i : pure (scan_body current st i).
Proof. unfold scan_body. pure_tac. Qed.

Lemma pure_for_each {A S} (xs : list A) (body : S -> A -> Py S) st :
  (forall st x, pure (body st x)) -> pure (for_each xs body st).
Proof.
  intros Hb. revert st. induction xs as [|x xs IH]; intros st; simpl; pure_tac.
Qed.

Lemma pure_findNode_loop prompt : forall current, pure (findNode_loop current prompt).
Proof. induction prompt as [|c prompt IH]; intros current; simpl; pure_tac. Qed.

Lemma pure_autoCompleteAux fuel :
  forall node mf word, pure (autoCompleteAux fuel node mf word).
Proof.
  induction fuel as [|fuel IH]; intros node mf word; cbn [autoCompleteAux];
    [pure_tac|].
  apply pure_bind; [pure_tac|]. intros nd.
  destruct (forallb is_None (drop 1 (link nd))); [pure_tac|].
  apply pure_bind; [apply pure_for_each; intros; apply pure_scan_body|].
  intros st. pure_tac.
Qed.

Lemma pure_autoComplete fuel self prompt : pure (autoComplete fuel self prompt).
Proof.
  unfold autoComplete, findNode. apply pure_bind; [apply pure_findNode_loop|].
  intros [n|]; [apply pure_autoCompleteAux|pure_tac].
Qed.

(** ** Fuel *)

Lemma bind_Ok_inv {A B} (m : Py A) (f : A -> Py B) h r h' :
  bind m f h = (Ok r, h') ->
  exists a h1, m h = (Ok a, h1) /\ f a h1 = (Ok r, h').
Proof. unfold bind. destruct (m h) as [[a|e] h1]; [eauto|done]. Qed.

Lemma autoCompleteAux_S fuel node mf word :
  autoCompleteAux (S fuel) node mf word =
    (nd <- load node ;;
     if forallb is_None (drop 1 (link nd)) then ret (Some word)
     else
       st <- for_each range_1_27 (scan_body node) (mkScan (-1) None None) ;;
       l0 <- get_link node 0 ;;
       stop <-
         (match l0 with
          | Some _ =>
              l0' <- get_link node 0 ;;
              current <- as_node l0' ;;
              f <- get_frequency current ;;
              ret (max_frequency st <=? f)
          | None => ret false
          end) ;;
       if stop : bool then ret (Some word)
       else
         match best_sub_node st with
         | Some best =>
             match index st with
             | Some i =>
                 autoCompleteAux fuel best (max_frequency st) (word ++ [chr (i + 96)])
             | None => raise UnboundLocalError
             end
         | None => ret None
         end).
Proof. done. Qed.

Ltac step_both H :=
  let Hm := fresh "Hm" in
  apply bind_Ok_inv in H as (? & ? & Hm & H);
  etrans; [exact (bind_ok _ _ _ _ _ Hm)|]; cbv beta.

(** More fuel never changes a result. *)
Lemma autoCompleteAux_fuel_S fuel :
  forall node mf word h r h',
  autoCompleteAux fuel node mf word h = (Ok r, h') ->
  autoCompleteAux (S fuel) node mf word h = (Ok r, h').
Proof.
  induction fuel as [|fuel IH]; intros node mf word h r h' H; [done|].
  rewrite autoCompleteAux_S in H. rewrite (autoCompleteAux_S (S fuel)).
  step_both H. destruct (forallb is_None (drop 1 (link _))); [done|].
  step_both H. step_both H. step_both H.
  match goal with |- (if ?b then _ else _) _ = _ => destruct b end; [done|].
  destruct (best_sub_node _); [|done].
  destruct (index _); [|done]. by apply IH.
Qed.

Lemma autoCompleteAux_fuel_le fuel fuel' node mf word h r h' :
  (fuel <= fuel')%nat ->
  autoCompleteAux fuel node mf word h = (Ok r, h') ->
  autoCompleteAux fuel' node mf word h = (Ok r, h').
Proof.
  induction 1 as [|fuel' _ IH]; [done|].
  intros H. by apply autoCompleteAux_fuel_S, IH.
Qed.

Lemma query_fuel_le fuel fuel' M prompt r :
  (fuel <= fuel')%nat ->
  query fuel M prompt = Ok r -> query fuel' M prompt = Ok r.
Proof.
  intros Hle. unfold query, bind, autoComplete, bind.
  destruct (CatsTrie_init M []) as [[self|e] h]; [|done].
  destruct (findNode self prompt h) as [[[n|]|e] h1]; [|done..].
  destruct (autoCompleteAux fuel n (-1) prompt h1) as [[r0|e] h2] eqn:E; [|done].
  by rewrite (autoCompleteAux_fuel_le _ _ _ _ _ _ _ _ Hle E).
Qed.

(** A returned string extends the word accumulated so far. *)
Lemma autoCompleteAux_prefix fuel :
  forall node mf word h s h',
  autoCompleteAux fuel node mf word h = (Ok (Some s), h') ->
  word `prefix_of` s.
Proof.
  induction fuel as [|fuel IH]; intros node mf word h s h' H; [done|].
  rewrite autoCompleteAux_S in H.
  apply bind_Ok_inv in H as (nd & ? & _ & H).
  destruct (forallb is_None (drop 1 (link nd))); [by injection H as -> _|].
  apply bind_Ok_inv in H as (st & ? & _ & H).
  apply bind_Ok_inv in H as (l0 & ? & _ & H).
  apply bind_Ok_inv in H as (stop & ? & _ & H).
  destruct stop; [by injection H as -> _|].
  destruct (best_sub_node st); [|done].
  destruct (index st); [|done].
  apply IH in H. etrans; [|done]. by apply prefix_app_r.
Qed.

(** ** The selection made at a node *)

Lemma stop_here_terminator h nd st :
  links_valid h nd ->
  stop_here h nd st = true <-> terminator_at_least h nd (max_frequency st).
Proof.
  intros Hval. unfold stop_here, terminator_at_least.
  destruct (link nd !! 0%nat) as [[t|]|] eqn:Et.
  - destruct (Hval _ _ Et) as [ndt Ht]. rewrite Ht, Z.leb_le. split.
    + intros ?. by exists t, ndt.
    + intros (t' & ndt' & [= <-] & Ht' & ?). congruence.
  - split; [done|]. by intros (? & ? & ? & _).
  - split; [done|]. by intros (? & ? & ? & _).
Qed.

Lemma greedy_select h node nd fuel mf word :
  h !! node = Some nd -> length (link nd) = 27%nat -> links_valid h nd ->
  (forall i k b, (1 <= i <= 26)%nat -> child h nd i k b -> 0 <= b) ->
  (exists i k, (1 <= i <= 26)%nat /\ link nd !! i = Some (Some k)) ->
  greedy_choice h node nd fuel mf word.
Proof.
  intros Hn Hlen Hval Hnonneg (i0 & k0 & Hi0 & Hk0). unfold greedy_choice.
  rewrite (autoCompleteAux_step h node nd fuel mf word Hn Hlen Hval).
  destruct (forallb is_None (drop 1 (link nd))) eqn:Eleaf.
  { exfalso. apply (forallb_is_None_true _ (i0 - 1) k0 Eleaf).
    rewrite lookup_drop. by replace (1 + (i0 - 1))%nat with i0 by lia. }
  cbv zeta. unfold scan_result.
  destruct (scan_prefix_spec h nd 26) as [Hub Hcase]. cbv zeta in Hub, Hcase.
  set (st := fold_left (scan_step h nd) (seq 1 26) (mkScan (-1) None None)) in *.
  destruct (Hval _ _ Hk0) as [ndk0 Hndk0].
  assert (Hc0 : child h nd i0 k0 (best_sub_frequency ndk0)) by (split; eauto).
  pose proof (Hub i0 k0 _ Hi0 Hc0) as Hle0.
  pose proof (Hnonneg i0 k0 _ Hi0 Hc0) as Hge0.
  destruct Hcase as [(_ & _ & E)|(i & k & Hi & Hci & Hbest & Hidx & _ & Hfirst)]; [lia|].
  exists i, k, (max_frequency st). split; [done|]. split; [done|]. split.
  { intros j k' b' Hj Hc. split; [by eapply Hub|].
    intros ->. destruct (decide (j < i)%nat) as [Hlt|]; [|lia].
    specialize (Hfirst j k' _ ltac:(lia) Hc). lia. }
  rewrite <- (stop_here_terminator h nd st Hval), Hbest, Hidx.
  destruct (stop_here h nd st); [by split|].
  split; [|done]. split; [done|].
  intros H%autoCompleteAux_prefix. by apply prefix_snoc_not in H.
Qed.

(** ** No insertion writes the root's aggregate *)

(** This part holds for arbitrary strings, lowercase or not, and whatever
    the outcome of the call. *)

Lemma ensures_ret {A} (P : heap -> Prop) (Q : A -> Prop) a :
  Q a -> ensures P (ret a) Q.
Proof. intros HQ h HP. done. Qed.

Lemma ensures_raise {A} (P : heap -> Prop) (Q : A -> Prop) e :
  ensures P (raise e) Q.
Proof. intros h HP. done. Qed.

Lemma ensures_bind {A B} (P : heap -> Prop) (Q : A -> Prop) (R : B -> Prop)
    (m : Py A) (f : A -> Py B) :
  ensures P m Q -> (forall a, Q a -> ensures P (f a) R) ->
  ensures P (bind m f) R.
Proof.
  intros Hm Hf h HP. unfold bind. specialize (Hm h HP).
  destruct (m h) as [[a|e] h1]; [|done].
  destruct Hm as [HP1 HQ]. by apply Hf.
Qed.

Lemma ensures_weaken {A} (P : heap -> Prop) (Q Q' : A -> Prop) (m : Py A) :
  (forall a, Q a -> Q' a) -> ensures P m Q -> ensures P m Q'.
Proof.
  intros HQ Hm h HP. specialize (Hm h HP).
  destruct (m h) as [[a|e] h1]; [|done]. destruct Hm. auto.
Qed.

Lemma ensures_pure {A} (P : heap -> Prop) (m : Py A) :
  pure m -> ensures P m (fun _ => True).
Proof.
  intros Hm h HP. specialize (Hm h).
  destruct (m h) as [[a|e] h1]; simpl in Hm; by subst h1.
Qed.

Section root.
Variable r : loc.

Lemma root_get_link cur i :
  (r <= cur)%nat ->
  ensures (root_untouched r) (get_link cur i)
    (fun o => forall k, o = Some k -> (r < k)%nat).
Proof.
  intros Hcur h HJ. unfold get_link, bind, load.
  destruct (h !! cur) as [nd|] eqn:Hnd; [|done].
  unfold py_getitem. destruct (py_norm _ i) as [n|]; [|done].
  destruct (link nd !! n) as [o|] eqn:Ho; [|done].
  split; [done|]. intros k ->. destruct HJ as [_ HJ]. by eapply HJ.
Qed.

Lemma root_new_Node :
  ensures (root_untouched r) new_Node (fun k => (r < k)%nat).
Proof.
  intros h [(nd & Hr & Hb) HJ]. unfold new_Node.
  pose proof (lookup_lt_Some _ _ _ Hr) as Hlt. split; [|done]. split.
  - exists nd. by rewrite lookup_app_l.
  - intros l nd' i k Hl Hnd' Hk.
    destruct (decide (l < length h)%nat) as [Hin|Hout].
    + rewrite lookup_app_l in Hnd' by done. by eapply HJ.
    + rewrite lookup_app_r in Hnd' by lia.
      destruct (l - length h)%nat; [|done]. injection Hnd' as <-.
      apply lookup_replicate in Hk as [? _]. done.
Qed.

Lemma root_store l (f : Node -> Node) :
  (forall nd, l = r -> best_sub_frequency (f nd) = best_sub_frequency nd) ->
  (forall nd i k, link (f nd) !! i = Some (Some k) ->
                  link nd !! i = Some (Some k) \/ (r < k)%nat) ->
  ensures (root_untouched r) (nd <- load l ;; store l (f nd)) (fun _ => True).
Proof.
  intros Hb Hl h HJ0. pose proof HJ0 as [(ndr & Hr & Hbr) HJ].
  unfold bind, load, store.
  destruct (h !! l) as [nd|] eqn:Hnd; [|done].
  pose proof (lookup_lt_Some _ _ _ Hnd) as Hlt.
  cbv beta iota. rewrite Hnd. split; [|done]. split.
  - destruct (decide (l = r)) as [->|Hne].
    + exists (f nd). rewrite list_lookup_insert_eq by done.
      split; [done|]. rewrite Hb by done. congruence.
    + exists ndr. by rewrite list_lookup_insert_ne.
  - intros l' nd' i k Hl' Hnd' Hk. destruct (decide (l' = l)) as [->|Hne].
    + rewrite list_lookup_insert_eq in Hnd' by done. injection Hnd' as <-.
      apply Hl in Hk as [Hk|?]; [|done]. by eapply HJ.
    + rewrite list_lookup_insert_ne in Hnd' by done. by eapply HJ.
Qed.

Lemma root_set_link cur i k :
  (r < k)%nat ->
  ensures (root_untouched r) (set_link cur i (Some k)) (fun _ => True).
Proof.
  intros Hk h HJ. unfold set_link, bind, load.
  destruct (h !! cur) as [nd|] eqn:Hnd; [|done].
  unfold py_setitem. destruct (py_norm _ i) as [n|]; [|done].
  pose proof (root_store cur
    (fun nd => mkNode (<[n := Some k]> (link nd)) (frequency nd)
                      (best_sub_frequency nd))) as Hst.
  specialize (Hst ltac:(done)). unfold ensures, bind, load in Hst.
  specialize (fun H => Hst H h HJ). rewrite Hnd in Hst. apply Hst.
  intros nd' j k' Hj. cbn [link] in Hj.
  destruct (decide (j = n)) as [->|Hne].
  - destruct (decide (n < length (link nd'))%nat).
    + rewrite list_lookup_insert_eq in Hj by done. injection Hj as <-. by right.
    + rewrite list_insert_ge in Hj by lia. by left.
  - rewrite list_lookup_insert_ne in Hj by done. by left.
Qed.

Lemma root_set_frequency l v :
  ensures (root_untouched r) (set_frequency l v) (fun _ => True).
Proof. apply root_store; [done|]. intros nd i k Hk. by left. Qed.

Lemma root_set_best_sub_frequency l v :
  (r < l)%nat ->
  ensures (root_untouched r) (set_best_sub_frequency l v) (fun _ => True).
Proof. intros Hl. apply root_store; [lia|]. intros nd i k Hk. by left. Qed.

Lemma root_link_node cur i :
  (r <= cur)%nat ->
  ensures (root_untouched r) (l <- get_link cur i ;; as_node l)
    (fun k => (r < k)%nat).
Proof.
  intros Hcur. eapply ensures_bind; [by apply root_get_link|].
  intros [k|] Hk; [|apply ensures_raise]. apply ensures_ret. by apply Hk.
Qed.

Lemma root_insert_recur_aux key :
  forall cur, (r <= cur)%nat ->
  ensures (root_untouched r) (insert_recur_aux cur key) (fun _ => True).
Proof.
  induction key as [|c key IH]; intros cur Hcur; cbn [insert_recur_aux].
  - eapply ensures_bind; [by apply root_get_link|]. intros l0 _.
    eapply (ensures_bind _ (fun _ => True)).
    { destruct l0; [by apply ensures_ret|].
      eapply ensures_bind; [apply root_new_Node|]. intros n Hn.
      by apply root_set_link. }
    intros _ _. eapply ensures_bind; [by apply root_get_link|]. intros l1 Hl1.
    destruct l1 as [t|]; [|apply ensures_raise]. specialize (Hl1 t eq_refl).
    cbn [as_node]. eapply (ensures_bind _ (fun k => k = t)); [by apply ensures_ret|].
    intros ? ->.
    eapply ensures_bind; [apply ensures_pure, pure_get_frequency|]. intros f _.
    eapply ensures_bind; [apply root_set_frequency|]. intros _ _.
    eapply ensures_bind; [apply ensures_pure, pure_get_frequency|]. intros f1 _.
    eapply ensures_bind; [apply ensures_pure, pure_get_best_sub_frequency|].
    intros b _. eapply (ensures_bind _ (fun _ => True)).
    { destruct (b <? f1); [|by apply ensures_ret].
      eapply ensures_bind; [apply ensures_pure, pure_get_frequency|]. intros f2 _.
      by apply root_set_best_sub_frequency. }
    intros _ _. apply ensures_pure, pure_get_best_sub_frequency.
  - cbv zeta. eapply ensures_bind; [by apply root_get_link|]. intros l _.
    eapply (ensures_bind _ (fun k => (r < k)%nat)).
    { destruct l; [by apply root_link_node|].
      eapply ensures_bind; [apply root_new_Node|]. intros n Hn.
      eapply ensures_bind; [by apply root_set_link|]. intros _ _.
      by apply root_link_node. }
    intros k Hk. eapply ensures_bind; [apply IH; lia|]. intros sub _.
    eapply ensures_bind; [apply ensures_pure, pure_get_best_sub_frequency|].
    intros b _. eapply (ensures_bind _ (fun _ => True)).
    { destruct (b <? sub); [|by apply ensures_ret].
      by apply root_set_best_sub_frequency. }
    intros _ _. apply ensures_pure, pure_get_best_sub_frequency.
Qed.

Lemma root_insert_loop sentences :
  ensures (root_untouched r)
    (for_each sentences (fun _ sentence => insert_recur (mkCatsTrie r) sentence) tt)
    (fun _ => True).
Proof.
  induction sentences as [|s sentences IH]; cbn [for_each]; [by apply ensures_ret|].
  eapply (ensures_bind _ (fun _ => True)); [|intros [] _; apply IH].
  unfold insert_recur. cbn [root]. eapply ensures_bind.
  - by apply root_insert_recur_aux.
  - intros _ _. by apply ensures_ret.
Qed.
End root.

Lemma root_untouched_init h0 : root_untouched (length h0) (h0 ++ [Node_init]).
Proof.
  assert (Hr : (h0 ++ [Node_init]) !! length h0 = Some Node_init).
  { rewrite lookup_app_r by lia. by rewrite Nat.sub_diag. }
  split; [by exists Node_init|].
  intros l nd i k Hl Hnd Hk. pose proof (lookup_lt_Some _ _ _ Hnd) as Hlt.
  rewrite length_app in Hlt. simpl in Hlt.
  assert (l = length h0) as -> by lia.
  rewrite Hr in Hnd. injection Hnd as <-.
  apply lookup_replicate in Hk as [? _]. done.
Qed.

Lemma CatsTrie_init_root M h0 :
  let '(o, h) := CatsTrie_init M h0 in
  root_untouched (length h0) h /\
  forall self, o = Ok self -> root self = length h0.
Proof.
  unfold CatsTrie_init, bind at 1. cbn [new_Node].
  pose proof (root_insert_loop (length h0) M _ (root_untouched_init h0)) as H.
  unfold bind.
  destruct (for_each M _ tt (h0 ++ [Node_init])) as [[[]|e] h]; cbn [ret].
  - destruct H as [H _]. split; [done|]. by intros self [= <-].
  - split; [done|]. by intros self [=].
Qed.

(** * The claims *)

(** ** Correctness of [autoComplete] *)

(** X1: on every corpus of lowercase sentences and every lowercase prompt,
    except the empty prompt on the empty corpus, a returned string is a
    sentence of the corpus, extends the prompt, occurs at least as often as
    every sentence extending the prompt, and is the least in Python's string
    order among the most frequent ones. *)
Theorem autoComplete_correct M h0 self h fuel prompt s h' :
  forallb lowercase M = true -> lowercase prompt = true ->
  M <> [] \/ prompt <> [] ->
  CatsTrie_init M h0 = (Ok self, h) ->
  autoComplete fuel self prompt h = (Ok (Some s), h') ->
  s ∈ M /\ prompt `prefix_of` s /\
  (forall s', s' ∈ M -> prompt `prefix_of` s' -> count M s' <= count M s) /\
  (forall s', s' ∈ M -> prompt `prefix_of` s' -> count M s' = count M s ->
              str_le s s' = true).
Proof.
  intros HM Hlow Hne Hinit Hrun.
  destruct (autoComplete_spec M h0 self h fuel prompt HM Hlow Hne Hinit)
    as [[_ E]|[[_ E]|(s0 & E & Hans)]]; rewrite E in Hrun; try done.
  injection Hrun as <- _. by apply answer_sentence.
Qed.

Lemma autoComplete_correct_witness :
  let M := ex1 in let prompt := lit "ab" in let s := lit "abazacy" in
  s ∈ M /\ prompt `prefix_of` s /\
  (forall s', s' ∈ M -> prompt `prefix_of` s' -> count M s' <= count M s) /\
  (forall s', s' ∈ M -> prompt `prefix_of` s' -> count M s' = count M s ->
              str_le s s' = true).
Proof.
  apply (autoComplete_correct ex1 [] (mkCatsTrie 0%nat)
           (snd (CatsTrie_init ex1 [])) 6 (lit "ab") (lit "abazacy")
           (snd (CatsTrie_init ex1 []))).
  - reflexivity.
  - reflexivity.
  - left. discriminate.
  - vm_compute. reflexivity.
  - vm_compute. reflexivity.
Defined.

(** X2: on the same inputs, a prompt that no sentence of the corpus extends
    gets the result [None]. *)
Theorem autoComplete_no_match M h0 self h fuel prompt :
  forallb lowercase M = true -> lowercase prompt = true ->
  M <> [] \/ prompt <> [] ->
  CatsTrie_init M h0 = (Ok self, h) ->
  (forall s, s ∈ M -> ~ prompt `prefix_of` s) ->
  autoComplete fuel self prompt h = (Ok None, h).
Proof.
  intros HM Hlow Hne Hinit Hno.
  destruct (CatsTrie_init_spec M h0 HM) as (h1 & Hinit' & Hinv).
  rewrite Hinit in Hinit'. injection Hinit' as -> <-.
  unfold autoComplete. cbv zeta.
  run (findNode_spec _ _ (mkCatsTrie (length h0)) prompt Hinv Hlow).
  cbn [root]. destruct (walk h (length h0) (letters prompt)) as [n|] eqn:Hw; [|done].
  destruct (located_has_sentence M h _ prompt n HM Hlow Hne Hinv Hw) as (s & Hs & Hpre).
  by destruct (Hno s Hs).
Qed.

Lemma autoComplete_no_match_witness :
  autoComplete 3 (mkCatsTrie 0%nat) (lit "q") (snd (CatsTrie_init ex1 []))
    = (Ok None, snd (CatsTrie_init ex1 [])).
Proof.
  apply (autoComplete_no_match ex1 [] (mkCatsTrie 0%nat)
           (snd (CatsTrie_init ex1 [])) 3 (lit "q")).
  - reflexivity.
  - reflexivity.
  - left. discriminate.
  - vm_compute. reflexivity.
  - apply Forall_forall. vm_compute.
    repeat (constructor; [intros [k Hk]; discriminate Hk|]). constructor.
Defined.

(** The empty prompt on the empty corpus: the root has no child at all, and
    the leaf test of [autoCompleteAux] returns the word built so far. *)
Lemma autoComplete_empty h0 fuel :
  CatsTrie_init [] h0 = (Ok (mkCatsTrie (length h0)), h0 ++ [Node_init]) /\
  autoComplete (S fuel) (mkCatsTrie (length h0)) [] (h0 ++ [Node_init])
    = (Ok (Some []), h0 ++ [Node_init]).
Proof.
  split; [done|].
  assert (Hr : (h0 ++ [Node_init]) !! length h0 = Some Node_init).
  { rewrite lookup_app_r by lia. by rewrite Nat.sub_diag. }
  unfold autoComplete, findNode. cbn [findNode_loop root]. rewrite bind_ret.
  rewrite autoCompleteAux_S. by run (load_ok _ _ _ Hr).
Qed.

(** C1: the claim fails on the empty corpus with the empty prompt, where
    [autoComplete] returns the string [""], which is no sentence of the
    corpus. *)
Theorem autoComplete_returns_non_member h0 fuel :
  exists self h s,
    CatsTrie_init [] h0 = (Ok self, h) /\
    autoComplete (S fuel) self [] h = (Ok (Some s), h) /\
    s ∉ ([] : list str).
Proof.
  destruct (autoComplete_empty h0 fuel) as [Hinit Hrun].
  eexists _, _, _. split; [done|]. split; [done|]. apply not_elem_of_nil.
Qed.

(** C3: on the empty corpus the empty prompt is a prefix of no sentence,
    and yet the result is the string [""] and not [None]. *)
Theorem autoComplete_empty_corpus_not_None h0 fuel :
  exists self h,
    CatsTrie_init [] h0 = (Ok self, h) /\
    (forall s, s ∈ ([] : list str) -> ~ [] `prefix_of` s) /\
    autoComplete (S fuel) self [] h = (Ok (Some []), h) /\
    autoComplete (S fuel) self [] h <> (Ok None, h).
Proof.
  destruct (autoComplete_empty h0 fuel) as [Hinit Hrun].
  eexists _, _. split; [done|]. split; [|split; [done|]].
  - intros s Hs. by apply elem_of_nil in Hs.
  - by rewrite Hrun.
Qed.

(** ** The aggregate invariant *)

(** C5: after the constructor has inserted any sequence of lowercase
    sentences, the aggregate of every node other than the root is the
    largest frequency of a terminator node in its subtree. *)
Theorem nonroot_aggregate_exact M h0 self h q n :
  forallb lowercase M = true ->
  CatsTrie_init M h0 = (Ok self, h) ->
  q <> [] -> walk h (root self) q = Some n ->
  aggregate_exact h q n.
Proof.
  intros HM Hinit Hq Hw.
  destruct (CatsTrie_init_spec M h0 HM) as (h1 & Hinit' & Hinv).
  rewrite Hinit in Hinit'. injection Hinit' as -> <-. cbn [root] in Hw.
  pose proof (paths_wf M HM) as HL. set (L := paths M) in *.
  destruct (trie_inv_node _ _ _ _ _ Hinv Hw) as (nd & Hn & _ & _ & _ & Hag).
  unfold agg_of in Hag. rewrite decide_False in Hag by done.
  exists nd. split; [done|]. split.
  - intros t ndt (q' & Hq' & _) Ht.
    assert (Hwt : walk h (length h0) (q ++ q') = Some t) by (by rewrite walk_app, Hw).
    destruct (trie_inv_node _ _ _ _ _ Hinv Hwt) as (ndt' & Ht' & _ & _ & Hf & _).
    assert (ndt' = ndt) as -> by congruence.
    rewrite Hf, Hag. unfold freq_of. apply Nat2Z.inj_le, occ_le_best.
    by apply prefix_app_r.
  - left. pose proof (walk_in_trie _ _ _ _ _ Hinv Hw) as Hin.
    pose proof (in_trie_best_pos L q Hq Hin) as Hpos.
    destruct (best_attained L q) as [?|(x & Hx & [q' ->] & Hocc)]; [lia|].
    destruct (in_trie_walk L h (length h0) (q ++ q') HL Hinv) as [t Hwt].
    { right. by exists (q ++ q'). }
    destruct (trie_inv_node _ _ _ _ _ Hinv Hwt) as (ndt & Ht & _ & _ & Hf & _).
    exists t, ndt. split; [|split; [done|]].
    + exists q'. split; [by rewrite walk_app, Hw in Hwt|].
      rewrite Forall_forall in HL. destruct (HL _ Hx) as (p & -> & _).
      apply last_snoc.
    + rewrite Hf, Hag. unfold freq_of. by rewrite Hocc.
Qed.

Lemma nonroot_aggregate_exact_witness :
  aggregate_exact (snd (CatsTrie_init (map lit ["a"; "a"; "aa"]%string) []))
    [1%nat] 1%nat.
Proof.
  apply (nonroot_aggregate_exact (map lit ["a"; "a"; "aa"]%string) []
           (mkCatsTrie 0%nat) _ [1%nat] 1%nat).
  - reflexivity.
  - vm_compute. reflexivity.
  - discriminate.
  - vm_compute. reflexivity.
Defined.

(** C6: after the constructor has inserted any sequence of sentences,
    empty or not, the aggregate of the root is 0: every write of an
    aggregate goes to a node reached through a link, and no link leads to
    the root. *)
Theorem root_aggregate_zero M h0 self h :
  CatsTrie_init M h0 = (Ok self, h) ->
  exists nd, h !! root self = Some nd /\ best_sub_frequency nd = 0.
Proof.
  intros Hinit. pose proof (CatsTrie_init_root M h0) as H.
  rewrite Hinit in H. destruct H as [[Hnd _] Hroot].
  by rewrite (Hroot self eq_refl).
Qed.

Lemma root_aggregate_zero_witness :
  exists nd, snd (CatsTrie_init ex1 []) !! 0%nat = Some nd /\
             best_sub_frequency nd = 0.
Proof.
  apply (root_aggregate_zero ex1 [] (mkCatsTrie 0%nat)).
  vm_compute. reflexivity.
Defined.

(** C2: the claim fails at the root.  After the constructor has inserted
    the single sentence ["a"], the root's aggregate is still 0, while the
    terminator node below it has frequency 1. *)
Theorem root_aggregate_stale :
  exists self h,
    CatsTrie_init [lit "a"] [] = (Ok self, h) /\
    ~ aggregate_exact h [] (root self).
Proof.
  exists (mkCatsTrie 0%nat), (snd (CatsTrie_init [lit "a"] [])).
  split; [vm_compute; reflexivity|].
  intros (nd & Hnd & Hub & _). vm_compute in Hnd. injection Hnd as <-.
  specialize (Hub 2%nat (mkNode (replicate 27 None) 1 1)).
  cbn [frequency best_sub_frequency] in Hub.
  assert (1 <= 0); [|lia]. apply Hub; [|vm_compute; reflexivity].
  exists [1%nat; 0%nat]. split; vm_compute; reflexivity.
Qed.

(** ** The greedy descent *)

(** C4: at a node of a constructed trie that has a letter child, the
    descent selects, among the letter children of the largest aggregate,
    the one under the smallest slot; it returns the accumulated word
    exactly when the node has a slot-0 child whose frequency is at least
    that aggregate, and otherwise continues in the selected child with its
    letter appended. *)
Theorem greedy_step M h0 self h q node nd fuel mf word :
  forallb lowercase M = true ->
  CatsTrie_init M h0 = (Ok self, h) ->
  walk h (root self) q = Some node -> h !! node = Some nd ->
  (exists i k, (1 <= i <= 26)%nat /\ link nd !! i = Some (Some k)) ->
  greedy_choice h node nd fuel mf word.
Proof.
  intros HM Hinit Hw Hn Hkid.
  destruct (CatsTrie_init_spec M h0 HM) as (h1 & Hinit' & Hinv).
  rewrite Hinit in Hinit'. injection Hinit' as -> <-. cbn [root] in Hw.
  destruct (trie_inv_node _ _ _ _ _ Hinv Hw) as (nd' & Hn' & Hlen & _).
  assert (nd' = nd) as -> by congruence.
  apply greedy_select; [done|done| | |done].
  - by eapply node_links_valid.
  - intros i k b _ Hc.
    destruct (node_child _ _ _ _ _ _ _ _ _ Hinv Hw Hn Hc) as (_ & _ & _ & ->). lia.
Qed.

Lemma greedy_step_witness :
  greedy_choice (snd (CatsTrie_init ex1 [])) 2%nat
    (mkNode (<[1%nat := Some 5%nat]> (<[3%nat := Some 3%nat]> (replicate 27 None))) 0 3)
    5 (-1) (lit "ab").
Proof.
  apply (greedy_step ex1 [] (mkCatsTrie 0%nat) _ [1%nat; 2%nat]).
  - reflexivity.
  - vm_compute. reflexivity.
  - vm_compute. reflexivity.
  - vm_compute. reflexivity.
  - exists 1%nat, 5%nat. split; [lia|]. reflexivity.
Defined.

(** C7: on the corpus of the source's main block, [autoComplete("ab")]
    returns ["abazacy"] (with any fuel of at least 6, the number of nodes
    the descent visits). *)
Theorem example_ab fuel :
  query (6 + fuel) ex1 (lit "ab") = Ok (Some (lit "abazacy")).
Proof.
  apply (query_fuel_le 6); [lia|]. vm_compute. reflexivity.
Qed.

(** C8: on ["a", "a", "aa"] the prompt ["a"] is completed to ["a"]: at the
    located node the terminator has frequency 2, its only letter child has
    aggregate 1, and the descent stops. *)
Theorem example_a fuel :
  let M := map lit ["a"; "a"; "aa"]%string in
  let h := snd (CatsTrie_init M []) in
  exists n nd t ndt k,
    walk h 0%nat (letters (lit "a")) = Some n /\ h !! n = Some nd /\
    link nd !! 0%nat = Some (Some t) /\ h !! t = Some ndt /\ frequency ndt = 2 /\
    child h nd 1 k 1 /\
    (forall j k' b', (1 <= j <= 26)%nat -> child h nd j k' b' -> b' <= 1) /\
    query (1 + fuel) M (lit "a") = Ok (Some (lit "a")).
Proof.
  cbv zeta.
  exists 1%nat,
    (mkNode (<[0%nat := Some 2%nat]> (<[1%nat := Some 3%nat]> (replicate 27 None))) 0 2),
    2%nat, (mkNode (replicate 27 None) 2 2), 3%nat.
  split; [vm_compute; reflexivity|]. split; [vm_compute; reflexivity|].
  split; [reflexivity|]. split; [vm_compute; reflexivity|]. split; [reflexivity|].
  split; [split; [reflexivity|eexists; split; [vm_compute; reflexivity|reflexivity]]|].
  split.
  - intros j k' b' Hj (Hl & ndk & Hk & <-).
    cbn [link] in Hl. destruct j as [|[|j]]; [lia| |].
    + vm_compute in Hl. injection Hl as <-. vm_compute in Hk. by injection Hk as <-.
    + exfalso. rewrite !list_lookup_insert_ne in Hl by lia.
      apply lookup_replicate in Hl as [? _]. done.
  - apply (query_fuel_le 1); [lia|]. vm_compute. reflexivity.
Qed.

(** ** The recursion limit *)

Lemma bind_ext {A B} (m : Py A) (f g : A -> Py B) h :
  (forall a h', f a h' = g a h') -> bind m f h = bind m g h.
Proof. intros H. unfold bind. destruct (m h) as [[a|e] h']; [apply H|done]. Qed.

Lemma for_each_ext {A S} (xs : list A) (f g : S -> A -> Py S) :
  (forall st x h, x ∈ xs -> f st x h = g st x h) ->
  forall st h, for_each xs f st h = for_each xs g st h.
Proof.
  induction xs as [|x xs IH]; intros H st h; [done|].
  cbn [for_each]. unfold bind. rewrite (H st x h) by left.
  destruct (g st x h) as [[st'|e] h']; [|done].
  apply IH. intros st0 y h0 Hy. apply H. by right.
Qed.

Lemma limited_new_Node_enough stack :
  (1 <= stack)%nat -> Limited.new_Node stack = new_Node.
Proof. destruct stack; [lia|done]. Qed.

(** With two frames more than the sentence has characters, the recursion
    limit is not met: the run is that of the unlimited function. *)
Lemma limited_insert_recur_aux_enough key :
  forall stack current h, (length key + 2 <= stack)%nat ->
  Limited.insert_recur_aux stack current key h = insert_recur_aux current key h.
Proof.
  induction key as [|c key IH]; intros [|stack] current h Hs;
    cbn [length] in Hs; try lia;
    cbn [Limited.insert_recur_aux insert_recur_aux];
    rewrite (limited_new_Node_enough stack) by lia; [done|].
  cbv zeta. apply bind_ext. intros l h1. apply bind_ext. intros cur h2.
  unfold bind. by rewrite IH by lia.
Qed.

Lemma limited_insert_recur_enough stack self key h :
  (length key + 3 <= stack)%nat ->
  Limited.insert_recur stack self key h = insert_recur self key h.
Proof.
  intros Hs. destruct stack as [|stack]; [lia|].
  unfold Limited.insert_recur, insert_recur. cbv zeta. unfold bind.
  by rewrite limited_insert_recur_aux_enough by lia.
Qed.

Lemma limited_insert_loop_enough stack self M st h :
  (max_list (map length M) + 3 <= stack)%nat ->
  for_each M (fun _ sentence => Limited.insert_recur stack self sentence) st h
  = for_each M (fun _ sentence => insert_recur self sentence) st h.
Proof.
  intros Hs. apply for_each_ext. intros [] s h1 Hin.
  apply limited_insert_recur_enough.
  assert (length s <= max_list (map length M))%nat; [|lia].
  apply max_list_elem_of_le, list_elem_of_fmap. eauto.
Qed.

Lemma limited_CatsTrie_init_enough stack M h0 :
  (max_list (map length M) + 4 <= stack)%nat ->
  Limited.CatsTrie_init stack M h0 = CatsTrie_init M h0.
Proof.
  intros Hs. destruct stack as [|stack]; [lia|].
  unfold Limited.CatsTrie_init, CatsTrie_init.
  rewrite (limited_new_Node_enough stack) by lia. cbv zeta.
  apply bind_ext. intros r h. unfold bind.
  by rewrite limited_insert_loop_enough by lia.
Qed.

(** ** Termination *)

(** C9: the constructor and [autoComplete] return, for every corpus of
    lowercase sentences and every lowercase prompt, whenever the recursion
    has room.  [insert_recur_aux] calls itself once per character of the
    sentence: a constructor called with four more frames left than the
    longest sentence has characters returns a trie.  [autoCompleteAux]
    descends one node per call: [autoComplete] returns a result as soon as
    its fuel exceeds the length of the longest sentence. *)
Theorem construction_and_query_terminate M h0 prompt stack :
  forallb lowercase M = true -> lowercase prompt = true ->
  (max_list (map length M) + 4 <= stack)%nat ->
  exists self h,
    Limited.CatsTrie_init stack M h0 = (Ok self, h) /\
    forall fuel, (max_list (map length M) < fuel)%nat ->
      exists res, autoComplete fuel self prompt h = (Ok res, h).
Proof.
  intros HM Hlow Hstack.
  destruct (CatsTrie_init_spec M h0 HM) as (h & Hinit & _).
  exists (mkCatsTrie (length h0)), h.
  split; [by rewrite limited_CatsTrie_init_enough|]. intros fuel Hfuel.
  destruct M as [|s0 M]; [destruct prompt as [|c prompt]|].
  - destruct fuel as [|fuel]; [simpl in Hfuel; lia|].
    destruct (autoComplete_empty h0 fuel) as [Hinit' Hrun].
    rewrite Hinit in Hinit'. injection Hinit' as ->. eauto.
  - destruct (autoComplete_spec [] h0 _ h fuel (c :: prompt) HM Hlow
                ltac:(by right) Hinit) as [[_ E]|[[? E]|(s & E & _)]]; [eauto|lia|eauto].
  - destruct (autoComplete_spec (s0 :: M) h0 _ h fuel prompt HM Hlow
                ltac:(by left) Hinit) as [[_ E]|[[? E]|(s & E & _)]]; [eauto|lia|eauto].
Qed.

Lemma construction_and_query_terminate_witness :
  exists self h,
    Limited.CatsTrie_init 11 ex1 [] = (Ok self, h) /\
    forall fuel, (max_list (map length ex1) < fuel)%nat ->
      exists res, autoComplete fuel self (lit "ab") h = (Ok res, h).
Proof.
  apply (construction_and_query_terminate ex1 [] (lit "ab") 11);
    [reflexivity|reflexivity|vm_compute; lia].
Defined.

(** ** Queries are read-only *)

(** C10: [autoComplete] leaves the heap, hence every node's links,
    frequency and aggregate, as it found it; two calls with the same prompt
    one after the other return the same result. *)
Theorem autoComplete_read_only fuel self prompt h :
  snd (autoComplete fuel self prompt h) = h /\
  (r1 <- autoComplete fuel self prompt ;;
   r2 <- autoComplete fuel self prompt ;;
   ret (r1, r2)) h =
  match autoComplete fuel self prompt h with
  | (Ok r, _) => (Ok (r, r), h)
  | (Raise e, _) => (Raise e, h)
  end.
Proof.
  pose proof (pure_autoComplete fuel self prompt h) as Hp. split; [done|].
  unfold bind. destruct (autoComplete fuel self prompt h) as [[r|e] h1] eqn:E;
    simpl in Hp; subst h1; [|done].
  by rewrite E.
Qed.

(** * Further properties of the code *)

(** ** Lookup after construction *)

Lemma in_trie_sentence M prompt :
  forallb lowercase M = true -> lowercase prompt = true ->
  in_trie (paths M) (letters prompt) <->
  prompt = [] \/ exists s, s ∈ M /\ prompt `prefix_of` s.
Proof.
  intros HM Hlow. split.
  - intros [E|(y & Hy & Hpre)]; [left; by destruct prompt|].
    apply elem_of_paths_inv in Hy as (s & Hs & ->). right. exists s.
    split; [done|]. apply letters_prefix; [done| |done]. by eapply lowercase_in.
  - intros [->|(s & Hs & Hpre)]; [by left|]. right. exists (path_of s).
    pose proof (lowercase_in _ _ HM Hs). split.
    + by apply elem_of_paths.
    + by apply letters_prefix.
Qed.

(** X3: [findNode] on a constructed trie finds a node exactly for the empty
    prompt and for the prompts that some stored sentence extends. *)
Theorem findNode_locates M h0 self h prompt :
  forallb lowercase M = true -> lowercase prompt = true ->
  CatsTrie_init M h0 = (Ok self, h) ->
  exists o, findNode self prompt h = (Ok o, h) /\
    (is_Some o <-> prompt = [] \/ exists s, s ∈ M /\ prompt `prefix_of` s).
Proof.
  intros HM Hlow Hinit.
  destruct (CatsTrie_init_spec M h0 HM) as (h1 & Hinit' & Hinv).
  rewrite Hinit in Hinit'. injection Hinit' as -> <-.
  exists (walk h (length h0) (letters prompt)).
  split; [by apply (findNode_spec _ _ (mkCatsTrie (length h0)) prompt Hinv)|].
  rewrite <- in_trie_sentence by done. split.
  - intros [n Hn]. by eapply walk_in_trie.
  - intros Hin. destruct (in_trie_walk _ _ _ _ (paths_wf M HM) Hinv Hin) as [n ->].
    by exists n.
Qed.

Lemma findNode_locates_witness :
  exists o, findNode (mkCatsTrie 0%nat) (lit "xy") (snd (CatsTrie_init ex1 []))
              = (Ok o, snd (CatsTrie_init ex1 [])) /\
    (is_Some o <->
     lit "xy" = [] \/ exists s, s ∈ ex1 /\ lit "xy" `prefix_of` s).
Proof.
  apply (findNode_locates ex1 [] (mkCatsTrie 0%nat)
           (snd (CatsTrie_init ex1 [])) (lit "xy")).
  - reflexivity.
  - reflexivity.
  - vm_compute. reflexivity.
Defined.

(** X4: after construction, the node found for a sentence of the corpus
    has a slot-0 child, and that child's frequency is the number of times
    the sentence occurs in the corpus; it has no link of its own. *)
Theorem stored_sentence_frequency M h0 self h s :
  forallb lowercase M = true ->
  CatsTrie_init M h0 = (Ok self, h) ->
  s ∈ M ->
  exists n nd t ndt,
    findNode self s h = (Ok (Some n), h) /\ h !! n = Some nd /\
    link nd !! 0%nat = Some (Some t) /\ h !! t = Some ndt /\
    frequency ndt = count M s /\ best_sub_frequency ndt = count M s /\
    link ndt = replicate 27 None.
Proof.
  intros HM Hinit Hs. pose proof (lowercase_in _ _ HM Hs) as Hlow.
  destruct (CatsTrie_init_spec M h0 HM) as (h1 & Hinit' & Hinv).
  rewrite Hinit in Hinit'. injection Hinit' as -> <-.
  pose proof (paths_wf M HM) as HL.
  assert (Hin : path_of s ∈ paths M) by (by apply elem_of_paths).
  destruct (in_trie_walk _ _ _ (path_of s) HL Hinv) as [t Ht].
  { right. by exists (path_of s). }
  unfold path_of in Ht. rewrite walk_snoc in Ht.
  destruct (walk h (length h0) (letters s)) as [n|] eqn:Hn; [|done].
  apply walk_step_Some in Ht as (nd & Hnd & Hl).
  destruct (trie_inv_child _ _ _ _ _ _ _ _ Hinv Hn Hnd Hl)
    as (Hwt & _ & ndt & Hndt & Hlen & Hpres & Hf & Ha).
  exists n, nd, t, ndt.
  split. { rewrite (findNode_spec _ _ (mkCatsTrie (length h0)) s Hinv Hlow). by rewrite <- Hn. }
  split; [done|]. split; [done|]. split; [done|].
  fold (path_of s) in Hf, Ha, Hpres.
  split; [by rewrite Hf; apply occ_paths|]. split.
  - rewrite Ha. unfold agg_of. rewrite decide_False by (unfold path_of; by destruct (letters s)).
    unfold path_of. rewrite best_terminal by done. by apply occ_paths.
  - apply list_eq_same_length with 27%nat; [by rewrite length_replicate|done|].
    intros i y x Hi Hy Hx. apply lookup_replicate in Hx as [-> _].
    destruct y as [k|]; [|done]. exfalso.
    assert (Hbad : in_trie (paths M) (path_of s ++ [i])) by (apply Hpres; eauto).
    destruct Hbad as [E|(z & Hz & [k' Hpre])]; [by destruct (path_of s)|].
    rewrite Forall_forall in HL. specialize (HL _ Hz).
    unfold path_of in Hpre. rewrite <- !app_assoc in Hpre. simpl in Hpre.
    by pose proof (wf_path_end _ _ _ HL Hpre).
Qed.

Lemma stored_sentence_frequency_witness :
  exists n nd t ndt,
    findNode (mkCatsTrie 0%nat) (lit "xyz") (snd (CatsTrie_init ex1 []))
      = (Ok (Some n), snd (CatsTrie_init ex1 [])) /\
    snd (CatsTrie_init ex1 []) !! n = Some nd /\
    link nd !! 0%nat = Some (Some t) /\
    snd (CatsTrie_init ex1 []) !! t = Some ndt /\
    frequency ndt = count ex1 (lit "xyz") /\
    best_sub_frequency ndt = count ex1 (lit "xyz") /\
    link ndt = replicate 27 None.
Proof.
  apply (stored_sentence_frequency ex1 [] (mkCatsTrie 0%nat)).
  - reflexivity.
  - vm_compute. reflexivity.
  - vm_compute. do 6 right. left.
Defined.

(** X5: the node found for a lowercase string that is no sentence of the
    corpus, if there is one, has no slot-0 child. *)
Theorem absent_sentence_unmarked M h0 self h s n nd :
  forallb lowercase M = true -> lowercase s = true ->
  CatsTrie_init M h0 = (Ok self, h) ->
  s ∉ M ->
  findNode self s h = (Ok (Some n), h) -> h !! n = Some nd ->
  link nd !! 0%nat = Some None.
Proof.
  intros HM Hlow Hinit Hs Hfind Hnd.
  destruct (CatsTrie_init_spec M h0 HM) as (h1 & Hinit' & Hinv).
  rewrite Hinit in Hinit'. injection Hinit' as -> <-.
  rewrite (findNode_spec _ _ (mkCatsTrie (length h0)) s Hinv Hlow) in Hfind.
  injection Hfind as Hw. cbn [root] in Hw.
  destruct (trie_inv_node _ _ _ _ _ Hinv Hw) as (nd' & Hnd' & Hlen & Hpres & _).
  assert (nd' = nd) as -> by congruence.
  destruct (link nd !! 0%nat) as [[t|]|] eqn:Et; [|done|].
  - exfalso. apply Hs.
    assert (Hin : in_trie (paths M) (letters s ++ [0%nat]))
      by (apply Hpres; [lia|eauto]).
    apply in_trie_terminal in Hin; [|by apply paths_wf].
    by apply (elem_of_paths M s HM Hlow).
  - apply lookup_ge_None in Et. lia.
Qed.

Lemma absent_sentence_unmarked_witness :
  link (mkNode (<[1%nat := Some 5%nat]> (<[3%nat := Some 3%nat]> (replicate 27 None))) 0 3)
    !! 0%nat = Some None.
Proof.
  apply (absent_sentence_unmarked ex1 [] (mkCatsTrie 0%nat)
           (snd (CatsTrie_init ex1 [])) (lit "ab") 2%nat).
  - reflexivity.
  - reflexivity.
  - vm_compute. reflexivity.
  - intros Hin. vm_compute in Hin.
    repeat (apply elem_of_cons in Hin as [Hin|Hin]; [discriminate Hin|]).
    by apply elem_of_nil in Hin.
  - vm_compute. reflexivity.
  - vm_compute. reflexivity.
Defined.

(** ** Answers *)

Lemma ord_inj c c' : ord c = ord c' -> c = c'.
Proof.
  unfold ord. intros E%Nat2Z.inj.
  by rewrite <- (ascii_nat_embedding c), <- (ascii_nat_embedding c'), E.
Qed.

Lemma str_le_antisym a b : str_le a b = true -> str_le b a = true -> a = b.
Proof.
  revert b. induction a as [|x a IH]; intros [|y b]; simpl; try done.
  destruct (Z.ltb_spec (ord x) (ord y)), (Z.ltb_spec (ord y) (ord x)); try lia.
  - destruct (Z.eqb_spec (ord y) (ord x)); [lia|done].
  - destruct (Z.eqb_spec (ord x) (ord y)); [lia|done].
  - destruct (Z.eqb_spec (ord x) (ord y)) as [E|]; [|done].
    destruct (Z.eqb_spec (ord y) (ord x)); [|lia].
    intros H1 H2. f_equal; [by apply ord_inj|by apply IH].
Qed.

(** X6: when some sentence of the corpus extends the prompt, [autoComplete]
    returns a string, as soon as its fuel exceeds the length of the longest
    sentence. *)
Theorem autoComplete_finds M h0 self h fuel prompt s0 :
  forallb lowercase M = true -> lowercase prompt = true ->
  CatsTrie_init M h0 = (Ok self, h) ->
  s0 ∈ M -> prompt `prefix_of` s0 ->
  (max_list (map length M) < fuel)%nat ->
  exists s, autoComplete fuel self prompt h = (Ok (Some s), h).
Proof.
  intros HM Hlow Hinit Hs0 Hpre Hfuel.
  assert (Hne : M <> [] \/ prompt <> []).
  { left. intros ->. by apply elem_of_nil in Hs0. }
  destruct (autoComplete_spec M h0 self h fuel prompt HM Hlow Hne Hinit)
    as [[Hno _]|[[? _]|(s & E & _)]]; [|lia|eauto].
  destruct Hno. eauto.
Qed.

Lemma autoComplete_finds_witness :
  exists s, autoComplete 8 (mkCatsTrie 0%nat) (lit "x") (snd (CatsTrie_init ex1 []))
              = (Ok (Some s), snd (CatsTrie_init ex1 [])).
Proof.
  apply (autoComplete_finds ex1 [] (mkCatsTrie 0%nat) _ 8 (lit "x") (lit "xzz")).
  - reflexivity.
  - reflexivity.
  - vm_compute. reflexivity.
  - vm_compute. do 3 right. left.
  - by exists (lit "zz").
  - vm_compute. lia.
Defined.

(** X7: completing a completion gives it back: a string returned by
    [autoComplete] is returned again when it is itself the prompt. *)
Theorem autoComplete_idempotent M h0 self h fuel prompt s :
  forallb lowercase M = true -> lowercase prompt = true ->
  CatsTrie_init M h0 = (Ok self, h) ->
  (max_list (map length M) < fuel)%nat ->
  autoComplete fuel self prompt h = (Ok (Some s), h) ->
  autoComplete fuel self s h = (Ok (Some s), h).
Proof.
  intros HM Hlow Hinit Hfuel Hrun.
  destruct M as [|m M']; [destruct prompt as [|c prompt]|].
  - destruct fuel as [|fuel]; [simpl in Hfuel; lia|].
    destruct (autoComplete_empty h0 fuel) as [Hinit' Hrun'].
    rewrite Hinit in Hinit'. injection Hinit' as -> ->.
    rewrite Hrun' in Hrun. by injection Hrun as <-.
  - destruct (autoComplete_spec [] h0 self h fuel (c :: prompt) HM Hlow
                ltac:(by right) Hinit)
      as [[_ E]|[[? _]|(s1 & E & Hans)]]; [congruence|simpl in *; lia|].
    destruct (answer_sentence [] _ s1 HM Hlow Hans) as (Hs & _).
    by apply elem_of_nil in Hs.
  - set (M := m :: M') in *.
    assert (Hne : M <> []) by done.
    destruct (autoComplete_spec M h0 self h fuel prompt HM Hlow ltac:(by left) Hinit)
      as [[_ E]|[[? _]|(s1 & E & Hans)]]; [congruence|lia|].
    rewrite E in Hrun. injection Hrun as ->.
    pose proof Hans as (Hslow & _).
    destruct (answer_sentence M prompt s HM Hlow Hans) as (Hs & Hpre & Hmax & Hmin).
    destruct (autoComplete_spec M h0 self h fuel s HM Hslow ltac:(by left) Hinit)
      as [[Hno _]|[[? _]|(s2 & E2 & Hans2)]]; [|lia|].
    { destruct Hno. by exists s. }
    rewrite E2. do 2 f_equal. f_equal.
    destruct (answer_sentence M s s2 HM Hslow Hans2) as (Hs2 & Hpre2 & Hmax2 & Hmin2).
    assert (Hp2 : prompt `prefix_of` s2) by (by etrans).
    pose proof (Hmax s2 Hs2 Hp2). pose proof (Hmax2 s Hs ltac:(done)).
    apply str_le_antisym.
    + apply Hmin2; [done..|lia].
    + by apply str_le_prefix.
Qed.

Lemma autoComplete_idempotent_witness :
  autoComplete 8 (mkCatsTrie 0%nat) (lit "abazacy") (snd (CatsTrie_init ex1 []))
    = (Ok (Some (lit "abazacy")), snd (CatsTrie_init ex1 [])).
Proof.
  apply (autoComplete_idempotent ex1 [] (mkCatsTrie 0%nat) _ 8 (lit "ab")).
  - reflexivity.
  - reflexivity.
  - vm_compute. reflexivity.
  - vm_compute. lia.
  - vm_compute. reflexivity.
Defined.

Lemma query_init fuel M prompt self h :
  CatsTrie_init M [] = (Ok self, h) ->
  query fuel M prompt = fst (autoComplete fuel self prompt h).
Proof. intros Hinit. unfold query, bind. by rewrite Hinit. Qed.

Lemma count_Permutation M M' s : M ≡ₚ M' -> count M s = count M' s.
Proof. intros HP. unfold count. by rewrite HP. Qed.

Lemma lowercase_Permutation M M' :
  M ≡ₚ M' -> forallb lowercase M = true -> forallb lowercase M' = true.
Proof.
  intros HP HM. apply forallb_forall. intros s Hs%list_elem_of_In.
  rewrite <- HP in Hs. by eapply lowercase_in.
Qed.

(** X8: the answer does not depend on the order in which the sentences
    were given to the constructor. *)
Theorem autoComplete_order_independent M M' fuel prompt :
  M ≡ₚ M' ->
  forallb lowercase M = true -> lowercase prompt = true ->
  (max_list (map length M) < fuel)%nat ->
  query fuel M prompt = query fuel M' prompt.
Proof.
  intros HP HM Hlow Hfuel.
  destruct M as [|m M0].
  { apply Permutation_nil_l in HP. by subst M'. }
  set (M := m :: M0) in *.
  assert (HM' : forallb lowercase M' = true) by (by eapply lowercase_Permutation).
  assert (Hfuel' : (max_list (map length M') < fuel)%nat).
  { replace (max_list (map length M')) with (max_list (map length M)); [done|].
    apply (max_list_with_Permutation_proper id), Permutation_map, HP. }
  assert (Hne' : M' <> []).
  { intros ->. by apply Permutation_nil_r in HP. }
  destruct (CatsTrie_init_spec M [] HM) as (h & Hinit & _).
  destruct (CatsTrie_init_spec M' [] HM') as (h' & Hinit' & _).
  rewrite (query_init _ _ _ _ _ Hinit), (query_init _ _ _ _ _ Hinit').
  destruct (autoComplete_spec M [] _ h fuel prompt HM Hlow ltac:(by left) Hinit)
    as [[Hno E]|[[? _]|(s & E & Hans)]]; [|lia|];
  destruct (autoComplete_spec M' [] _ h' fuel prompt HM' Hlow ltac:(by left) Hinit')
    as [[Hno' E']|[[? _]|(s' & E' & Hans')]]; try lia; rewrite E, E'; [done| | |].
  - destruct (answer_sentence M' prompt s' HM' Hlow Hans') as (Hs' & Hpre' & _).
    destruct Hno. exists s'. by rewrite HP.
  - destruct (answer_sentence M prompt s HM Hlow Hans) as (Hs & Hpre & _).
    destruct Hno'. exists s. by rewrite <- HP.
  - destruct (answer_sentence M prompt s HM Hlow Hans) as (Hs & Hpre & Hmax & Hmin).
    destruct (answer_sentence M' prompt s' HM' Hlow Hans') as (Hs' & Hpre' & Hmax' & Hmin').
    simpl. do 2 f_equal.
    assert (Hs1 : s ∈ M') by (by rewrite <- HP).
    assert (Hs2 : s' ∈ M) by (by rewrite HP).
    pose proof (Hmax s' Hs2 Hpre') as H1. pose proof (Hmax' s Hs1 Hpre) as H2.
    rewrite <- !(count_Permutation M M' _ HP) in H2.
    apply str_le_antisym.
    + apply Hmin; [done..|lia].
    + apply Hmin'; [done..|]. rewrite <- !(count_Permutation M M' _ HP). lia.
Qed.

Lemma autoComplete_order_independent_witness :
  query 4 (map lit ["b"; "ab"; "ab"; "a"]%string) (lit "")
  = query 4 (map lit ["ab"; "a"; "b"; "ab"]%string) (lit "").
Proof.
  apply autoComplete_order_independent.
  - cbn [map].
    apply Permutation_cons_app with (l1 := [lit "ab"; lit "a"]) (l2 := [lit "ab"]).
    apply perm_skip, perm_swap.
  - reflexivity.
  - reflexivity.
  - vm_compute. lia.
Defined.

(** ** The word built by the descent *)

(** X9: on any heap and for any prompt, a string returned by [autoComplete]
    begins with the prompt. *)
Theorem autoComplete_extends_prompt fuel self prompt h s h' :
  autoComplete fuel self prompt h = (Ok (Some s), h') ->
  prompt `prefix_of` s.
Proof.
  unfold autoComplete. cbv zeta. intros H.
  apply bind_Ok_inv in H as ([n|] & h1 & _ & H); [|done].
  by eapply autoCompleteAux_prefix.
Qed.

Lemma autoComplete_extends_prompt_witness : lit "dbc" `prefix_of` lit "dbcef".
Proof.
  apply (autoComplete_extends_prompt 4 (mkCatsTrie 0%nat) (lit "dbc")
           (snd (CatsTrie_init ex1 [])) (lit "dbcef") (snd (CatsTrie_init ex1 []))).
  vm_compute. reflexivity.
Defined.

Lemma bind_map_answer {A} (g : str -> str) (m : Py A)
    (f f' : A -> Py (option str)) h :
  (forall a h1, f a h1 = map_answer g (f' a h1)) ->
  bind m f h = map_answer g (bind m f' h).
Proof. intros Hf. unfold bind. destruct (m h) as [[a|e] h1]; [apply Hf|done]. Qed.

Lemma map_answer_app w c r :
  map_answer (app w) (map_answer (app [c]) r) = map_answer (app (w ++ [c])) r.
Proof.
  destruct r as [[[s|]|e] h]; simpl; [|done..]. by rewrite <- app_assoc.
Qed.

Lemma autoCompleteAux_suffix fuel :
  forall node mf mf' word h,
  autoCompleteAux fuel node mf word h
  = map_answer (app word) (autoCompleteAux fuel node mf' [] h).
Proof.
  induction fuel as [|fuel IH]; intros node mf mf' word h; [done|].
  rewrite !autoCompleteAux_S. apply bind_map_answer. intros nd h1.
  destruct (forallb is_None (drop 1 (link nd))).
  { cbn. by rewrite app_nil_r. }
  apply bind_map_answer. intros st h2. apply bind_map_answer. intros l0 h3.
  apply bind_map_answer. intros [|] h4.
  { cbn. by rewrite app_nil_r. }
  destruct (best_sub_node st) as [best|]; [|done].
  destruct (index st) as [i|]; [|done].
  rewrite (IH best (max_frequency st) (max_frequency st) (word ++ [chr (i + 96)])).
  change ([] ++ [chr (i + 96)]) with [chr (i + 96)].
  rewrite (IH best (max_frequency st) (max_frequency st) [chr (i + 96)]).
  by rewrite map_answer_app.
Qed.

(** X10: the string [autoCompleteAux] returns is the word it was given
    followed by a suffix that depends on the node alone: neither the word
    nor the [max_frequency] argument influences it. *)
Theorem autoCompleteAux_word fuel node mf mf' word h :
  autoCompleteAux fuel node mf word h
  = map_answer (app word) (autoCompleteAux fuel node mf' [] h).
Proof. apply autoCompleteAux_suffix. Qed.

(** ** Characters outside [a]..[z] *)

Lemma bind_raise {A B} (m : Py A) (f : A -> Py B) h e h' :
  m h = (Raise e, h') -> bind m f h = (Raise e, h').
Proof. unfold bind. by intros ->. Qed.

Lemma bind_raise_after {A B} (m : Py A) (f : A -> Py B) h a h1 e h' :
  m h = (Ok a, h1) -> f a h1 = (Raise e, h') -> bind m f h = (Raise e, h').
Proof. unfold bind. by intros -> ->. Qed.

Lemma get_link_out_of_range h l nd c :
  h !! l = Some nd -> length (link nd) = 27%nat -> out_of_range c = true ->
  get_link l (ord c - 97 + 1) h = (Raise IndexError, h).
Proof.
  intros Hl Hlen Hc. unfold get_link. run (load_ok _ _ _ Hl).
  unfold py_getitem, py_norm. rewrite Hlen.
  unfold out_of_range in Hc. apply orb_prop in Hc.
  assert (ord c < 69 \/ 122 < ord c) as Hc'
    by (destruct Hc as [?%Z.ltb_lt|?%Z.ltb_lt]; lia).
  destruct (Z.leb_spec 0 (ord c - 97 + 1)), (Z.ltb_spec (ord c - 97 + 1) (Z.of_nat 27));
    simpl; try lia; try done;
  destruct (Z.leb_spec (- Z.of_nat 27) (ord c - 97 + 1)),
           (Z.ltb_spec (ord c - 97 + 1) 0); simpl; try lia; done.
Qed.

Lemma findNode_loop_app L h r pre rest :
  trie_inv L h r ->
  forall q n, walk h r q = Some n -> lowercase pre = true ->
  findNode_loop n (pre ++ rest) h =
    match walk h n (letters pre) with
    | Some k => findNode_loop k rest h
    | None => (Ok None, h)
    end.
Proof.
  intros Hinv. induction pre as [|c pre IH]; intros q n Hw Hlow; [done|].
  apply lowercase_cons in Hlow as [Hc Hlow].
  destruct (is_lower_slot c Hc) as [Hidx Hslot].
  destruct (trie_inv_node _ _ _ _ _ Hinv Hw) as (nd & Hn & Hlen & _).
  cbn [app findNode_loop letters map walk]. cbv zeta.
  destruct (link nd !! slot c) as [[k|]|] eqn:Ek.
  - run (get_link_ok h n nd _ (slot c) _ Hn Hidx Ek).
    run (get_link_ok h n nd _ (slot c) _ Hn Hidx Ek). run (as_node_ok k h).
    destruct (trie_inv_child _ _ _ _ _ _ _ _ Hinv Hw Hn Ek) as (Hwk & _).
    rewrite (IH _ _ Hwk Hlow).
    replace (walk_step h n (slot c)) with (Some k); [done|].
    symmetry. apply walk_step_Some. eauto.
  - run (get_link_ok h n nd _ (slot c) _ Hn Hidx Ek).
    unfold walk_step. by rewrite Hn, Ek.
  - apply lookup_ge_None in Ek. lia.
Qed.

(** X11: a prompt with a character outside the accepted index range (a
    code point below 69 or above 122) makes [autoComplete] raise
    [IndexError] when the lowercase part before that character is found in
    the trie; when it is not found, the result is [None] and the character
    is never looked at. *)
Theorem autoComplete_bad_character M h0 self h fuel pre c rest :
  forallb lowercase M = true ->
  CatsTrie_init M h0 = (Ok self, h) ->
  lowercase pre = true -> out_of_range c = true ->
  ((pre = [] \/ exists s, s ∈ M /\ pre `prefix_of` s) ->
   autoComplete fuel self (pre ++ c :: rest) h = (Raise IndexError, h)) /\
  (~ (pre = [] \/ exists s, s ∈ M /\ pre `prefix_of` s) ->
   autoComplete fuel self (pre ++ c :: rest) h = (Ok None, h)).
Proof.
  intros HM Hinit Hlow Hc.
  destruct (CatsTrie_init_spec M h0 HM) as (h1 & Hinit' & Hinv).
  rewrite Hinit in Hinit'. injection Hinit' as -> <-.
  unfold autoComplete, findNode. cbv zeta. cbn [root].
  pose proof (findNode_loop_app _ h (length h0) pre (c :: rest) Hinv []
                (length h0) eq_refl Hlow) as Hloop.
  rewrite <- in_trie_sentence by done.
  destruct (walk h (length h0) (letters pre)) as [k|] eqn:Hw.
  - split; [intros _|intros Hno; destruct Hno; by eapply walk_in_trie].
    destruct (trie_inv_node _ _ _ _ _ Hinv Hw) as (nd & Hk & Hlen & _).
    apply bind_raise. rewrite Hloop. cbn [findNode_loop]. cbv zeta.
    apply bind_raise. by eapply get_link_out_of_range.
  - split; [|intros _; by rewrite (bind_ok _ _ _ _ _ Hloop)].
    intros Hin. destruct (in_trie_walk _ _ _ _ (paths_wf M HM) Hinv Hin) as [n Hn].
    congruence.
Qed.

Lemma autoComplete_bad_character_witness :
  autoComplete 5 (mkCatsTrie 0%nat) (lit "ab!c") (snd (CatsTrie_init ex1 []))
    = (Raise IndexError, snd (CatsTrie_init ex1 [])) /\
  autoComplete 5 (mkCatsTrie 0%nat) (lit "q!") (snd (CatsTrie_init ex1 []))
    = (Ok None, snd (CatsTrie_init ex1 [])).
Proof.
  split.
  - apply (autoComplete_bad_character ex1 [] (mkCatsTrie 0%nat) _ 5
             (lit "ab") "!"%char (lit "c")); [reflexivity|vm_compute; reflexivity|
             reflexivity|reflexivity|].
    right. exists (lit "abc"). split; [left|by exists (lit "c")].
  - apply (autoComplete_bad_character ex1 [] (mkCatsTrie 0%nat) _ 5
             (lit "q") "!"%char []); [reflexivity|vm_compute; reflexivity|
             reflexivity|reflexivity|].
    intros [?|(s & Hs & [k Hk])]; [done|]. vm_compute in Hs.
    repeat (apply elem_of_cons in Hs as [->|Hs]; [discriminate Hk|]).
    by apply elem_of_nil in Hs.
Defined.

Lemma for_each_app {A S} (xs ys : list A) (body : S -> A -> Py S) st h :
  for_each (xs ++ ys) body st h
  = (st' <- for_each xs body st ;; for_each ys body st') h.
Proof.
  revert st h. induction xs as [|x xs IH]; intros st h; [done|].
  cbn [app for_each]. unfold bind in *.
  destruct (body st x h) as [[st1|e] h1]; [apply IH|done].
Qed.

Lemma limited_insert_recur_aux_bad_character L r pre c rest :
  out_of_range c = true ->
  forall stack p cur h,
  lowercase pre = true -> (length pre + 1 <= stack)%nat ->
  models h r (pre_spec L p) -> walk h r p = Some cur ->
  exists h',
    Limited.insert_recur_aux stack cur (pre ++ c :: rest) h = (Raise IndexError, h') /\
    models h' r (pre_spec L (p ++ letters pre)).
Proof.
  intros Hc. induction pre as [|c0 pre IH]; intros [|stack] p cur h Hlow Hs Hm Hw;
    cbn [length] in Hs; try lia.
  - pose proof Hm as [H1 _].
    destruct (H1 _ _ Hw) as (nd & Hcur & Hlen & _).
    exists h. cbn [app Limited.insert_recur_aux letters map]. cbv zeta.
    rewrite app_nil_r. split; [|done].
    apply bind_raise. by eapply get_link_out_of_range.
  - apply lowercase_cons in Hlow as [Hc0 Hlow].
    destruct (is_lower_slot c0 Hc0) as [Hidx Hslot].
    cbn [app Limited.insert_recur_aux]. cbv zeta.
    rewrite (limited_new_Node_enough stack) by lia.
    replace (p ++ letters (c0 :: pre)) with ((p ++ [slot c0]) ++ letters pre)
      by (by rewrite <- app_assoc).
    destruct (step_in L r p h cur (slot c0) Hm Hw ltac:(lia))
      as (nd & Hcur & Hlen & [(k & Hk & Hm2 & Hw2) | (Hnone & Hm2 & Hw2 & Hmono)]).
    + run (get_link_ok h cur nd _ (slot c0) _ Hcur Hidx Hk).
      rewrite bind_assoc. run (get_link_ok h cur nd _ (slot c0) _ Hcur Hidx Hk).
      run (as_node_ok k h).
      destruct (IH stack (p ++ [slot c0]) k h Hlow ltac:(lia) Hm2 Hw2)
        as (h' & Hrun & Hm').
      exists h'. split; [by apply bind_raise|done].
    + cbn zeta in Hm2, Hw2, Hmono.
      assert (Hcur' : (h ++ [Node_init]) !! cur = Some nd).
      { rewrite lookup_app_l; [done|]. by eapply lookup_lt_Some. }
      run (get_link_ok h cur nd _ (slot c0) _ Hcur Hidx Hnone).
      rewrite bind_assoc. run (new_Node_ok h). rewrite bind_assoc.
      run (set_link_ok _ cur nd _ (slot c0) (Some (length h)) Hcur' Hidx ltac:(lia)).
      set (nd' := mkNode _ _ _) in *. set (h2 := <[cur := nd']> _) in *.
      assert (Hcur2 : h2 !! cur = Some nd').
      { apply list_lookup_insert_eq. by eapply lookup_lt_Some. }
      assert (Hl2 : link nd' !! slot c0 = Some (Some (length h))).
      { apply list_lookup_insert_eq. lia. }
      rewrite bind_assoc.
      run (get_link_ok h2 cur nd' _ (slot c0) _ Hcur2 Hidx Hl2).
      run (as_node_ok (length h) h2).
      destruct (IH stack (p ++ [slot c0]) (length h) h2 Hlow ltac:(lia) Hm2 Hw2)
        as (h' & Hrun & Hm').
      exists h'. split; [by apply bind_raise|done].
Qed.

(** X12: the constructor raises [IndexError] at the first sentence that
    has a character outside the accepted index range (a code point below 69
    or above 122) after a lowercase part, when the lowercase sentences
    before it and that lowercase part fit the recursion limit.  No trie is
    returned, and the heap left is the same whatever sentences follow: it
    holds the trie of the sentences before, with their counts, and the
    nodes of the lowercase part, which count nothing. *)
Theorem CatsTrie_init_bad_character stack M pre c rest h0 :
  forallb lowercase M = true ->
  lowercase pre = true -> out_of_range c = true ->
  (max_list (map length M) + 4 <= stack)%nat ->
  (length pre + 3 <= stack)%nat ->
  exists h,
    (forall M2, Limited.CatsTrie_init stack (M ++ (pre ++ c :: rest) :: M2) h0
                = (Raise IndexError, h)) /\
    models h (length h0)
      (node_ok (fun q => in_trie (paths M) q \/ q `prefix_of` letters pre)
               (freq_of (paths M)) (agg_of (paths M))).
Proof.
  intros HM Hlow Hc Hstack Hpre.
  destruct (insert_loop_spec (mkCatsTrie (length h0)) M [] (h0 ++ [Node_init])
              eq_refl HM (trie_inv_empty h0)) as (h & Hrun & Hinv).
  cbn [app root] in Hinv. apply trie_inv_pre in Hinv.
  destruct stack as [|[|stack]]; [lia..|].
  destruct (limited_insert_recur_aux_bad_character (paths M) (length h0) pre c rest
              Hc stack [] (length h0) h Hlow ltac:(lia) Hinv eq_refl)
    as (h' & Hbad & Hm).
  exists h'. split; [|done]. intros M2.
  unfold Limited.CatsTrie_init. rewrite (limited_new_Node_enough (S stack)) by lia.
  run (new_Node_ok h0). cbv zeta.
  apply bind_raise. rewrite for_each_app.
  apply bind_raise_after with (a := tt) (h1 := h).
  { by rewrite limited_insert_loop_enough by lia. }
  cbn [for_each]. apply bind_raise. unfold Limited.insert_recur. cbv zeta. cbn [root].
  by apply bind_raise.
Qed.

Lemma CatsTrie_init_bad_character_witness :
  exists h,
    (forall M2, Limited.CatsTrie_init 6 ([lit "ab"] ++ (lit "a" ++ "B"%char :: []) :: M2) []
                = (Raise IndexError, h)) /\
    models h 0%nat
      (node_ok (fun q => in_trie (paths [lit "ab"]) q \/ q `prefix_of` letters (lit "a"))
               (freq_of (paths [lit "ab"])) (agg_of (paths [lit "ab"]))).
Proof.
  apply (CatsTrie_init_bad_character 6 [lit "ab"] (lit "a") "B"%char [] []);
    [reflexivity|reflexivity|reflexivity|vm_compute; lia|vm_compute; lia].
Defined.

Lemma ord_chr z : 0 <= z < 256 -> ord (chr z) = z.
Proof. intros Hz. unfold ord, chr. rewrite nat_ascii_embedding; lia. Qed.

Lemma get_link_wrapped h l nd c v :
  h !! l = Some nd -> length (link nd) = 27%nat ->
  is_lower (wrapped c) = true -> link nd !! slot (wrapped c) = Some v ->
  get_link l (ord c - 97 + 1) h = (Ok v, h).
Proof.
  intros Hl Hlen Hlow Hv. unfold wrapped in *.
  destruct ((70 <=? ord c) && (ord c <=? 95)) eqn:Ew.
  - apply andb_prop in Ew as [H1%Z.leb_le H2%Z.leb_le].
    unfold slot in Hv. rewrite ord_chr in Hv by lia.
    unfold get_link. run (load_ok _ _ _ Hl).
    unfold py_getitem, py_norm. rewrite Hlen.
    destruct (Z.leb_spec 0 (ord c - 97 + 1)); [lia|]. simpl.
    destruct (Z.leb_spec (- Z.of_nat 27) (ord c - 97 + 1)); [|lia].
    destruct (Z.ltb_spec (ord c - 97 + 1) 0); [|lia]. simpl.
    replace (Z.to_nat (ord c - 97 + 1 + Z.of_nat 27))
      with (Z.to_nat (ord c + 27 - 97 + 1)) by lia.
    by rewrite Hv.
  - destruct (is_lower_slot c Hlow) as [Hidx _].
    by eapply get_link_ok.
Qed.

Lemma findNode_loop_wrapped L h r prompt :
  trie_inv L h r ->
  forall q n, walk h r q = Some n -> lowercase (map wrapped prompt) = true ->
  findNode_loop n prompt h = (Ok (walk h n (letters (map wrapped prompt))), h).
Proof.
  intros Hinv. induction prompt as [|c prompt IH]; intros q n Hw Hlow; [done|].
  cbn [map] in Hlow. apply lowercase_cons in Hlow as [Hc Hlow].
  destruct (is_lower_slot _ Hc) as [_ Hslot].
  destruct (trie_inv_node _ _ _ _ _ Hinv Hw) as (nd & Hn & Hlen & _).
  cbn [findNode_loop letters map walk]. cbv zeta.
  destruct (link nd !! slot (wrapped c)) as [[k|]|] eqn:Ek.
  - run (get_link_wrapped h n nd c _ Hn Hlen Hc Ek).
    run (get_link_wrapped h n nd c _ Hn Hlen Hc Ek). run (as_node_ok k h).
    destruct (trie_inv_child _ _ _ _ _ _ _ _ Hinv Hw Hn Ek) as (Hwk & _).
    rewrite (IH _ _ Hwk Hlow).
    replace (walk_step h n (slot (wrapped c))) with (Some k); [done|].
    symmetry. apply walk_step_Some. eauto.
  - run (get_link_wrapped h n nd c _ Hn Hlen Hc Ek).
    unfold walk_step. by rewrite Hn, Ek.
  - apply lookup_ge_None in Ek. lia.
Qed.

(** X13: the characters with code points 70 to 95 (['F'] to ['_']) have a
    negative index that Python accepts, and are read as the letters 27
    code points above them.  A prompt that becomes lowercase under this
    reading is answered like its lowercase reading, with the characters of
    the prompt itself at the front of the returned string. *)
Theorem autoComplete_wrapped M h0 self h fuel prompt :
  forallb lowercase M = true ->
  CatsTrie_init M h0 = (Ok self, h) ->
  lowercase (map wrapped prompt) = true ->
  autoComplete fuel self prompt h
  = map_answer (fun s => prompt ++ drop (length prompt) s)
      (autoComplete fuel self (map wrapped prompt) h).
Proof.
  intros HM Hinit Hlow.
  destruct (CatsTrie_init_spec M h0 HM) as (h1 & Hinit' & Hinv).
  rewrite Hinit in Hinit'. injection Hinit' as -> <-.
  unfold autoComplete, findNode. cbv zeta. cbn [root].
  run (findNode_loop_wrapped _ h _ prompt Hinv [] (length h0) eq_refl Hlow).
  run (findNode_loop_spec _ h _ (map wrapped prompt) Hinv [] (length h0) eq_refl Hlow).
  destruct (walk h (length h0) (letters (map wrapped prompt))) as [n|]; [|done].
  rewrite (autoCompleteAux_suffix fuel n (-1) (-1) prompt).
  rewrite (autoCompleteAux_suffix fuel n (-1) (-1) (map wrapped prompt)).
  destruct (autoCompleteAux fuel n (-1) [] h) as [[[s|]|e] h']; simpl; [|done..].
  do 3 f_equal. rewrite drop_app_length'; [done|]. by rewrite length_map.
Qed.

Lemma autoComplete_wrapped_witness :
  autoComplete 6 (mkCatsTrie 0%nat) (lit "FG") (snd (CatsTrie_init ex1 []))
  = (Ok (Some (lit "FGazacy")), snd (CatsTrie_init ex1 [])).
Proof.
  etrans.
  - apply (autoComplete_wrapped ex1 [] (mkCatsTrie 0%nat) _ 6 (lit "FG")).
    + reflexivity.
    + vm_compute. reflexivity.
    + reflexivity.
  - vm_compute. reflexivity.
Defined.

(** ** Allocation *)

Lemma grows_pure {A} (m : Py A) : pure m -> grows 0 m.
Proof. intros Hm h. rewrite Hm. lia. Qed.

Lemma grows_bind {A B} a b (m : Py A) (f : A -> Py B) :
  grows a m -> (forall x, grows b (f x)) -> grows (a + b) (bind m f).
Proof.
  intros Hm Hf h. unfold bind. specialize (Hm h).
  destruct (m h) as [[x|e] h1]; simpl in *; [|lia].
  specialize (Hf x h1). lia.
Qed.

Lemma grows_le {A} k k' (m : Py A) : (k <= k')%nat -> grows k m -> grows k' m.
Proof. intros Hk Hm h. specialize (Hm h). lia. Qed.

Lemma grows_store_after_load l (f : Node -> Node) :
  grows 0 (nd <- load l ;; store l (f nd)).
Proof.
  intros h. unfold bind, load, store.
  destruct (h !! l) as [nd|] eqn:E; simpl; [|lia].
  rewrite E. simpl. rewrite length_insert. lia.
Qed.

Lemma grows_set_link l i v : grows 0 (set_link l i v).
Proof.
  intros h. unfold set_link, bind, load.
  destruct (h !! l) as [nd|] eqn:E; simpl; [|lia].
  destruct (py_setitem (link nd) i v); simpl; [|lia].
  unfold store. rewrite E. simpl. rewrite length_insert. lia.
Qed.

Lemma grows_new_Node : grows 1 new_Node.
Proof. intros h. unfold new_Node. simpl. rewrite length_app. simpl. lia. Qed.

Lemma grows_link_node cur i : grows 0 (l <- get_link cur i ;; as_node l).
Proof.
  apply (grows_bind 0 0); [apply grows_pure, pure_get_link|].
  intros l. apply grows_pure, pure_as_node.
Qed.

Lemma grows_insert_recur_aux key :
  forall cur, grows (S (length key)) (insert_recur_aux cur key).
Proof.
  induction key as [|c key IH]; intros cur; cbn [insert_recur_aux length].
  - apply (grows_bind 0 1); [apply grows_pure, pure_get_link|]. intros l0.
    apply (grows_bind 1 0).
    { destruct l0; [apply (grows_le 0); [lia|apply grows_pure, pure_ret]|].
      apply (grows_bind 1 0); [apply grows_new_Node|]. intros n.
      apply grows_set_link. }
    intros _. apply (grows_bind 0 0); [apply grows_pure, pure_get_link|]. intros l1.
    apply (grows_bind 0 0); [apply grows_pure, pure_as_node|]. intros t.
    apply (grows_bind 0 0); [apply grows_pure, pure_get_frequency|]. intros f.
    apply (grows_bind 0 0); [apply grows_store_after_load|]. intros _.
    apply (grows_bind 0 0); [apply grows_pure, pure_get_frequency|]. intros f1.
    apply (grows_bind 0 0); [apply grows_pure, pure_get_best_sub_frequency|].
    intros b. apply (grows_bind 0 0).
    { destruct (b <? f1); [|apply grows_pure, pure_ret].
      apply (grows_bind 0 0); [apply grows_pure, pure_get_frequency|]. intros f2.
      apply grows_store_after_load. }
    intros _. apply grows_pure, pure_get_best_sub_frequency.
  - cbv zeta. apply (grows_le (0 + (1 + (S (length key) + 0)))); [lia|].
    apply grows_bind; [apply grows_pure, pure_get_link|]. intros l.
    apply grows_bind.
    { destruct l; [apply (grows_le 0); [lia|apply grows_link_node]|].
      apply (grows_bind 1 0); [apply grows_new_Node|]. intros n.
      apply (grows_bind 0 0); [apply grows_set_link|]. intros _.
      apply grows_link_node. }
    intros k. apply grows_bind; [apply IH|]. intros sub.
    apply (grows_bind 0 0); [apply grows_pure, pure_get_best_sub_frequency|].
    intros b. apply (grows_bind 0 0).
    { destruct (b <? sub); [|apply grows_pure, pure_ret].
      apply grows_store_after_load. }
    intros _. apply grows_pure, pure_get_best_sub_frequency.
Qed.

Lemma grows_insert_loop self sentences :
  grows (sum_list (map (fun s => S (length s)) sentences))
    (for_each sentences (fun _ sentence => insert_recur self sentence) tt).
Proof.
  induction sentences as [|s sentences IH]; cbn [for_each map].
  - apply grows_pure, pure_ret.
  - apply (grows_bind (S (length s))
             (sum_list (map (fun s => S (length s)) sentences)));
      [|intros []; apply IH].
    unfold insert_recur. cbv zeta.
    apply (grows_le (S (length s) + 0)); [lia|].
    apply (grows_bind (S (length s)) 0); [apply grows_insert_recur_aux|]. intros _.
    apply grows_pure, pure_ret.
Qed.

(** X14: whatever the strings and whatever its outcome, the constructor
    frees no node and allocates the root and at most one node per
    character and one per sentence. *)
Theorem CatsTrie_init_allocation M h0 :
  (length h0 < length (snd (CatsTrie_init M h0))
   <= length h0 + 1 + sum_list (map (fun s => S (length s)) M))%nat.
Proof.
  unfold CatsTrie_init. run (new_Node_ok h0). cbv zeta.
  pose proof (grows_bind _ 0 _ (fun _ => ret (mkCatsTrie (length h0)))
                (grows_insert_loop (mkCatsTrie (length h0)) M)
                (fun _ => grows_pure _ (pure_ret _)) (h0 ++ [Node_init])) as H.
  rewrite length_app in H. simpl in H. lia.
Qed.

(** ** Inserting into an existing trie *)

Lemma link_insert_same (h : heap) t ndt nd' :
  h !! t = Some ndt -> link nd' = link ndt ->
  forall l, link <$> (<[t := nd']> h) !! l = link <$> h !! l.
Proof.
  intros Ht Hl l. destruct (decide (l = t)) as [->|Hne].
  - rewrite list_lookup_insert_eq by (by eapply lookup_lt_Some).
    rewrite Ht. simpl. by rewrite Hl.
  - by rewrite list_lookup_insert_ne.
Qed.

Lemma insert_recur_aux_existing key :
  forall cur h t,
  lowercase key = true ->
  walk h cur (path_of key) = Some t -> is_Some (h !! t) ->
  exists v h',
    insert_recur_aux cur key h = (Ok v, h') /\
    length h' = length h /\
    forall l, link <$> h' !! l = link <$> h !! l.
Proof.
  induction key as [|c key IH]; intros cur h t Hlow Hw [ndt Ht].
  - change (path_of []) with [0%nat] in Hw. cbn [walk] in Hw.
    destruct (walk_step h cur 0) as [t'|] eqn:Es; [|done]. injection Hw as ->.
    apply walk_step_Some in Es as (nd & Hcur & Hl0).
    cbn [insert_recur_aux].
    run (get_link_ok h cur nd 0 0%nat _ Hcur eq_refl Hl0). rewrite bind_ret.
    run (get_link_ok h cur nd 0 0%nat _ Hcur eq_refl Hl0). run (as_node_ok t h).
    run (get_frequency_ok _ _ _ Ht). run (set_frequency_ok _ _ _ (frequency ndt + 1) Ht).
    set (nd1 := mkNode (link ndt) (frequency ndt + 1) (best_sub_frequency ndt)).
    assert (Hlt : (t < length h)%nat) by (by eapply lookup_lt_Some).
    assert (Ht1 : <[t := nd1]> h !! t = Some nd1) by (by apply list_lookup_insert_eq).
    run (get_frequency_ok _ _ _ Ht1). run (get_best_sub_frequency_ok _ _ _ Ht1).
    cbn [frequency best_sub_frequency nd1].
    destruct (best_sub_frequency ndt <? frequency ndt + 1).
    + rewrite bind_assoc. run (get_frequency_ok _ _ _ Ht1).
      run (set_best_sub_frequency_ok _ _ _ (frequency nd1) Ht1).
      set (nd2 := mkNode (link nd1) (frequency nd1) (frequency nd1)).
      assert (Ht2 : <[t := nd2]> (<[t := nd1]> h) !! t = Some nd2).
      { apply list_lookup_insert_eq. by rewrite length_insert. }
      rewrite (get_best_sub_frequency_ok _ _ _ Ht2).
      eexists _, _. split; [done|]. split; [by rewrite !length_insert|].
      intros l. rewrite (link_insert_same _ t nd1 nd2 Ht1 eq_refl).
      by rewrite (link_insert_same _ t ndt nd1 Ht eq_refl).
    + rewrite bind_ret. rewrite (get_best_sub_frequency_ok _ _ _ Ht1).
      eexists _, _. split; [done|]. split; [by rewrite length_insert|].
      intros l. by rewrite (link_insert_same _ t ndt nd1 Ht eq_refl).
  - apply lowercase_cons in Hlow as [Hc Hlow].
    destruct (is_lower_slot c Hc) as [Hidx Hslot].
    rewrite path_of_cons in Hw. cbn [walk] in Hw.
    destruct (walk_step h cur (slot c)) as [k|] eqn:Es; [|done].
    apply walk_step_Some in Es as (nd & Hcur & Hk).
    assert (Hkv : is_Some (h !! k)).
    { unfold path_of in Hw. destruct (letters key) as [|i q]; cbn [app walk] in Hw.
      - destruct (walk_step h k 0) eqn:E; [|done].
        apply walk_step_Some in E as (? & ? & _). eauto.
      - destruct (walk_step h k i) eqn:E; [|done].
        apply walk_step_Some in E as (? & ? & _). eauto. }
    cbn [insert_recur_aux]. cbv zeta.
    run (get_link_ok h cur nd _ (slot c) _ Hcur Hidx Hk).
    rewrite bind_assoc. run (get_link_ok h cur nd _ (slot c) _ Hcur Hidx Hk).
    run (as_node_ok k h).
    destruct (IH k h t Hlow Hw ltac:(eauto)) as (sub & h3 & Hrun & Hlen3 & Hlinks3).
    run Hrun.
    assert (exists ndk, h3 !! k = Some ndk) as [ndk Hndk].
    { destruct Hkv as [ndk0 Hk0]. specialize (Hlinks3 k). rewrite Hk0 in Hlinks3.
      destruct (h3 !! k) as [ndk|]; [eauto|done]. }
    run (get_best_sub_frequency_ok _ _ _ Hndk).
    destruct (best_sub_frequency ndk <? sub).
    + run (set_best_sub_frequency_ok _ _ _ sub Hndk).
      set (nd' := mkNode (link ndk) (frequency ndk) sub).
      assert (Hk' : <[k := nd']> h3 !! k = Some nd').
      { apply list_lookup_insert_eq. by eapply lookup_lt_Some. }
      rewrite (get_best_sub_frequency_ok _ _ _ Hk').
      eexists _, _. split; [done|]. split; [by rewrite length_insert|].
      intros l. by rewrite (link_insert_same _ k ndk nd' Hndk eq_refl).
    + rewrite bind_ret. rewrite (get_best_sub_frequency_ok _ _ _ Hndk).
      eexists _, _. split; [done|]. split; [done|]. done.
Qed.

(** X15: inserting a sentence that the trie already stores allocates no
    node and changes no link of any node: only counters change. *)
Theorem insert_recur_stored_sentence M h0 self h s :
  forallb lowercase M = true ->
  CatsTrie_init M h0 = (Ok self, h) ->
  s ∈ M ->
  exists h', insert_recur self s h = (Ok tt, h') /\
    length h' = length h /\
    forall l, link <$> h' !! l = link <$> h !! l.
Proof.
  intros HM Hinit Hs. pose proof (lowercase_in _ _ HM Hs) as Hlow.
  destruct (CatsTrie_init_spec M h0 HM) as (h1 & Hinit' & Hinv).
  rewrite Hinit in Hinit'. injection Hinit' as -> <-.
  destruct (in_trie_walk _ _ _ (path_of s) (paths_wf M HM) Hinv) as [t Ht].
  { right. exists (path_of s). split; [by apply elem_of_paths|done]. }
  destruct (trie_inv_node _ _ _ _ _ Hinv Ht) as (ndt & Hndt & _).
  destruct (insert_recur_aux_existing s (length h0) h t Hlow Ht ltac:(eauto))
    as (v & h' & Hrun & Hlen & Hlinks).
  exists h'. unfold insert_recur. cbv zeta. cbn [root]. by run Hrun.
Qed.

Lemma insert_recur_stored_sentence_witness :
  exists h', insert_recur (mkCatsTrie 0%nat) (lit "xyz") (snd (CatsTrie_init ex1 []))
               = (Ok tt, h') /\
    length h' = length (snd (CatsTrie_init ex1 [])) /\
    forall l, link <$> h' !! l = link <$> snd (CatsTrie_init ex1 []) !! l.
Proof.
  apply (insert_recur_stored_sentence ex1 [] (mkCatsTrie 0%nat)).
  - reflexivity.
  - vm_compute. reflexivity.
  - vm_compute. do 6 right. left.
Defined.

(** X16: an insertion that fits the recursion limit (three more frames
    left than the sentence has characters) returns, and it moves and
    removes nothing: every node reached from the root by some path before
    the insertion is reached by the same path after it, and neither its
    frequency nor its aggregate has decreased. *)
Theorem insert_recur_keeps_nodes stack M h0 self h s :
  forallb lowercase M = true -> lowercase s = true ->
  CatsTrie_init M h0 = (Ok self, h) ->
  (length s + 3 <= stack)%nat ->
  exists h', Limited.insert_recur stack self s h = (Ok tt, h') /\
    forall q n nd, walk h (root self) q = Some n -> h !! n = Some nd ->
      walk h' (root self) q = Some n /\
      exists nd', h' !! n = Some nd' /\
        frequency nd <= frequency nd' /\
        best_sub_frequency nd <= best_sub_frequency nd'.
Proof.
  intros HM Hlow Hinit Hstack.
  destruct (CatsTrie_init_spec M h0 HM) as (h1 & Hinit' & Hinv).
  rewrite Hinit in Hinit'. injection Hinit' as -> <-. cbn [root].
  pose proof Hinv as Hpre. apply trie_inv_pre in Hpre.
  destruct (insert_recur_aux_spec (paths M) (length h0) s (paths_wf M HM)
              [] (length h0) h Hlow (Forall_nil_2 _) Hpre eq_refl)
    as (v & h' & Hrun & Hm & Hmono & _).
  assert (Hinv' : trie_inv (paths M ++ [path_of s]) h' (length h0)).
  { apply post_done; [|done]. unfold path_of. by destruct (letters s). }
  exists h'. split.
  { rewrite limited_insert_recur_enough by done.
    unfold insert_recur. cbv zeta. cbn [root]. by run Hrun. }
  intros q n nd Hw Hnd. pose proof (Hmono _ _ Hw) as Hw'. split; [done|].
  destruct (trie_inv_node _ _ _ _ _ Hinv Hw) as (nd0 & Hnd0 & _ & _ & Hf & Ha).
  assert (nd0 = nd) as -> by congruence.
  destruct (trie_inv_node _ _ _ _ _ Hinv' Hw') as (nd' & Hnd' & _ & _ & Hf' & Ha').
  exists nd'. split; [done|]. rewrite Hf, Ha, Hf', Ha'. split.
  - unfold freq_of. rewrite occ_snoc. lia.
  - unfold agg_of. case_decide; [done|].
    apply Nat2Z.inj_le, best_snoc_ge.
Qed.

Lemma insert_recur_keeps_nodes_witness :
  exists h', Limited.insert_recur 6 (mkCatsTrie 0%nat) (lit "abd")
               (snd (CatsTrie_init ex1 [])) = (Ok tt, h') /\
    forall q n nd, walk (snd (CatsTrie_init ex1 [])) 0%nat q = Some n ->
      snd (CatsTrie_init ex1 []) !! n = Some nd ->
      walk h' 0%nat q = Some n /\
      exists nd', h' !! n = Some nd' /\
        frequency nd <= frequency nd' /\
        best_sub_frequency nd <= best_sub_frequency nd'.
Proof.
  apply (insert_recur_keeps_nodes 6 ex1 [] (mkCatsTrie 0%nat)).
  - reflexivity.
  - reflexivity.
  - vm_compute. reflexivity.
  - vm_compute. lia.
Defined.


(** ** Runs that meet the recursion limit *)

Lemma limited_insert_recur_aux_short L r key :
  forall stack p cur h,
  lowercase key = true -> (stack <= length key)%nat ->
  models h r (pre_spec L p) -> walk h r p = Some cur ->
  exists h', Limited.insert_recur_aux stack cur key h = (Raise RecursionError, h').
Proof.
  induction key as [|c0 key IH]; intros [|stack] p cur h Hlow Hs Hm Hw;
    cbn [length] in Hs; try lia; try (by exists h).
  apply lowercase_cons in Hlow as [Hc0 Hlow].
  destruct (is_lower_slot c0 Hc0) as [Hidx Hslot].
  cbn [Limited.insert_recur_aux]. cbv zeta.
  destruct (step_in L r p h cur (slot c0) Hm Hw ltac:(lia))
    as (nd & Hcur & Hlen & [(k & Hk & Hm2 & Hw2) | (Hnone & Hm2 & Hw2 & Hmono)]).
  - run (get_link_ok h cur nd _ (slot c0) _ Hcur Hidx Hk).
    rewrite bind_assoc. run (get_link_ok h cur nd _ (slot c0) _ Hcur Hidx Hk).
    run (as_node_ok k h).
    destruct (IH stack (p ++ [slot c0]) k h Hlow ltac:(lia) Hm2 Hw2) as (h' & Hrun).
    exists h'. by apply bind_raise.
  - run (get_link_ok h cur nd _ (slot c0) _ Hcur Hidx Hnone).
    destruct stack as [|stack]; [by exists h|].
    cbn [Limited.new_Node]. cbn zeta in Hm2, Hw2, Hmono.
    assert (Hcur' : (h ++ [Node_init]) !! cur = Some nd).
    { rewrite lookup_app_l; [done|]. by eapply lookup_lt_Some. }
    rewrite bind_assoc. run (new_Node_ok h). rewrite bind_assoc.
    run (set_link_ok _ cur nd _ (slot c0) (Some (length h)) Hcur' Hidx ltac:(lia)).
    set (nd' := mkNode _ _ _) in *. set (h2 := <[cur := nd']> _) in *.
    assert (Hcur2 : h2 !! cur = Some nd').
    { apply list_lookup_insert_eq. by eapply lookup_lt_Some. }
    assert (Hl2 : link nd' !! slot c0 = Some (Some (length h))).
    { apply list_lookup_insert_eq. lia. }
    rewrite bind_assoc.
    run (get_link_ok h2 cur nd' _ (slot c0) _ Hcur2 Hidx Hl2).
    run (as_node_ok (length h) h2).
    destruct (IH (S stack) (p ++ [slot c0]) (length h) h2 Hlow ltac:(lia) Hm2 Hw2)
      as (h' & Hrun).
    exists h'. by apply bind_raise.
Qed.

(** X18: the constructor does not accept every lowercase corpus: a
    lowercase sentence with at least as many characters as there are frames
    left, less two, makes it raise [RecursionError], whatever the sentences
    after it; no trie is returned. *)
Theorem CatsTrie_init_long_sentence stack M s M2 h0 :
  forallb lowercase M = true -> lowercase s = true ->
  (max_list (map length M) + 4 <= stack)%nat ->
  (stack <= length s + 2)%nat ->
  exists h, Limited.CatsTrie_init stack (M ++ s :: M2) h0 = (Raise RecursionError, h).
Proof.
  intros HM Hlow Hstack Hs.
  destruct (insert_loop_spec (mkCatsTrie (length h0)) M [] (h0 ++ [Node_init])
              eq_refl HM (trie_inv_empty h0)) as (h & Hrun & Hinv).
  cbn [app root] in Hinv. apply trie_inv_pre in Hinv.
  destruct stack as [|[|stack]]; [lia..|].
  destruct (limited_insert_recur_aux_short (paths M) (length h0) s
              stack [] (length h0) h Hlow ltac:(lia) Hinv eq_refl) as (h' & Hbad).
  exists h'.
  unfold Limited.CatsTrie_init. rewrite (limited_new_Node_enough (S stack)) by lia.
  run (new_Node_ok h0). cbv zeta.
  apply bind_raise. rewrite for_each_app.
  apply bind_raise_after with (a := tt) (h1 := h).
  { by rewrite limited_insert_loop_enough by lia. }
  cbn [for_each]. apply bind_raise. unfold Limited.insert_recur. cbv zeta. cbn [root].
  by apply bind_raise.
Qed.

Lemma CatsTrie_init_long_sentence_witness :
  exists h, Limited.CatsTrie_init 6 ([lit "ab"] ++ lit "abcd" :: [lit "c"]) []
            = (Raise RecursionError, h).
Proof.
  apply (CatsTrie_init_long_sentence 6 [lit "ab"] (lit "abcd") [lit "c"] []);
    [reflexivity|reflexivity|vm_compute; lia|vm_compute; lia].
Defined.

Lemma bind_agree {A B} (m m' : Py A) (f f' : A -> Py B) h o h' bad :
  bind m f h = (o, h') -> o <> Raise bad ->
  (forall o1 h1, m h = (o1, h1) -> o1 <> Raise bad -> m' h = (o1, h1)) ->
  (forall a h1, f a h1 = (o, h') -> f' a h1 = (o, h')) ->
  bind m' f' h = (o, h').
Proof.
  unfold bind. intros Hrun Ho Hm Hf. destruct (m h) as [[a|e] h1] eqn:E.
  - rewrite (Hm _ _ eq_refl) by done. by apply Hf.
  - injection Hrun as <- <-. rewrite (Hm _ _ eq_refl); [done|]. congruence.
Qed.

Lemma limited_new_Node_agree stack h o h' :
  Limited.new_Node stack h = (o, h') -> o <> Raise RecursionError ->
  new_Node h = (o, h').
Proof. destruct stack; [|done]. intros [= <- <-]. done. Qed.

Lemma limited_insert_recur_aux_agree stack :
  forall current key h o h',
  Limited.insert_recur_aux stack current key h = (o, h') ->
  o <> Raise RecursionError ->
  insert_recur_aux current key h = (o, h').
Proof.
  induction stack as [|stack IH]; intros current key h o h' Hrun Ho.
  { injection Hrun as <- <-. done. }
  destruct key as [|c key]; cbn [Limited.insert_recur_aux insert_recur_aux] in *;
    cbv zeta in *.
  - eapply bind_agree; [exact Hrun|exact Ho|done|]. intros l0 h1 Hrun1.
    eapply bind_agree; [exact Hrun1|exact Ho| |done].
    intros o1 h2 H1 Ho1. destruct l0; [done|].
    eapply bind_agree; [exact H1|exact Ho1|apply limited_new_Node_agree|done].
  - eapply bind_agree; [exact Hrun|exact Ho|done|]. intros l h1 Hrun1.
    eapply bind_agree; [exact Hrun1|exact Ho| |].
    + intros o1 h2 H1 Ho1. destruct l; [done|].
      eapply bind_agree; [exact H1|exact Ho1|apply limited_new_Node_agree|done].
    + intros cur h2 Hrun2.
      eapply bind_agree; [exact Hrun2|exact Ho|apply IH|done].
Qed.

Lemma for_each_agree {A S} (xs : list A) (f f' : S -> A -> Py S) bad :
  (forall st x h o h', f st x h = (o, h') -> o <> Raise bad -> f' st x h = (o, h')) ->
  forall st h o h', for_each xs f st h = (o, h') -> o <> Raise bad ->
                    for_each xs f' st h = (o, h').
Proof.
  intros Hf. induction xs as [|x xs IH]; intros st h o h' Hrun Ho; [done|].
  cbn [for_each] in *.
  eapply bind_agree; [exact Hrun|exact Ho|apply Hf|].
  intros st1 h1 Hrun1. by apply IH.
Qed.

Lemma limited_CatsTrie_init_agree stack M h0 o h :
  Limited.CatsTrie_init stack M h0 = (o, h) ->
  o <> Raise RecursionError ->
  CatsTrie_init M h0 = (o, h).
Proof.
  intros Hrun Ho. destruct stack as [|stack].
  { injection Hrun as <- <-. done. }
  unfold Limited.CatsTrie_init, CatsTrie_init in *.
  eapply bind_agree; [exact Hrun|exact Ho|apply limited_new_Node_agree|].
  intros r h1 Hrun1. cbv zeta in *.
  eapply bind_agree; [exact Hrun1|exact Ho| |done].
  apply for_each_agree. intros [] s h2 o2 h3 Hs Ho2.
  destruct stack as [|stack].
  { injection Hs as <- <-. done. }
  unfold Limited.insert_recur, insert_recur in *. cbv zeta in *.
  eapply bind_agree; [exact Hs|exact Ho2|apply limited_insert_recur_aux_agree|done].
Qed.

(** X19: the recursion limit only cuts runs off.  A run of the constructor
    under the limit that ends otherwise than with [RecursionError], with a
    trie or with another exception, is the run of the constructor without
    the limit: same outcome, same heap. *)
Theorem recursion_limit_only_cuts stack M h0 o h :
  Limited.CatsTrie_init stack M h0 = (o, h) ->
  o <> Raise RecursionError ->
  CatsTrie_init M h0 = (o, h).
Proof. apply limited_CatsTrie_init_agree. Qed.

Lemma recursion_limit_only_cuts_witness :
  CatsTrie_init (map lit ["ab"; "aB"]%string) []
  = (Raise IndexError, snd (Limited.CatsTrie_init 6 (map lit ["ab"; "aB"]%string) [])).
Proof.
  apply (recursion_limit_only_cuts 6 (map lit ["ab"; "aB"]%string) []).
  - vm_compute. reflexivity.
  - discriminate.
Defined.

(** X20: under the recursion limit the constructor, given a corpus of
    lowercase sentences, ends in one of two ways, whatever the number of
    frames left: with [RecursionError], or with the trie and the heap that
    the constructor without the limit builds.  No other exception is
    raised. *)
Theorem CatsTrie_init_outcomes stack M h0 :
  forallb lowercase M = true ->
  (exists h, Limited.CatsTrie_init stack M h0 = (Raise RecursionError, h)) \/
  (exists self h, Limited.CatsTrie_init stack M h0 = (Ok self, h) /\
                  CatsTrie_init M h0 = (Ok self, h)).
Proof.
  intros HM. destruct (CatsTrie_init_spec M h0 HM) as (h1 & Hinit & _).
  destruct (Limited.CatsTrie_init stack M h0) as [o h] eqn:E.
  assert (Hcases : o = Raise RecursionError \/ o <> Raise RecursionError).
  { destruct o as [a|[]]; (by left) || (by right). }
  destruct Hcases as [->|Ho]; [left; eauto|right].
  pose proof (limited_CatsTrie_init_agree _ _ _ _ _ E Ho) as E'.
  rewrite Hinit in E'. injection E' as <- <-. eauto.
Qed.

Lemma CatsTrie_init_outcomes_witness :
  (exists h, Limited.CatsTrie_init 5 (map lit ["a"; "ab"]%string) []
             = (Raise RecursionError, h)) \/
  (exists self h, Limited.CatsTrie_init 5 (map lit ["a"; "ab"]%string) [] = (Ok self, h) /\
                  CatsTrie_init (map lit ["a"; "ab"]%string) [] = (Ok self, h)).
Proof.
  apply (CatsTrie_init_outcomes 5 (map lit ["a"; "ab"]%string) []). reflexivity.
Defined.
